(** * performance2025: the sampling-and-persistence core

    A shallow embedding of the parts of the monitor that the specification
    speaks about:

    - [database/db_manager.py]   the SQLite store ([DatabaseManager]),
    - [config/config_manager.py] the configuration document and its save,
    - [ui/monitor_window.py]     the watch-list, the running-process refresher
                                 and the monitor loop,
    - [ui/analyzer_window.py]    the down-sampling of a series.

    Python [str] values are byte strings (their UTF-8 encoding): SQLite's
    default BINARY collation and Python's own comparison of [str] agree with
    the lexicographic order on those bytes.  Library functions of Python
    ([str.lower], [str.strip], [json.dumps], [json.loads]) are parameters of
    the sections that use them; ASCII instances are given for evaluation. *)

From Stdlib Require Import ZArith NArith String Ascii List Sorted Permutation Lia.
From Stdlib Require Import Floats.SpecFloat.
From stdpp Require Import base decidable option list sorting strings gmap.

Local Open Scope Z_scope.
Local Open Scope string_scope.

(** ** Python strings *)

Module PyStr.

(** [str.lower] restricted to ASCII letters; bytes outside [A-Z] are kept. *)
Definition lower_ascii (c : ascii) : ascii :=
  let n := nat_of_ascii c in
  if ((65 <=? n) && (n <=? 90))%nat then ascii_of_nat (n + 32) else c.

Fixpoint lower (s : string) : string :=
  match s with
  | EmptyString => EmptyString
  | String c s' => String (lower_ascii c) (lower s')
  end.

(** ASCII white space, as [str.strip] removes it from both ends. *)
Definition is_space (c : ascii) : bool :=
  let n := nat_of_ascii c in
  ((n =? 32) || ((9 <=? n) && (n <=? 13)) || ((28 <=? n) && (n <=? 31)))%nat.

Fixpoint lstrip (s : string) : string :=
  match s with
  | EmptyString => EmptyString
  | String c s' => if is_space c then lstrip s' else s
  end.

Fixpoint rstrip (s : string) : string :=
  match s with
  | EmptyString => EmptyString
  | String c s' =>
      match rstrip s' with
      | EmptyString => if is_space c then EmptyString else String c EmptyString
      | t => String c t
      end
  end.

Definition strip (s : string) : string := rstrip (lstrip s).

(** Truth value of a [str]: the empty string is false. *)
Definition truthy (s : string) : bool :=
  match s with EmptyString => false | _ => true end.

(** Truth value of an optional [str] argument ([None] is false). *)
Definition opt_truthy (o : option string) : bool :=
  match o with Some s => truthy s | None => false end.

End PyStr.

(** ** The clock: [datetime.now()] and [datetime.isoformat()] *)

Module Clock.

(** A naive [datetime]; a value built by [datetime.now()] satisfies [valid]. *)
Record datetime : Type := mk_datetime {
  year : N; month : N; day : N;
  hour : N; minute : N; second : N; microsecond : N
}.

Definition valid (d : datetime) : Prop :=
  (year d < 10000 ∧ month d < 100 ∧ day d < 100 ∧ hour d < 100 ∧
   minute d < 100 ∧ second d < 100 ∧ microsecond d < 1000000)%N.

Definition digit (n : N) : ascii := ascii_of_N (48 + n mod 10).

(** The [w] low decimal digits of [n], zero padded ([%0wd] when [n < 10^w]). *)
Fixpoint digits (w : nat) (n : N) : string :=
  match w with
  | O => EmptyString
  | S w' => digits w' (n / 10) ++ String (digit n) EmptyString
  end.

(** [datetime.isoformat()] with the default [timespec='auto']: the fraction
    is printed only when the microsecond field is not zero. *)
Definition isoformat (d : datetime) : string :=
  digits 4 (year d) ++ "-" ++ digits 2 (month d) ++ "-" ++ digits 2 (day d)
  ++ "T" ++ digits 2 (hour d) ++ ":" ++ digits 2 (minute d) ++ ":"
  ++ digits 2 (second d)
  ++ (if (microsecond d =? 0)%N then "" else "." ++ digits 6 (microsecond d)).

End Clock.

(** ** The metrics store ([database/db_manager.py]) *)

Module DB.

Section Store.

(** Python [float] values, stored in [REAL] columns; the store never
    computes with them. *)
Context {real : Type}.

(** JSON-representable Python values. A [dict] keeps its insertion order. *)
#[warnings="-register-all"]
Inductive json : Type :=
| JNull
| JBool (b : bool)
| JInt (n : Z)
| JFloat (x : real)
| JStr (s : string)
| JList (l : list json)
| JDict (kv : list (string * json)).

(** [json.dumps] and [json.loads]; [None] is a raised exception. *)
Variable json_dumps : json → string.
Variable json_loads : string → option json.

(** [collector/base.py], [ProcessInfo]: the sample carries no timestamp.
    [__post_init__] turns a missing [extra_metrics] into the empty dict. *)
Record ProcessInfo : Type := mk_ProcessInfo {
  pid : Z;
  name : string;
  command_line : string;
  user : string;
  cpu_percent : real;
  memory_mb : real;
  extra_metrics : list (string * json)
}.

(** A row of the table [processes]. The columns declared [NOT NULL] hold a
    value, the others an optional one. *)
Record process_row : Type := mk_process_row {
  row_id : Z;
  row_timestamp : string;
  row_pid : Z;
  row_name : string;
  row_command_line : option string;
  row_user : option string;
  row_cpu_percent : option real;
  row_memory_mb : option real;
  row_extra_metrics : option string
}.

(** The table [processes] in rowid order, and the [AUTOINCREMENT] counter
    SQLite keeps for it in [sqlite_sequence]. *)
Record database : Type := mk_database {
  processes : list process_row;
  processes_seq : Z
}.

(** [_init_database] on a fresh file. *)
Definition init_database : database :=
  {| processes := []; processes_seq := 0 |}.

(** The key of [UNIQUE(timestamp, pid)]. *)
Definition same_key (ts : string) (p : Z) (r : process_row) : Prop :=
  row_timestamp r = ts ∧ row_pid r = p.

#[global] Instance same_key_dec ts p r : Decision (same_key ts p r).
Proof. unfold same_key. apply _. Defined.

(** Truth value of a [dict]. *)
Definition dict_truthy (d : list (string * json)) : bool :=
  match d with [] => false | _ => true end.

(** [INSERT OR REPLACE INTO processes ...]: the rows in conflict on the
    unique key are deleted, then the new row is added under a fresh id. *)
Definition insert_or_replace (ts : string) (p : Z) (mk : Z → process_row)
    (db : database) : database :=
  let id := Z.max (processes_seq db)
                  (foldr Z.max 0 (row_id <$> processes db)) + 1 in
  {| processes := filter (λ r, ¬ same_key ts p r) (processes db) ++ [mk id];
     processes_seq := id |}.

(** The text bound to the column [extra_metrics]. *)
Definition extra_metrics_json (process_info : ProcessInfo) : string :=
  if dict_truthy (extra_metrics process_info)
  then json_dumps (JDict (extra_metrics process_info))
  else "{}".

(** The tuple of [VALUES (?, ?, ?, ?, ?, ?, ?, ?)], stored under [id]. *)
Definition values (timestamp : string) (process_info : ProcessInfo) (id : Z)
    : process_row :=
  {| row_id := id;
     row_timestamp := timestamp;
     row_pid := pid process_info;
     row_name := name process_info;
     row_command_line := Some (command_line process_info);
     row_user := Some (user process_info);
     row_cpu_percent := Some (cpu_percent process_info);
     row_memory_mb := Some (memory_mb process_info);
     row_extra_metrics := Some (extra_metrics_json process_info) |}.

(** [insert_process_info]; [now] is the value of [datetime.now()] read by
    the call. *)
Definition insert_process_info (now : Clock.datetime) (process_info : ProcessInfo)
    (db : database) : database :=
  let timestamp := Clock.isoformat now in
  insert_or_replace timestamp (pid process_info) (values timestamp process_info) db.

(** The value of the key ['extra_metrics'] in a returned row: the raw column
    ([None] or a [str]) or the decoded document. *)
Inductive metrics_value : Type :=
| MNone
| MStr (s : string)
| MJson (v : json).

(** One element of the list [get_process_data] returns ([dict(row)]). *)
Record process_data : Type := mk_process_data {
  data_id : Z;
  data_timestamp : string;
  data_pid : Z;
  data_name : string;
  data_command_line : option string;
  data_user : option string;
  data_cpu_percent : option real;
  data_memory_mb : option real;
  data_extra_metrics : metrics_value
}.

(** The body of the loop over [rows]: a truthy column is parsed, a parse
    failure gives [{}], a falsy column (NULL or the empty string) is left
    as it is. *)
Definition parse_extra_metrics (col : option string) : metrics_value :=
  match col with
  | None => MNone
  | Some s =>
      if PyStr.truthy s then
        match json_loads s with
        | Some v => MJson v
        | None => MJson (JDict [])
        end
      else MStr s
  end.

Definition to_data (r : process_row) : process_data :=
  {| data_id := row_id r;
     data_timestamp := row_timestamp r;
     data_pid := row_pid r;
     data_name := row_name r;
     data_command_line := row_command_line r;
     data_user := row_user r;
     data_cpu_percent := row_cpu_percent r;
     data_memory_mb := row_memory_mb r;
     data_extra_metrics := parse_extra_metrics (row_extra_metrics r) |}.

(** The [WHERE] clause [get_process_data] builds: [pid] and [name] are
    tested against [None], the two times by their truth value. *)
Definition where_clause (pid : option Z) (name start_time end_time : option string)
    (r : process_row) : Prop :=
  (match pid with Some p => row_pid r = p | None => True end) ∧
  (match name with Some n => row_name r = n | None => True end) ∧
  (if PyStr.opt_truthy start_time
   then String.le (default "" start_time) (row_timestamp r) else True) ∧
  (if PyStr.opt_truthy end_time
   then String.le (row_timestamp r) (default "" end_time) else True).

#[global] Instance where_clause_dec pid name st en r :
  Decision (where_clause pid name st en r).
Proof.
  unfold where_clause.
  destruct pid, name, (PyStr.opt_truthy st), (PyStr.opt_truthy en); apply _.
Defined.

(** [ORDER BY timestamp]: the order of the [TEXT] column, byte by byte.
    SQLite leaves open the order of rows with equal timestamps; the sort
    below fixes one. *)
Definition timestamp_le (r1 r2 : process_row) : Prop :=
  String.le (row_timestamp r1) (row_timestamp r2).

#[global] Instance timestamp_le_dec : RelDecision timestamp_le.
Proof. intros r1 r2. unfold timestamp_le. apply _. Defined.

(** [SELECT * FROM processes WHERE ... ORDER BY timestamp]. *)
Definition select_processes (pid : option Z) (name start_time end_time : option string)
    (db : database) : list process_row :=
  merge_sort timestamp_le
    (filter (where_clause pid name start_time end_time) (processes db)).

(** [get_process_data]: every selected row, as a dict with its
    [extra_metrics] decoded. *)
Definition get_process_data (db : database) (pid : option Z)
    (name start_time end_time : option string) : list process_data :=
  to_data <$> select_processes pid name start_time end_time db.

(** [get_all_pids]: [SELECT DISTINCT pid ... ORDER BY pid], restricted to a
    name when the argument is truthy. *)
Definition get_all_pids (db : database) (name : option string) : list Z :=
  let rows :=
    if PyStr.opt_truthy name
    then filter (λ r, row_name r = default "" name) (processes db)
    else processes db in
  merge_sort Z.le (remove_dups (row_pid <$> rows)).

End Store.

End DB.

(** ** The configuration document ([config/config_manager.py]) *)

Module Config.

(** The part of the file system [save_config] touches: the directories that
    exist and the regular files with their contents. *)
Record filesystem : Type := mk_filesystem {
  dirs : gset string;
  files : gmap string string
}.

(** [self.config_path]: the text of the path and of its parent directory. *)
Record path : Type := mk_path {
  parent : string;
  full : string
}.

(** [Path.exists] for the configuration file. *)
Definition exists_file (p : string) (fs : filesystem) : bool :=
  bool_decide (is_Some (files fs !! p)).

(** [parent_dir.mkdir(parents=True, exist_ok=True)]. *)
Definition mkdir (d : string) (fs : filesystem) : filesystem :=
  {| dirs := {[d]} ∪ dirs fs; files := files fs |}.

(** [open(p, 'w')]: the file is created, or truncated. *)
Definition open_w (p : string) (fs : filesystem) : filesystem :=
  {| dirs := dirs fs; files := <[p := ""]> (files fs) |}.

(** One more character of the document reaches the file. *)
Definition write_char (p : string) (c : ascii) (fs : filesystem) : filesystem :=
  {| dirs := dirs fs;
     files := alter (λ s, s ++ String c EmptyString) p (files fs) |}.

(** [Path.unlink]. *)
Definition unlink (p : string) (fs : filesystem) : filesystem :=
  {| dirs := dirs fs; files := delete p (files fs) |}.

(** [shutil.move(src, dst)] within one directory: a rename. *)
Definition move (src dst : string) (fs : filesystem) : filesystem :=
  match files fs !! src with
  | Some s => {| dirs := dirs fs; files := <[dst := s]> (delete src (files fs)) |}
  | None => fs
  end.

Definition temp_path (p : path) : string := full p ++ ".tmp".

(** The effects of [save_config], in program order; [doc] is the text
    [json.dump] produces for [self.config]. Each effect reads the state it
    is applied to, as the two [exists] tests do. *)
Definition save_config_effects (p : path) (doc : string)
    : list (filesystem → filesystem) :=
  [ λ fs, if bool_decide (parent p ∈ dirs fs) then fs else mkdir (parent p) fs;
    open_w (temp_path p) ]
  ++ (write_char (temp_path p) <$> list_ascii_of_string doc)
  ++ [ λ fs, if exists_file (full p) fs then unlink (full p) fs else fs;
       move (temp_path p) (full p) ].

(** The states of the file system while a list of effects runs: the state
    before the first effect, then the state after each one. An exception, or
    a crash, in the middle leaves the file system in one of them. *)
Fixpoint states (effects : list (filesystem → filesystem)) (fs : filesystem)
    : list filesystem :=
  match effects with
  | [] => [fs]
  | f :: rest => fs :: states rest (f fs)
  end.

Definition save_config_states (p : path) (doc : string) (fs : filesystem)
    : list filesystem :=
  states (save_config_effects p doc) fs.

(** [save_config] when nothing fails. *)
Definition save_config (p : path) (doc : string) (fs : filesystem) : filesystem :=
  foldl (λ s f, f s) fs (save_config_effects p doc).

End Config.

(** ** The watch-list ([ui/monitor_window.py], [monitored_table]) *)

Module Watch.

(** The table [monitored_table]: the texts of its rows, top to bottom. *)
Abbreviation table := (list string).

Section WatchList.

(** [str.lower] and [str.strip]. *)
Variable lower : string → string.
Variable strip : string → string.

(** [load_config], the loop that builds [unique_processes]. *)
Definition dedup_step (acc : gset string * list string) (proc : string)
    : gset string * list string :=
  let proc_lower := lower proc in
  if decide (proc_lower ∈ acc.1) then acc
  else ({[proc_lower]} ∪ acc.1, (acc.2 ++ [proc])%list).

Definition unique_processes (monitored_processes : list string) : list string :=
  (foldl dedup_step (∅, []) monitored_processes).2.

(** [load_config]: the table gets one row per unique name. *)
Definition load_config (monitored_processes : list string) (t : table) : table :=
  unique_processes monitored_processes.

(** The scan of the rows for a name equal up to case. *)
Definition already_monitored (name_lower : string) (t : table) : bool :=
  bool_decide (Exists (λ row, lower row = name_lower) t).

(** [add_process]: the text of the input field is stripped; an empty name
    and a name already in the table leave the table as it is. *)
Definition add_process (input : string) (t : table) : table :=
  let process_name := strip input in
  if negb (PyStr.truthy process_name) then t
  else if already_monitored (lower process_name) t then t
  else (t ++ [process_name])%list.

(** [_add_process_to_monitor]: the name of a row of the running table. *)
Definition add_process_to_monitor (name : string) (t : table) : table :=
  if already_monitored (lower name) t then t else (t ++ [name])%list.

(** What the user can do to the watch-list. *)
Inductive action : Type :=
| Load (monitored_processes : list string)
| Add (input : string)
| AddRunning (name : string).

Definition perform (t : table) (a : action) : table :=
  match a with
  | Load l => load_config l t
  | Add input => add_process input t
  | AddRunning name => add_process_to_monitor name t
  end.

(** The table after a sequence of actions on the empty table of [init_ui]. *)
Definition run (actions : list action) : table := foldl perform [] actions.

(** The specification's wording of the de-duplication: keep a name, drop
    every later name equal to it up to case, go on with the rest. *)
Fixpoint first_seen (l : list string) : list string :=
  match l with
  | [] => []
  | x :: rest => x :: filter (λ y, lower y ≠ lower x) (first_seen rest)
  end.

End WatchList.

End Watch.

(** ** The running-process refresher ([refresh_running_processes]) *)

Module Refresh.

(** The table [running_table]: the texts of its rows, top to bottom. The
    selection, which the function saves and restores by name, is not part
    of the rows. *)
Abbreviation table := (list string).

Section Refresher.

Variable lower : string → string.

(** The order the table is sorted in while its sorting is enabled: Qt's
    comparison of the texts of two rows, in the direction of the sort
    indicator of the header. *)
Context (qt_le : relation string) `{!RelDecision qt_le}.

(** What the function does to the table, in the order it does it. *)
Inductive event : Type :=
| RemoveRow (row : nat)
| InsertRow (row : nat) (name : string).

(** The dict [process_names_seen], in insertion order: lower-cased name to
    the first name seen with it. *)
Definition seen_step (d : list (string * string)) (name : string)
    : list (string * string) :=
  let name_lower := lower name in
  if decide (name_lower ∈ d.*1) then d else (d ++ [(name_lower, name)])%list.

Definition process_names_seen (new_processes : list string)
    : list (string * string) :=
  foldl seen_step [] new_processes.

(** [sorted(process_names_seen.values(), key=lambda n: n.lower())]. *)
Definition lower_le (a b : string) : Prop := String.le (lower a) (lower b).

#[global] Instance lower_le_dec : RelDecision lower_le.
Proof. intros a b. unfold lower_le. apply _. Defined.

Definition unique_names (new_processes : list string) : list string :=
  merge_sort lower_le (process_names_seen new_processes).*2.

(** The set of the lower-cased texts of the rows. *)
Definition current_names (t : table) : gset string := list_to_set (lower <$> t).

(** The rows whose text satisfies [P], by index, top to bottom. *)
Definition rows_where (P : string → Prop) `{!∀ x, Decision (P x)} (t : table)
    : list nat :=
  (filter (λ ir, P ir.2) (imap pair t)).*1.

(** The row a name is inserted at: the first row whose text lies after it,
    or the end of the table. *)
Definition insert_row (name : string) (t : table) : nat :=
  match list_find (λ text, String.ltb (lower name) (lower text) = true) t with
  | Some (row, _) => row
  | None => length t
  end.

Definition add_step (names_to_add : gset string) (acc : table * list event)
    (name : string) : table * list event :=
  if decide (lower name ∈ names_to_add) then
    let row := insert_row name acc.1 in
    ((take row acc.1 ++ name :: drop row acc.1)%list,
     (acc.2 ++ [InsertRow row name])%list)
  else acc.

(** The rows go and come: the body of the function once the process list
    is there, up to the last insertion. The sorting of the table is
    disabled meanwhile. *)
Definition update_rows (new_processes : list string) (t : table)
    : table * list event :=
  let unique := unique_names new_processes in
  let new_names : gset string := list_to_set (lower <$> unique) in
  let names_to_remove := current_names t ∖ new_names in
  let names_to_add := new_names ∖ current_names t in
  let rows_to_remove := rows_where (λ text, lower text ∈ names_to_remove) t in
  let t1 := foldl (λ t row, delete row t) t (reverse rows_to_remove) in
  foldl (add_step names_to_add) (t1, RemoveRow <$> reverse rows_to_remove) unique.

(** [running_table.setSortingEnabled(enable)]: enabling the sorting sorts
    the rows at once, by the sort indicator; disabling it leaves them.
    Where [qt_le] is a total order the sorted table does not depend on how
    the rows are sorted. *)
Definition set_sorting_enabled (enable : bool) (t : table) : table :=
  if enable then merge_sort qt_le t else t.

(** The body of the function with its last step on the table,
    [setSortingEnabled(was_sorting_enabled)]. *)
Definition refresh_table (was_sorting_enabled : bool)
    (new_processes : list string) (t : table) : table * list event :=
  let r := update_rows new_processes t in
  (set_sorting_enabled was_sorting_enabled r.1, r.2).

(** [refresh_running_processes]: nothing happens while monitoring or before
    the collector exists; the inner [option] of [collector] is the result
    of [get_process_list_fast], [None] when it raises. That exception is
    caught and printed; [print_returns] tells whether the [print] of the
    handler returns, and the result [None] is its exception leaving the
    function. [was_sorting_enabled] is what [isSortingEnabled()] gives. *)
Definition refresh_running_processes (monitoring : bool)
    (collector : option (option (list string))) (print_returns : bool)
    (was_sorting_enabled : bool) (t : table)
    : option (table * list event) :=
  if monitoring then Some (t, [])
  else match collector with
       | None => Some (t, [])
       | Some None => if print_returns then Some (t, []) else None
       | Some (Some new_processes) =>
           Some (refresh_table was_sorting_enabled new_processes t)
       end.

(** The texts of the rows an event list removes from [t], and the names it
    inserts. *)
Definition removed (t : table) (events : list event) : list string :=
  omap (λ e, match e with RemoveRow row => t !! row | _ => None end) events.

Definition added (events : list event) : list string :=
  omap (λ e, match e with InsertRow _ name => Some name | _ => None end) events.

End Refresher.

End Refresh.

(** ** The monitor loop ([monitor_loop], the periodic phase) *)

Module Loop.

(** The outcome of a call: a value, or a raised exception (one derived from
    [Exception]). *)
Inductive outcome (exn A : Type) : Type :=
| Return (a : A)
| Raise (e : exn).
Arguments Return {exn A} a.
Arguments Raise {exn A} e.

(** A computation acts on the world (the process table of the machine, the
    store, the clock, the flag [self.monitoring] another thread may clear)
    and returns or raises. *)
Definition comp (World exn A : Type) : Type := World → outcome exn A * World.

(** What the loop calls: the collector, the store and [print], where every
    call may raise, and the calls that do not. *)
Class Machine (World ProcessInfo SystemInfo exn : Type) : Type := {
  get_processes_by_name : string → comp World exn (list ProcessInfo);
  get_system_info : comp World exn SystemInfo;
  insert_process_info : ProcessInfo → comp World exn unit;
  insert_system_info : SystemInfo → comp World exn unit;
  (** [self.last_record_time = datetime.now()] *)
  set_last_record_time : World → World;
  (** [time.sleep(interval)] *)
  sleep : Z → World → World;
  (** [print(f"...{e}")]: it raises when the output stream cannot take the
      message (a closed stream, a text it cannot encode) *)
  print_error : exn → comp World exn unit;
  (** the flag [self.monitoring], as the loop reads it *)
  monitoring : World → bool
}.

Section MonitorLoop.

Context {World ProcessInfo SystemInfo exn : Type}.
Context `{!Machine World ProcessInfo SystemInfo exn}.

Definition ret {A} (a : A) : comp World exn A := λ w, (Return a, w).

Definition bind {A B} (c : comp World exn A) (k : A → comp World exn B)
    : comp World exn B :=
  λ w, match c w with
       | (Return a, w') => k a w'
       | (Raise e, w') => (Raise e, w')
       end.

(** [try: c except Exception as e: h e]. *)
Definition try_except {A} (c : comp World exn A) (h : exn → comp World exn A)
    : comp World exn A :=
  λ w, match c w with
       | (Return a, w') => (Return a, w')
       | (Raise e, w') => h e w'
       end.

Definition lift (f : World → World) : comp World exn unit :=
  λ w, (Return tt, f w).

(** A [for] loop over a list. *)
Fixpoint for_each {A} (l : list A) (body : A → comp World exn unit)
    : comp World exn unit :=
  match l with
  | [] => ret tt
  | x :: rest => bind (body x) (λ _, for_each rest body)
  end.

(** The first loop of the [try] block: the processes of every watched
    name, appended to [processes_to_record]. *)
Fixpoint collect (names : list string) (acc : list ProcessInfo)
    : comp World exn (list ProcessInfo) :=
  match names with
  | [] => ret acc
  | name_lower :: rest =>
      bind (get_processes_by_name name_lower)
           (λ procs, collect rest (acc ++ procs))
  end.

(** The [try] block. *)
Definition tick_body (interval : Z) (monitored_names : list string)
    : comp World exn unit :=
  bind (collect monitored_names []) (λ processes_to_record,
  bind (for_each processes_to_record insert_process_info) (λ _,
  bind get_system_info (λ system_info,
  bind (insert_system_info system_info) (λ _,
  bind (lift set_last_record_time) (λ _,
  lift (sleep interval)))))).

(** One iteration: the [try] block with its handler. An exception of the
    handler's own [print] is not caught by anything: it leaves the
    iteration before the sleep. *)
Definition tick (interval : Z) (monitored_names : list string)
    : comp World exn unit :=
  try_except (tick_body interval monitored_names)
    (λ e, bind (print_error e) (λ _, lift (sleep interval))).

(** [while self.monitoring: ...], run for at most [fuel] iterations. The
    result tells how the run ended: [Return true] when the loop saw the flag
    cleared, [Return false] when the iterations were used up with the loop
    still going, [Raise e] when [e] left the loop and ended the thread. *)
Fixpoint monitor_loop (fuel : nat) (interval : Z) (monitored_names : list string)
    : comp World exn bool :=
  match fuel with
  | O => ret false
  | S fuel' =>
      λ w, if monitoring w
           then bind (tick interval monitored_names)
                     (λ _, monitor_loop fuel' interval monitored_names) w
           else (Return true, w)
  end.

End MonitorLoop.

(** A small machine to run the loop on: the world is the number of sleeps
    so far and a log of what happened. One process matches every name; the
    write to the store fails during the second iteration, the system sample
    fails during the third, and the flag is cleared after four sleeps. *)
Definition log (line : string) (w : nat * list string) : nat * list string :=
  (w.1, (w.2 ++ [line])%list).

#[global] Instance scripted : Machine (nat * list string) Z unit string := {|
  get_processes_by_name name w := (Return [4242], log ("find " ++ name) w);
  get_system_info w :=
    if (w.1 =? 2)%nat then (Raise "psutil.Error", w)
    else (Return tt, log "system" w);
  insert_process_info p w :=
    if (w.1 =? 1)%nat then (Raise "sqlite3.OperationalError", w)
    else (Return tt, log "insert process" w);
  insert_system_info s w := (Return tt, log "insert system" w);
  set_last_record_time w := log "stamp" w;
  sleep interval w := (S w.1, (w.2 ++ ["sleep"])%list);
  print_error e w := (Return tt, log ("print " ++ e) w);
  monitoring w := (w.1 <? 4)%nat
|}.

(** The same machine with its output stream closed: [print] raises. *)
Definition closed_stdout : Machine (nat * list string) Z unit string := {|
  get_processes_by_name name w := (Return [4242], log ("find " ++ name) w);
  get_system_info w :=
    if (w.1 =? 2)%nat then (Raise "psutil.Error", w)
    else (Return tt, log "system" w);
  insert_process_info p w :=
    if (w.1 =? 1)%nat then (Raise "sqlite3.OperationalError", w)
    else (Return tt, log "insert process" w);
  insert_system_info s w := (Return tt, log "insert system" w);
  set_last_record_time w := log "stamp" w;
  sleep interval w := (S w.1, (w.2 ++ ["sleep"])%list);
  print_error e w := (Raise "ValueError: I/O operation on closed file", w);
  monitoring w := (w.1 <? 4)%nat
|}.

End Loop.

(** ** Down-sampling of a series ([ui/analyzer_window.py], [sample_data]) *)

Module Sample.
Local Open Scope Z_scope.

(** Python's [float] is the IEEE 754 binary64 format: 53 bits of precision,
    round to nearest even. The operations are those of the standard
    library's specification of floating-point arithmetic. *)
Abbreviation float := spec_float.

(** [float(n)] for an [int], as the arithmetic operators apply it to an
    integer operand. *)
Definition of_int (n : Z) : float := binary_normalize 53 1024 n 0 false.

(** [a / b] on two [int]s: the correctly rounded quotient, or
    [ZeroDivisionError]. (For operands below [2^53] in magnitude, as the
    lengths of lists are, the quotient of the converted operands.) *)
Definition truediv (a b : Z) : option float :=
  if b =? 0 then None else Some (SFdiv 53 1024 (of_int a) (of_int b)).

(** [i * x] for an [int] and a [float]. *)
Definition mul_int (i : Z) (x : float) : float := SFmul 53 1024 (of_int i) x.

(** [int(x)]: truncation toward zero; an infinity or a NaN raises. *)
Definition to_int (x : float) : option Z :=
  match x with
  | S754_zero _ => Some 0
  | S754_finite s m e =>
      Some (cond_Zopp s (if 0 <=? e then Z.pos m * 2 ^ e else Z.pos m / 2 ^ (- e)))
  | _ => None
  end.

(** [range(n)]. *)
Definition range (n : Z) : list Z := Z.of_nat <$> seq 0 (Z.to_nat n).

(** [data[i]]: a negative index counts from the end, an index out of range
    raises [IndexError]. *)
Definition getitem {A} (data : list A) (i : Z) : option A :=
  let len := Z.of_nat (length data) in
  if 0 <=? i then data !! Z.to_nat i
  else if - len <=? i then data !! Z.to_nat (len + i)
  else None.

(** The list [indices] for a series of [len] points. *)
Definition sample_indices (len max_points : Z) : option (list Z) :=
  step ← truediv len max_points;
  mapM (λ i, to_int (mul_int i step)) (range max_points).

(** [sample_data]; [None] is a raised exception. *)
Definition sample_data {A} (data : list A) (max_points : Z) : option (list A) :=
  let len := Z.of_nat (length data) in
  if len <=? max_points then Some data
  else indices ← sample_indices len max_points; mapM (getitem data) indices.

(** What the rounding of the library works on: a shift record [mrs] stands
    for the quotient [a / d] when its mantissa is the integer part and its
    two bits tell where the remainder [rho] lies against the half of [d]. *)
Definition located (a d : Z) (mrs : shr_record) : Prop :=
  0 < d ∧ 0 ≤ shr_m mrs ∧
  ∃ rho, a = shr_m mrs * d + rho ∧ 0 ≤ rho < d ∧
    match loc_of_shr_record mrs with
    | loc_Exact => rho = 0
    | loc_Inexact c => rho ≠ 0 ∧ (2 * rho ?= d) = c
    end.

End Sample.

(** ** The rest of the store: the system table and the listings *)

Module DBRest.
Import DB.

Section Rest.

Context {real : Type}.
Variable json_dumps : @json real → string.
Variable json_loads : string → option (@json real).

(** [collector/base.py], [SystemInfo]: unlike a process sample, the system
    sample carries its own timestamp. *)
Record SystemInfo : Type := mk_SystemInfo {
  sys_timestamp : Clock.datetime;
  sys_cpu_percent : real;
  sys_memory_total_mb : real;
  sys_memory_used_mb : real;
  sys_memory_percent : real;
  sys_extra_metrics : list (string * @json real)
}.

(** A row of the table [system_info]; [timestamp] is [NOT NULL UNIQUE]. *)
Record system_row : Type := mk_system_row {
  srow_id : Z;
  srow_timestamp : string;
  srow_cpu_percent : option real;
  srow_memory_total_mb : option real;
  srow_memory_used_mb : option real;
  srow_memory_percent : option real;
  srow_extra_metrics : option string
}.

(** The table [system_info] in rowid order, with its [AUTOINCREMENT]
    counter. *)
Record system_table : Type := mk_system_table {
  system_info : list system_row;
  system_info_seq : Z
}.

Definition system_values (s : SystemInfo) (id : Z) : system_row :=
  {| srow_id := id;
     srow_timestamp := Clock.isoformat (sys_timestamp s);
     srow_cpu_percent := Some (sys_cpu_percent s);
     srow_memory_total_mb := Some (sys_memory_total_mb s);
     srow_memory_used_mb := Some (sys_memory_used_mb s);
     srow_memory_percent := Some (sys_memory_percent s);
     srow_extra_metrics :=
       Some (if dict_truthy (sys_extra_metrics s)
             then json_dumps (JDict (sys_extra_metrics s)) else "{}") |}.

(** [insert_system_info]: [INSERT OR REPLACE] on the unique timestamp. *)
Definition insert_system_info (s : SystemInfo) (tb : system_table) : system_table :=
  let timestamp := Clock.isoformat (sys_timestamp s) in
  let id := Z.max (system_info_seq tb)
                  (foldr Z.max 0 (srow_id <$> system_info tb)) + 1 in
  {| system_info :=
       filter (λ r, srow_timestamp r ≠ timestamp) (system_info tb)
       ++ [system_values s id];
     system_info_seq := id |}.

(** One element of the list [get_system_data] returns. *)
Record system_data : Type := mk_system_data {
  sdata_id : Z;
  sdata_timestamp : string;
  sdata_cpu_percent : option real;
  sdata_memory_total_mb : option real;
  sdata_memory_used_mb : option real;
  sdata_memory_percent : option real;
  sdata_extra_metrics : @metrics_value real
}.

Definition to_system_data (r : system_row) : system_data :=
  {| sdata_id := srow_id r;
     sdata_timestamp := srow_timestamp r;
     sdata_cpu_percent := srow_cpu_percent r;
     sdata_memory_total_mb := srow_memory_total_mb r;
     sdata_memory_used_mb := srow_memory_used_mb r;
     sdata_memory_percent := srow_memory_percent r;
     sdata_extra_metrics := parse_extra_metrics json_loads (srow_extra_metrics r) |}.

(** The [WHERE] clause of [get_system_data]: both times are tested by
    their truth value. *)
Definition system_where (start_time end_time : option string) (r : system_row)
    : Prop :=
  (if PyStr.opt_truthy start_time
   then String.le (default "" start_time) (srow_timestamp r) else True) ∧
  (if PyStr.opt_truthy end_time
   then String.le (srow_timestamp r) (default "" end_time) else True).

#[global] Instance system_where_dec st en r : Decision (system_where st en r).
Proof.
  unfold system_where.
  destruct (PyStr.opt_truthy st), (PyStr.opt_truthy en); apply _.
Defined.

Definition system_timestamp_le (r1 r2 : system_row) : Prop :=
  String.le (srow_timestamp r1) (srow_timestamp r2).

#[global] Instance system_timestamp_le_dec : RelDecision system_timestamp_le.
Proof. intros r1 r2. unfold system_timestamp_le. apply _. Defined.

(** [get_system_data]. *)
Definition get_system_data (tb : system_table) (start_time end_time : option string)
    : list system_data :=
  to_system_data
    <$> merge_sort system_timestamp_le
          (filter (system_where start_time end_time) (system_info tb)).

(** [get_all_process_names]: [SELECT DISTINCT name ... ORDER BY name]. *)
Definition get_all_process_names (db : @database real) : list string :=
  merge_sort String.le (remove_dups (row_name <$> processes db)).

(** [MIN] and [MAX] of a [TEXT] column. *)
Definition text_min (a b : string) : string := if decide (String.le a b) then a else b.
Definition text_max (a b : string) : string := if decide (String.le a b) then b else a.

(** [get_time_range]: [SELECT MIN(timestamp), MAX(timestamp)]; the one row
    of an aggregate is [(None, None)] over an empty table, and a tuple is
    never false, so the fallback of the last line is never taken. *)
Definition get_time_range (db : @database real) : option string * option string :=
  match row_timestamp <$> processes db with
  | [] => (None, None)
  | t :: ts => (Some (foldr text_min t ts), Some (foldr text_max t ts))
  end.

(** A session of writes: every [insert_process_info] with the instant its
    call read from the clock. *)
Definition insert_all (writes : list (Clock.datetime * @ProcessInfo real))
    (db : @database real) : @database real :=
  foldl (λ db w, insert_process_info json_dumps w.1 w.2 db) db writes.

(** What the store keeps true of the table [processes]: the key and the id
    are unique, and the ids were drawn from the counter. *)
Definition stored_well (db : @database real) : Prop :=
  NoDup ((λ r, (row_timestamp r, row_pid r)) <$> processes db) ∧
  NoDup (row_id <$> processes db) ∧
  Forall (λ r, (0 < row_id r ≤ processes_seq db)%Z) (processes db).

(** The writes of a session that go to one key. *)
Definition writes_to (ts : string) (p : Z)
    (w : Clock.datetime * @ProcessInfo real) : Prop :=
  Clock.isoformat w.1 = ts ∧ pid w.2 = p.

#[global] Instance writes_to_dec ts p w : Decision (writes_to ts p w).
Proof. unfold writes_to. apply _. Defined.

(** [AnalyzerWindow.load_database], the entries put under one store in the
    tree: for every name, in order, one entry per pid of that name. *)
Definition tree_entries (db : @database real) : list (string * Z) :=
  name ← merge_sort String.le (get_all_process_names db);
  pid ← merge_sort Z.le (get_all_pids db (Some name));
  [(name, pid)].

(** The record [self.current_process_data]. *)
Record loaded : Type := mk_loaded {
  loaded_process : list (@process_data real);
  loaded_system : list system_data;
  loaded_name : string;
  loaded_pid : Z
}.

(** [AnalyzerWindow.load_process_data], for the entry [(name, pid)] of the
    tree: the rows are asked for by pid alone; with no row a message is
    shown and nothing is loaded ([None]). *)
Definition load_process_data (db : @database real) (tb : system_table)
    (name : string) (pid : Z) : option loaded :=
  let process_data := get_process_data json_loads db (Some pid) None None None in
  let system_data := get_system_data tb None None in
  match process_data with
  | [] => None
  | _ => Some {| loaded_process := process_data;
                 loaded_system := system_data;
                 loaded_name := name;
                 loaded_pid := pid |}
  end.

End Rest.

End DBRest.

(** ** The configuration document ([config/config_manager.py]) *)

Module ConfigDoc.

Import DB.

Section Document.

Context {real : Type}.

(** [json.dumps] (with the layout of [save_config]) and [json.loads];
    [None] is a raised exception. *)
Variable json_dumps : @json real → string.
Variable json_loads : string → option (@json real).

(** A [dict] with [str] keys, in insertion order. *)
Abbreviation dict := (list (string * @json real)).

(** [d[key]], when [key in d]. *)
Fixpoint dict_get (key : string) (d : dict) : option json :=
  match d with
  | [] => None
  | (k, v) :: d => if decide (k = key) then Some v else dict_get key d
  end.

(** [key in d]. *)
Definition dict_mem (key : string) (d : dict) : bool :=
  bool_decide (is_Some (dict_get key d)).

(** [d[key] = value]: a key of the dict keeps its place, a new one goes to
    the end. *)
Fixpoint dict_set (key : string) (value : json) (d : dict) : dict :=
  match d with
  | [] => [(key, value)]
  | (k, v) :: d =>
      if decide (k = key) then (k, value) :: d else (k, v) :: dict_set key value d
  end.

(** [DEFAULT_CONFIG]. *)
Definition DEFAULT_CONFIG : dict :=
  [ ("output_dir", JStr "D:\system_performance_record");
    ("record_interval", JInt 5);
    ("monitored_processes", JList []);
    ("monitor_by_pid", JDict []);
    ("ui", JDict [("window_width", JInt 1200); ("window_height", JInt 800)]) ].

(** [merge_dict(default, current)] of [_merge_defaults], by recursion on the
    document [current]: the loop over [current.items()] updates [result],
    which starts as a copy of [default]. *)
Fixpoint merge_into (current : json) (default : dict) {struct current} : dict :=
  match current with
  | JDict items =>
      (fix loop (items : dict) (result : dict) {struct items} : dict :=
         match items with
         | [] => result
         | (key, value) :: items =>
             loop items
               (dict_set key
                  match dict_get key result, value with
                  | Some (JDict d), JDict _ => JDict (merge_into value d)
                  | _, _ => value
                  end
                  result)
         end) items default
  | _ => default
  end.

Definition merge_dict (default current : dict) : dict :=
  merge_into (JDict current) default.

(** The loop of [merge_dict] once more, one round at a time: the value a
    round puts under the key of an item, and the round. *)
Definition merged (old : option json) (value : json) : json :=
  match old, value with
  | Some (JDict d), JDict c => JDict (merge_dict d c)
  | _, _ => value
  end.

Definition merge_step (result : dict) (item : string * json) : dict :=
  dict_set item.1 (merged (dict_get item.1 result) item.2) result.

(** [str.split(sep)] for a separator of one character. *)
Fixpoint split (sep : ascii) (s : string) : list string :=
  match s with
  | EmptyString => [""]
  | String c s =>
      if Ascii.eqb c sep then "" :: split sep s
      else match split sep s with
           | [] => [String c ""]
           | w :: ws => String c w :: ws
           end
  end.

(** The loop of [get]: [None] is the [return default] of the loop. *)
Fixpoint get_path (keys : list string) (value : json) : option json :=
  match keys with
  | [] => Some value
  | k :: keys =>
      match value with
      | JDict d =>
          match dict_get k d with
          | Some v => get_path keys v
          | None => None
          end
      | _ => None
      end
  end.

(** [get(key, default)]. *)
Definition get (config : json) (key : string) (default : json) : json :=
  match get_path (split "." key) config with
  | Some value => value
  | None => default
  end.

(** The end of a call that changes the document in place: it returns, or
    it raises; either way the document is left in some state. *)
Inductive result : Type :=
| Done (config : @json real)
| Raised (config : @json real).

(** The document inside a [result]. *)
Definition document (r : result) : json :=
  match r with Done c | Raised c => c end.

(** The body of [set] on the list [keys]. Every value other than a dict
    raises a [TypeError] at [k not in config], at [config[k] = {}] or at
    [config[k]]; an empty [keys] raises at [keys[-1]]. The dict reached by
    [config = config[k]] is changed in place, which the parent sees. *)
Fixpoint set_path (keys : list string) (value : json) (config : json) : result :=
  match keys with
  | [] => Raised config
  | [k] =>
      match config with
      | JDict d => Done (JDict (dict_set k value d))
      | _ => Raised config
      end
  | k :: keys =>
      match config with
      | JDict d =>
          let d := if dict_mem k d then d else dict_set k (JDict []) d in
          match dict_get k d with
          | Some sub =>
              match set_path keys value sub with
              | Done sub => Done (JDict (dict_set k sub d))
              | Raised sub => Raised (JDict (dict_set k sub d))
              end
          | None => Raised (JDict d)
          end
      | _ => Raised config
      end
  end.

(** [set(key, value)]. *)
Definition set (config : json) (key : string) (value : json) : result :=
  set_path (split "." key) value config.

(** [load_config]: the document of the manager afterwards, and the file
    system. A file that cannot be read as JSON, or whose document is no
    dict ([current.items()] raises), lands in the handler: that prints,
    then replaces the document by the defaults and saves them. The [print]
    comes first: [print_returns] tells whether it returns, and the result
    [None] is its exception leaving [load_config] (and the constructor
    that called it) with nothing reset and nothing written. A missing file
    is replaced without a [print]. [default] is the value of
    [DEFAULT_CONFIG] at the call. *)
Definition load_config (print_returns : bool) (default : dict)
    (p : Config.path) (fs : Config.filesystem)
    : option (dict * Config.filesystem) :=
  match Config.files fs !! Config.full p with
  | Some text =>
      match json_loads text with
      | Some (JDict current) => Some (merge_dict default current, fs)
      | _ =>
          if print_returns
          then Some (default, Config.save_config p (json_dumps (JDict default)) fs)
          else None
      end
  | None => Some (default, Config.save_config p (json_dumps (JDict default)) fs)
  end.












(** Python dicts hold a key once. In the list of items that stands for a
    dict this is a property, asked of the dict and of the dicts that are
    values in it. *)
Fixpoint well_formed (v : json) : Prop :=
  match v with
  | JDict items =>
      NoDup items.*1 ∧
      (fix all (items : dict) : Prop :=
         match items with
         | [] => True
         | (_, v) :: items => well_formed v ∧ all items
         end) items
  | _ => True
  end.

(** The depth of dicts in dicts, to reason by. *)
Fixpoint depth (v : json) : nat :=
  match v with
  | JDict items =>
      S ((fix deepest (items : dict) : nat :=
            match items with
            | [] => 0%nat
            | (_, v) :: items => Nat.max (depth v) (deepest items)
            end) items)
  | _ => 0%nat
  end.

End Document.

End ConfigDoc.

(** ** Working on the watch-list by selection ([ui/monitor_window.py]) *)

Module Selection.

Import Watch.

Section Selected.

Variable lower : string → string.

(** [remove_selected_process]: [selected_rows] are the rows
    [selectedRows()] gives, in any order; they are removed from the last to
    the first. [removeRow] of a row the table does not have does nothing. *)
Definition remove_selected_process (selected_rows : list nat) (t : table) : table :=
  if decide (selected_rows = []) then t
  else foldl (λ t row, delete row t) t (merge_sort (flip Nat.le) selected_rows).

(** The rows of a table whose number is not among [rows]. *)
Definition rows_but (rows : list nat) (t : table) : table :=
  (filter (λ ir, ir.1 ∉ rows) (imap pair t)).*2.

(** [_add_process_to_monitor], with the truth value it returns. *)
Definition add_process_to_monitor_result (name : string) (t : table)
    : table * bool :=
  if already_monitored lower (lower name) t then (t, false)
  else ((t ++ [name])%list, true).

(** [add_to_monitor]: the names of the selected rows of the running table
    are added one by one; the table and [added_count]. *)
Definition add_to_monitor (selected : list string) (t : table) : table * nat :=
  foldl (λ acc name,
           let r := add_process_to_monitor_result name acc.1 in
           (r.1, if r.2 then S acc.2 else acc.2))
        (t, O) selected.

End Selected.

End Selection.

(** ** Time stamps in file names ([utils/platform_utils.py]) and their order *)

Module PlatformUtils.

Import Clock.

(** [get_timestamp_string], on the reading [now] of the clock:
    [now.strftime("%Y%m%d_%H%M%S")], for a year of four digits. *)
Definition get_timestamp_string (now : datetime) : string :=
  digits 4 (year now) ++ digits 2 (month now) ++ digits 2 (day now) ++ "_"
  ++ digits 2 (hour now) ++ digits 2 (minute now) ++ digits 2 (second now).

(** [db_filename] of [start_monitoring]. *)
Definition db_filename (now : datetime) : string :=
  get_timestamp_string now ++ ".db".

(** The order of tuples: the first components that differ decide. *)
Definition lex (c1 c2 : comparison) : comparison :=
  match c1 with Eq => c2 | _ => c1 end.

(** The comparison of two naive [datetime]s, field by field. *)
Definition compare_datetime (d1 d2 : datetime) : comparison :=
  lex (year d1 ?= year d2)%N
 (lex (month d1 ?= month d2)%N
 (lex (day d1 ?= day d2)%N
 (lex (hour d1 ?= hour d2)%N
 (lex (minute d1 ?= minute d2)%N
 (lex (second d1 ?= second d2)%N
      (microsecond d1 ?= microsecond d2)%N))))).

(** The same, to the second. *)
Definition compare_second (d1 d2 : datetime) : comparison :=
  lex (year d1 ?= year d2)%N
 (lex (month d1 ?= month d2)%N
 (lex (day d1 ?= day d2)%N
 (lex (hour d1 ?= hour d2)%N
 (lex (minute d1 ?= minute d2)%N
      (second d1 ?= second d2)%N)))).

End PlatformUtils.

(** * Properties *)

(** ** Strings and the clock *)

Module ClockFacts.
Import Clock.

Lemma string_app_length (s t : string) :
  String.length (s ++ t) = (String.length s + String.length t)%nat.
Proof. induction s as [|c s IH]; simpl; [done | by rewrite IH]. Qed.

(** Two concatenations whose heads have the same length agree part by part. *)
Lemma string_app_inj (s s' t t' : string) :
  String.length s = String.length s' → s ++ t = s' ++ t' → s = s' ∧ t = t'.
Proof.
  revert s'. induction s as [|c s IH]; intros [|c' s'] Hlen Heq;
    simpl in *; try discriminate; [done |].
  injection Heq as -> Heq. injection Hlen as Hlen.
  destruct (IH s' Hlen Heq) as [-> ->]. done.
Qed.

Lemma digits_length w n : String.length (digits w n) = w.
Proof.
  revert n. induction w as [|w IH]; intros n; simpl; [done |].
  rewrite string_app_length, IH. simpl. lia.
Qed.

Lemma digit_inj (n m : N) : digit n = digit m → (n mod 10 = m mod 10)%N.
Proof.
  unfold digit. intros H.
  assert (Hn : (n mod 10 < 10)%N) by (apply N.mod_lt; lia).
  assert (Hm : (m mod 10 < 10)%N) by (apply N.mod_lt; lia).
  apply (f_equal N_of_ascii) in H.
  rewrite !N_ascii_embedding in H by lia. lia.
Qed.

Lemma digits_inj w (n m : N) :
  (n < 10 ^ N.of_nat w)%N → (m < 10 ^ N.of_nat w)%N →
  digits w n = digits w m → n = m.
Proof.
  revert n m. induction w as [|w IH]; intros n m Hn Hm Heq.
  - simpl in Hn, Hm. lia.
  - simpl in Heq.
    apply string_app_inj in Heq as [Hhi Hlo]; [| by rewrite !digits_length].
    injection Hlo as Hlo. apply digit_inj in Hlo.
    rewrite Nat2N.inj_succ, N.pow_succ_r' in Hn, Hm.
    assert (n / 10 = m / 10)%N as Hq.
    { apply IH; [| | done]; apply N.Div0.div_lt_upper_bound; lia. }
    rewrite (N.div_mod n 10), (N.div_mod m 10) by lia. lia.
Qed.

(** The text of an instant determines the instant: nothing finer than the
    microsecond exists in a [datetime], and nothing coarser is printed. *)
Lemma isoformat_inj (d1 d2 : datetime) :
  valid d1 → valid d2 → isoformat d1 = isoformat d2 → d1 = d2.
Proof.
  destruct d1 as [y1 mo1 da1 h1 mi1 s1 u1], d2 as [y2 mo2 da2 h2 mi2 s2 u2].
  unfold valid, isoformat;
    cbn [year month day hour minute second microsecond].
  intros (?&?&?&?&?&?&?) (?&?&?&?&?&?&?) Heq.
  repeat match type of Heq with
  | digits ?w ?a ++ _ = digits ?w ?b ++ _ =>
      apply string_app_inj in Heq as [?%digits_inj Heq];
        [| simpl; lia .. | by rewrite !digits_length]
  | ?sep ++ _ = ?sep ++ _ =>
      apply string_app_inj in Heq as [_ Heq]; [| done]
  end.
  subst.
  destruct (N.eqb_spec u1 0) as [->|Hu1], (N.eqb_spec u2 0) as [->|Hu2];
    try done.
  apply (string_app_inj "." ".") in Heq as [_ Heq]; [| done]. f_equal.
    apply (digits_inj 6); [simpl; lia .. | done].
Qed.

End ClockFacts.

(** ** The metrics store *)

Module DBFacts.
Import DB.

Section StoreFacts.

Context {real : Type}.
Variable json_dumps : @json real → string.
Variable json_loads : string → option (@json real).

Implicit Types (db : @database real) (r : @process_row real).

Lemma filter_same_key_complement ts p (l : list (@process_row real)) :
  filter (same_key ts p) (filter (λ r, ¬ same_key ts p r) l) = [].
Proof.
  induction l as [|r l IH]; [done |].
  rewrite (filter_cons (λ r, ¬ same_key ts p r)).
  destruct (decide (¬ same_key ts p r)) as [Hn|Hn]; [| done].
  rewrite filter_cons. by destruct (decide (same_key ts p r)).
Qed.

Lemma filter_other_key ts p ts' p' (l : list (@process_row real)) :
  (ts', p') ≠ (ts, p) →
  filter (same_key ts' p') (filter (λ r, ¬ same_key ts p r) l)
  = filter (same_key ts' p') l.
Proof.
  intros Hne. apply list_filter_filter_l.
  intros r [H1 H2] [H3 H4]. congruence.
Qed.

(** After [INSERT OR REPLACE] the key holds the new row and nothing else. *)
Lemma insert_or_replace_key ts p mk db :
  (∀ id, same_key ts p (mk id)) →
  filter (same_key ts p) (processes (insert_or_replace ts p mk db))
  = [mk (processes_seq (insert_or_replace ts p mk db))].
Proof.
  intros Hmk. unfold insert_or_replace; cbn [processes processes_seq].
  rewrite filter_app, filter_same_key_complement.
  rewrite filter_cons, decide_True by apply Hmk. done.
Qed.

(** Rows stored under another key are not touched. *)
Lemma insert_or_replace_other ts p mk db ts' p' :
  (∀ id, same_key ts p (mk id)) → (ts', p') ≠ (ts, p) →
  filter (same_key ts' p') (processes (insert_or_replace ts p mk db))
  = filter (same_key ts' p') (processes db).
Proof.
  intros Hmk Hne. unfold insert_or_replace; cbn [processes].
  rewrite filter_app, filter_other_key by done.
  rewrite filter_cons, decide_False, app_nil_r; [done |].
  destruct (Hmk (Z.max (processes_seq db)
                   (foldr Z.max 0 (row_id <$> processes db)) + 1)) as [H1 H2].
  intros [H3 H4]. congruence.
Qed.

Lemma values_key ts (pi : @ProcessInfo real) id :
  same_key ts (pid pi) (values json_dumps ts pi id).
Proof. done. Qed.

(** The [AUTOINCREMENT] counter only grows. *)
Lemma insert_or_replace_seq ts p mk db :
  processes_seq db < processes_seq (insert_or_replace ts p mk db).
Proof. unfold insert_or_replace; cbn [processes_seq]. lia. Qed.

(** C1. Two samples for the same pid written under the same timestamp leave
    exactly one row under that [(timestamp, pid)], and the row holds the
    values of the second write. *)
Theorem upsert_idempotence db (now : Clock.datetime) (s1 s2 : @ProcessInfo real) :
  pid s1 = pid s2 →
  let ts := Clock.isoformat now in
  let db2 := insert_process_info json_dumps now s2
               (insert_process_info json_dumps now s1 db) in
  filter (same_key ts (pid s1)) (processes db2)
  = [values json_dumps ts s2 (processes_seq db2)].
Proof.
  intros Hpid ts db2. subst db2. unfold insert_process_info. fold ts.
  rewrite Hpid. apply insert_or_replace_key. intros id. apply values_key.
Qed.

(** C10. The sample has no timestamp of its own: the row is stamped with the
    text of the instant read by the insert call, which keeps the instant to
    the microsecond, so the same sample written at two instants is stored as
    two rows, none replacing the other. *)
Theorem timestamp_chosen_by_store db (t1 t2 : Clock.datetime) (s : @ProcessInfo real) :
  Clock.valid t1 → Clock.valid t2 → t1 ≠ t2 →
  let db1 := insert_process_info json_dumps t1 s db in
  let db2 := insert_process_info json_dumps t2 s db1 in
  Clock.isoformat t1 ≠ Clock.isoformat t2 ∧
  filter (same_key (Clock.isoformat t1) (pid s)) (processes db2)
  = [values json_dumps (Clock.isoformat t1) s (processes_seq db1)] ∧
  filter (same_key (Clock.isoformat t2) (pid s)) (processes db2)
  = [values json_dumps (Clock.isoformat t2) s (processes_seq db2)] ∧
  processes_seq db1 ≠ processes_seq db2.
Proof.
  intros Hv1 Hv2 Hne db1 db2.
  assert (Hts : Clock.isoformat t1 ≠ Clock.isoformat t2).
  { intros Heq. by apply Hne, ClockFacts.isoformat_inj. }
  split_and!; [done | | |].
  - subst db2. unfold insert_process_info at 1.
    rewrite insert_or_replace_other;
      [| intros id; apply values_key | congruence].
    subst db1. apply insert_or_replace_key. intros id. apply values_key.
  - subst db2. apply insert_or_replace_key. intros id. apply values_key.
  - pose proof (insert_or_replace_seq (Clock.isoformat t2) (pid s)
                  (values json_dumps (Clock.isoformat t2) s) db1) as Hlt.
    subst db2. unfold insert_process_info at 1. lia.
Qed.

#[local] Instance timestamp_le_trans : Transitive (@timestamp_le real).
Proof. intros r1 r2 r3. unfold timestamp_le. apply transitivity. Qed.

#[local] Instance timestamp_le_total : Total (@timestamp_le real).
Proof. intros r1 r2. unfold timestamp_le. apply total, _. Qed.

Lemma elem_of_select_processes db pid name st en r :
  r ∈ select_processes pid name st en db
  ↔ where_clause pid name st en r ∧ r ∈ processes db.
Proof.
  unfold select_processes.
  rewrite merge_sort_Permutation. apply list_elem_of_filter.
Qed.

Lemma opt_truthy_Some (o : option string) :
  PyStr.opt_truthy o = true ↔ ∃ s, o = Some s ∧ s ≠ "".
Proof.
  destruct o as [[|c s]|]; simpl; split; try done.
  - by intros (s & [= <-] & ?).
  - intros _. eexists; split; [done | discriminate].
  - by intros (s & ? & ?).
Qed.

Lemma string_le_empty (s : string) : String.le "" s.
Proof. unfold String.le. by destruct s. Qed.

(** C4. A row is returned exactly when it is stored and passes every filter
    that was supplied (so no row of another pid, and no row earlier than the
    start time), and the result is ascending in the timestamp. The order on
    timestamps is the order of the [TEXT] column; it is total, so
    [T ≤ timestamp] says that [timestamp < T] fails. *)
Theorem query_filtering db (pid : option Z) (name start_time end_time : option string) :
  let result := get_process_data json_loads db pid name start_time end_time in
  (∀ d, d ∈ result →
     (∀ P, pid = Some P → data_pid d = P) ∧
     (∀ N, name = Some N → data_name d = N) ∧
     (∀ T, start_time = Some T → String.le T (data_timestamp d)) ∧
     (∀ T, end_time = Some T → T ≠ "" → String.le (data_timestamp d) T)) ∧
  (∀ r, r ∈ processes db →
     (∀ P, pid = Some P → row_pid r = P) →
     (∀ N, name = Some N → row_name r = N) →
     (∀ T, start_time = Some T → String.le T (row_timestamp r)) →
     (∀ T, end_time = Some T → String.le (row_timestamp r) T) →
     to_data json_loads r ∈ result) ∧
  StronglySorted (λ d1 d2, String.le (data_timestamp d1) (data_timestamp d2))
    result.
Proof.
  intros result. subst result. unfold get_process_data. split_and!.
  - intros d (r & -> & Hr)%list_elem_of_fmap.
    apply elem_of_select_processes in Hr as [(Hp & Hn & Hs & He) _].
    cbn [to_data data_pid data_name data_timestamp]. split_and!.
    + by intros P ->.
    + by intros N ->.
    + intros T ->. destruct T as [|c T]; [apply string_le_empty | done].
    + intros T -> HT. destruct T as [|c T]; done.
  - intros r Hr Hp Hn Hs He. apply list_elem_of_fmap. exists r. split; [done |].
    apply elem_of_select_processes. split; [| done].
    unfold where_clause. split_and!.
    + destruct pid; [by apply Hp | done].
    + destruct name; [by apply Hn | done].
    + destruct start_time as [[|c T]|]; simpl; [done | by apply Hs | done].
    + destruct end_time as [[|c T]|]; simpl; [done | by apply He | done].
  - apply (StronglySorted_fmap _ timestamp_le); [by intros r1 r2 |].
    apply StronglySorted_merge_sort; apply _.
Qed.

(** C8 (as amended). The name filter of [get_process_data] and of
    [get_all_pids] compares the stored name with the argument for equality
    of the two texts: the rows (the pids) returned are those whose stored
    name is the very string [N]; [get_all_pids] takes an empty [N] for no
    filter at all. *)
Theorem name_filter_is_exact db (N : string) :
  (∀ d, d ∈ get_process_data json_loads db None (Some N) None None
        ↔ ∃ r, r ∈ processes db ∧ row_name r = N ∧ d = to_data json_loads r) ∧
  (∀ p, p ∈ get_all_pids db (Some N)
        ↔ ∃ r, r ∈ processes db ∧ (N ≠ "" → row_name r = N) ∧ row_pid r = p).
Proof.
  split.
  - intros d. unfold get_process_data. rewrite list_elem_of_fmap.
    split.
    + intros (r & -> & Hr). exists r.
      apply elem_of_select_processes in Hr as [(_ & Hn & _) Hr]. done.
    + intros (r & Hr & Hn & ->). exists r. split; [done |].
      apply elem_of_select_processes. done.
  - intros p. unfold get_all_pids.
    rewrite merge_sort_Permutation, elem_of_remove_dups, list_elem_of_fmap.
    destruct N as [|c N]; simpl.
    + split.
      * intros (r & -> & Hr). exists r. done.
      * intros (r & Hr & _ & <-). by exists r.
    + split.
      * intros (r & -> & [Hn Hr]%list_elem_of_filter). exists r. done.
      * intros (r & Hr & Hn & <-). exists r. split; [done |].
        apply list_elem_of_filter. split; [by apply Hn | done].
Qed.

(** What [get_process_data] does with the column [extra_metrics]. *)
Lemma parse_truthy (s : string) v :
  s ≠ "" → json_loads s = Some v →
  parse_extra_metrics json_loads (Some s) = MJson v.
Proof. intros Hs Hv. destruct s; [done |]. simpl. by rewrite Hv. Qed.


Lemma parse_null : parse_extra_metrics json_loads None = MNone.
Proof. done. Qed.

Lemma parse_empty_text : parse_extra_metrics json_loads (Some "") = MStr "".
Proof. done. Qed.

(** A non-empty mapping comes back equal whenever the codec itself round
    trips on it; an empty mapping is written as the text of the empty
    object and comes back empty whenever the codec reads that text so. *)
Lemma extra_metrics_round_trip ts (s : @ProcessInfo real) id :
  (∀ m, json_dumps (JDict m) ≠ "") →
  json_loads (json_dumps (JDict (extra_metrics s))) = Some (JDict (extra_metrics s)) →
  json_loads "{}" = Some (JDict []) →
  data_extra_metrics (to_data json_loads (values json_dumps ts s id))
  = MJson (JDict (extra_metrics s)).
Proof.
  intros Hne Hrt Hempty.
  cbn [to_data data_extra_metrics values row_extra_metrics].
  unfold extra_metrics_json.
  destruct (extra_metrics s) as [|kv m] eqn:Hm; cbn [dict_truthy].
  - by apply parse_truthy.
  - apply parse_truthy; [apply Hne | done].
Qed.

End StoreFacts.

(** *** Concrete runs *)

Lemma upsert_idempotence_witness :
  let dumps := λ _ : @json Z, "{...}" in
  let now := Clock.mk_datetime 2025 1 1 12 0 0 250000 in
  let s1 := mk_ProcessInfo 4242 "chrome" "chrome --type=gpu" "alice" 10 200 [] in
  let s2 := mk_ProcessInfo 4242 "chrome" "chrome --type=gpu" "alice" 35 180
              [("num_threads", JInt 9)] in
  pid s1 = pid s2 ∧
  filter (same_key "2025-01-01T12:00:00.250000" 4242)
    (processes (insert_process_info dumps now s2
                  (insert_process_info dumps now s1 init_database)))
  = [mk_process_row 2 "2025-01-01T12:00:00.250000" 4242 "chrome"
       (Some "chrome --type=gpu") (Some "alice") (Some 35) (Some 180)
       (Some "{...}")].
Proof.
  intros dumps now s1 s2. split; [reflexivity |].
  apply (upsert_idempotence dumps init_database now s1 s2). reflexivity.
Defined.

Lemma timestamp_chosen_by_store_witness :
  let dumps := λ _ : @json Z, "{...}" in
  let t1 := Clock.mk_datetime 2025 1 1 12 0 0 250000 in
  let t2 := Clock.mk_datetime 2025 1 1 12 0 5 0 in
  let s := mk_ProcessInfo 4242 "chrome" "chrome --type=gpu" "alice" 10 200 [] in
  let db2 := insert_process_info dumps t2 s
               (insert_process_info dumps t1 s init_database) in
  row_timestamp <$> processes db2
  = ["2025-01-01T12:00:00.250000"; "2025-01-01T12:00:05"] ∧
  filter (same_key (Clock.isoformat t1) 4242) (processes db2)
  = [values dumps (Clock.isoformat t1) s 1].
Proof.
  intros dumps t1 t2 s db2. split; [reflexivity |].
  apply (timestamp_chosen_by_store dumps init_database t1 t2 s).
  - unfold Clock.valid; simpl; lia.
  - unfold Clock.valid; simpl; lia.
  - discriminate.
Defined.

(** C8, as the specification words it, fails: a row stored as ["chrome"]
    has the name ["Chrome"] up to case, and neither query returns it. *)
Lemma name_filter_case_counterexample :
  let db := {| processes :=
                 [mk_process_row 1 "2025-01-01T12:00:00.250000" 4242 "chrome"
                    (Some "chrome") (Some "alice") (Some 10%Z) (Some 200%Z)
                    (Some "{}")];
               processes_seq := 1 |} in
  PyStr.lower "chrome" = PyStr.lower "Chrome" ∧
  get_process_data (λ _, None) db None (Some "Chrome") None None = [] ∧
  get_all_pids db (Some "Chrome") = [] ∧
  get_all_pids db (Some "chrome") = [4242].
Proof. done. Qed.

End DBFacts.

(** ** Saving the configuration *)

Module ConfigFacts.
Import Config.

Lemma temp_path_ne (p : path) : temp_path p ≠ full p.
Proof.
  unfold temp_path. intros H. apply (f_equal String.length) in H.
  rewrite ClockFacts.string_app_length in H. simpl in H. lia.
Qed.

Lemma elem_of_states_here effects fs : fs ∈ states effects fs.
Proof. destruct effects; simpl; apply list_elem_of_here. Qed.

Lemma elem_of_states_app l1 l2 fs s :
  s ∈ states l2 (foldl (λ s f, f s) fs l1) → s ∈ states (l1 ++ l2) fs.
Proof.
  revert fs. induction l1 as [|f l1 IH]; intros fs Hs; simpl in *; [done |].
  apply list_elem_of_further, IH, Hs.
Qed.

Lemma foldl_preserves (Q : filesystem → Prop) l fs :
  Forall (λ f, ∀ s, Q s → Q (f s)) l → Q fs → Q (foldl (λ s f, f s) fs l).
Proof.
  intros Hl. revert fs. induction Hl as [|f l Hf _ IH]; intros fs HQ; simpl;
    [done | by apply IH, Hf].
Qed.

(** Until the target is unlinked, no effect of the save touches it: the
    document is written to the temporary file. *)
Lemma target_kept_while_writing (p : path) (doc old : string) fs :
  files fs !! full p = Some old →
  files (foldl (λ s f, f s) fs
           ([ λ fs, if bool_decide (parent p ∈ dirs fs) then fs
                    else mkdir (parent p) fs;
              open_w (temp_path p) ]
            ++ (write_char (temp_path p) <$> list_ascii_of_string doc)))
    !! full p = Some old.
Proof.
  pose proof (temp_path_ne p) as Hne.
  apply (foldl_preserves (λ s, files s !! full p = Some old)).
  apply Forall_app; split.
  - repeat constructor.
    + intros s Hs. by case_bool_decide.
    + intros s Hs. simpl. by rewrite lookup_insert_ne.
  - apply Forall_fmap, Forall_true. intros c s Hs. simpl.
    by rewrite lookup_alter_ne.
Qed.

(** C2, the defect: whenever the configuration file exists, a save goes
    through a state of the file system in which the configuration path holds
    no file at all (after [unlink], before [shutil.move]). *)
Theorem save_config_not_atomic (p : path) (doc old : string) (fs : filesystem) :
  files fs !! full p = Some old →
  ∃ s, s ∈ save_config_states p doc fs ∧ files s !! full p = None.
Proof.
  intros Hold. unfold save_config_states, save_config_effects.
  set (pre := [ _; open_w (temp_path p) ]).
  set (wr := write_char (temp_path p) <$> list_ascii_of_string doc).
  pose proof (target_kept_while_writing p doc old fs Hold) as Hkept.
  fold pre wr in Hkept.
  set (s3 := foldl (λ s f, f s) fs (pre ++ wr)) in *.
  exists (unlink (full p) s3). split.
  - rewrite (assoc_L (++)). apply elem_of_states_app. fold s3.
    cbn [states]. apply list_elem_of_further.
    assert (exists_file (full p) s3 = true) as ->.
    { unfold exists_file. apply bool_decide_eq_true. by rewrite Hkept. }
    apply list_elem_of_here.
  - simpl. apply lookup_delete_eq.
Qed.

(** The save of ["{new}"] over ["{old}"], state by state: what the
    configuration path holds. *)
Lemma save_config_not_atomic_witness :
  let p := mk_path "/opt/monitor" "/opt/monitor/config.json" in
  let fs := {| dirs := {["/opt/monitor"]};
               files := {["/opt/monitor/config.json" := "{old}"]} |} in
  (λ s, files s !! full p) <$> save_config_states p "{new}" fs
  = [Some "{old}"; Some "{old}"; Some "{old}"; Some "{old}"; Some "{old}";
     Some "{old}"; Some "{old}"; Some "{old}"; None; Some "{new}"] ∧
  ∃ s, s ∈ save_config_states p "{new}" fs ∧ files s !! full p = None.
Proof.
  intros p fs. split; [vm_compute; reflexivity |].
  apply (save_config_not_atomic p "{new}" "{old}" fs). reflexivity.
Defined.

End ConfigFacts.

(** ** The watch-list *)

Module WatchFacts.
Import Watch.

Section WatchListFacts.

Variable lower : string → string.
Variable strip : string → string.

Lemma dedup_step_invariant (acc : gset string * list string) (proc : string) :
  (∀ k, k ∈ acc.1 ↔ k ∈ lower <$> acc.2) → NoDup (lower <$> acc.2) →
  let acc' := dedup_step lower acc proc in
  (∀ k, k ∈ acc'.1 ↔ k ∈ lower <$> acc'.2) ∧ NoDup (lower <$> acc'.2).
Proof.
  intros Hseen Hnd. unfold dedup_step; simpl.
  destruct (decide (lower proc ∈ acc.1)) as [Hin|Hnin]; [done |].
  simpl. split.
  - intros k. rewrite fmap_app, elem_of_union, elem_of_singleton, elem_of_app.
    rewrite Hseen. simpl. rewrite list_elem_of_singleton. tauto.
  - rewrite fmap_app. apply NoDup_app. split_and!; [done | | apply NoDup_singleton].
    intros k Hk. simpl. rewrite list_elem_of_singleton. intros ->.
    by apply Hnin, Hseen.
Qed.

Lemma unique_processes_NoDup (l : list string) :
  NoDup (lower <$> unique_processes lower l).
Proof.
  unfold unique_processes.
  assert (∀ acc : gset string * list string,
    (∀ k, k ∈ acc.1 ↔ k ∈ lower <$> acc.2) → NoDup (lower <$> acc.2) →
    NoDup (lower <$> (foldl (dedup_step lower) acc l).2)) as H.
  { induction l as [|x l IH]; intros acc Hseen Hnd; simpl; [done |].
    destruct (dedup_step_invariant acc x Hseen Hnd). by apply IH. }
  apply H; simpl; [| constructor].
  intros k. rewrite elem_of_empty, elem_of_nil. done.
Qed.

Lemma already_monitored_spec (k : string) (t : table) :
  already_monitored lower k t = true ↔ k ∈ lower <$> t.
Proof.
  unfold already_monitored. rewrite bool_decide_eq_true, Exists_exists.
  rewrite list_elem_of_fmap. split.
  - intros (row & Hrow & <-). by exists row.
  - intros (row & -> & Hrow). by exists row.
Qed.



(** The loop of [load_config] computes the first-seen selection. *)
Lemma foldl_dedup_step (l : list string) (acc : gset string * list string) :
  (foldl (dedup_step lower) acc l).2
  = (acc.2 ++ filter (λ y, lower y ∉ acc.1) (first_seen lower l))%list.
Proof.
  revert acc. induction l as [|x l IH]; intros [seen u]; simpl.
  - by rewrite app_nil_r.
  - rewrite IH. unfold dedup_step; simpl.
    destruct (decide (lower x ∈ seen)) as [Hin|Hnin]; simpl.
    + rewrite filter_cons, decide_False by (intros H; by apply H).
      rewrite list_filter_filter. f_equal. apply list_filter_iff.
      intros y. split; [| tauto]. intros Hy. split; [done |].
      intros Heq. apply Hy. by rewrite Heq.
    + rewrite filter_cons, decide_True by done.
      rewrite <- (assoc_L (++)). simpl. do 2 f_equal.
      rewrite list_filter_filter. apply list_filter_iff.
      intros y. rewrite elem_of_union, elem_of_singleton. tauto.
Qed.

Lemma unique_processes_first_seen (l : list string) :
  unique_processes lower l = first_seen lower l.
Proof.
  unfold unique_processes. rewrite foldl_dedup_step. simpl.
  induction (first_seen lower l) as [|y k IH]; [done |].
  rewrite filter_cons, decide_True by apply not_elem_of_empty.
  by rewrite IH.
Qed.






End WatchListFacts.

(** Adding ["chrome"] and then ["Chrome"] (with blanks around it). *)
Example add_chrome_twice :
  run PyStr.lower PyStr.strip [Add "chrome"; Add "  Chrome "; AddRunning "CHROME"]
  = ["chrome"] ∧
  load_config PyStr.lower ["Chrome"; "code"; "chrome"; "CODE"; "idea"] []
  = ["Chrome"; "code"; "idea"].
Proof. split; vm_compute; reflexivity. Qed.

End WatchFacts.

(** ** The monitor loop *)

Module LoopFacts.
Import Loop.

Section MonitorLoopFacts.

Context {World ProcessInfo SystemInfo exn : Type}.
Context `{!Machine World ProcessInfo SystemInfo exn}.

Implicit Types (w : World) (e : exn).

Lemma bind_Return {A B} (c : comp World exn A) (k : A → comp World exn B) w b w2 :
  bind c k w = (Return b, w2) →
  ∃ a w1, c w = (Return a, w1) ∧ k a w1 = (Return b, w2).
Proof.
  unfold bind. destruct (c w) as [[a|e] w1]; [| done]. intros Hk. by exists a, w1.
Qed.

(** A [try] block that completes has just slept for the interval. *)
Lemma tick_body_Return interval names w u w2 :
  tick_body interval names w = (Return u, w2) → ∃ w1, w2 = sleep interval w1.
Proof.
  unfold tick_body. intros Hb.
  repeat (apply bind_Return in Hb as (? & ? & _ & Hb)).
  unfold lift in Hb. injection Hb as _ <-. by eexists.
Qed.

(** An iteration whose [try] block completes is over with it. *)
Lemma tick_of_Return interval names w u w' :
  tick_body interval names w = (Return u, w') →
  tick interval names w = (Return tt, w').
Proof. unfold tick, try_except. intros ->. by destruct u. Qed.

(** An iteration whose [try] block raises goes by what [print] does. *)
Lemma tick_of_Raise interval names w e w' :
  tick_body interval names w = (Raise e, w') →
  tick interval names w
  = match print_error e w' with
    | (Return _, w'') => (Return tt, sleep interval w'')
    | (Raise e', w'') => (Raise e', w'')
    end.
Proof. unfold tick, try_except, bind, lift. by intros ->. Qed.

(** Where [print] returns, an iteration never raises, and ends with the
    sleep of the interval. *)
Lemma tick_returns interval names w :
  (∀ e w', ∃ w'', print_error e w' = (Return tt, w'')) →
  ∃ w1, tick interval names w = (Return tt, sleep interval w1).
Proof.
  intros Hprint.
  destruct (tick_body interval names w) as [[[]|e] w2] eqn:Hb.
  - rewrite (tick_of_Return _ _ _ _ _ Hb).
    apply tick_body_Return in Hb as [w1 ->]. by exists w1.
  - rewrite (tick_of_Raise _ _ _ _ _ Hb).
    destruct (Hprint e w2) as [w3 ->]. by exists w3.
Qed.

(** Where [print] returns, the loop stops only when it reads the flag
    cleared: a run either uses up its iterations or ends with
    [Return true]. *)
Lemma monitor_loop_returns fuel interval names w :
  (∀ e w', ∃ w'', print_error e w' = (Return tt, w'')) →
  ∃ b w', monitor_loop fuel interval names w = (Return b, w').
Proof.
  intros Hprint. revert w. induction fuel as [|fuel IH]; intros w;
    cbn [monitor_loop].
  - by exists false, w.
  - destruct (monitoring w); [| by exists true, w]. unfold bind.
    destruct (tick_returns interval names w Hprint) as [w1 ->]. apply IH.
Qed.

(** C7 (as amended). An exception the [try] block of an iteration raises,
    wherever in the block, is caught; when the handler has printed it, the
    iteration sleeps for the interval and the loop goes on with its next
    iteration from there. Where [print] returns, nothing leaves the loop.
    An exception of the handler's [print] itself is caught by nothing: the
    iteration ends without the sleep, and the loop with it. *)
Theorem tick_failure_contained (interval : Z) (names : list string) w :
  monitoring w = true →
  (∀ e w' w'', tick_body interval names w = (Raise e, w') →
     print_error e w' = (Return tt, w'') →
     tick interval names w = (Return tt, sleep interval w'') ∧
     ∀ fuel, monitor_loop (S fuel) interval names w
             = monitor_loop fuel interval names (sleep interval w'')) ∧
  ((∀ e w', ∃ w'', print_error e w' = (Return tt, w'')) →
     (∃ w1, tick interval names w = (Return tt, sleep interval w1)) ∧
     ∀ fuel, ∃ b w', monitor_loop fuel interval names w = (Return b, w')) ∧
  (∀ e w' e' w'', tick_body interval names w = (Raise e, w') →
     print_error e w' = (Raise e', w'') →
     ∀ fuel, monitor_loop (S fuel) interval names w = (Raise e', w'')).
Proof.
  intros Hmon. split_and!.
  - intros e w' w'' Hb Hp.
    assert (Ht : tick interval names w = (Return tt, sleep interval w''))
      by (by rewrite (tick_of_Raise _ _ _ _ _ Hb), Hp).
    split; [done |]. intros fuel. cbn [monitor_loop].
    rewrite Hmon. unfold bind. by rewrite Ht.
  - intros Hprint. split; [by apply tick_returns |].
    intros fuel. by apply monitor_loop_returns.
  - intros e w' e' w'' Hb Hp fuel. cbn [monitor_loop].
    rewrite Hmon. unfold bind. by rewrite (tick_of_Raise _ _ _ _ _ Hb), Hp.
Qed.

End MonitorLoopFacts.

(** The scripted machine: the second and the third iteration fail, each is
    followed by the sleep, and the loop runs on until the flag is cleared. *)
Lemma tick_failure_contained_witness :
  let w := (1%nat, ["..."]) in
  monitoring w = true ∧
  tick_body 5 ["chrome"] w
  = (Raise "sqlite3.OperationalError", (1%nat, ["..."; "find chrome"])) ∧
  tick 5 ["chrome"] w
  = (Return tt, sleep 5 (1%nat, ["..."; "find chrome";
                                 "print sqlite3.OperationalError"])) ∧
  monitor_loop 9 5 ["chrome"] (0%nat, [])
  = (Return true,
     (4%nat,
      ["find chrome"; "insert process"; "system"; "insert system"; "stamp";
       "sleep";
       "find chrome"; "print sqlite3.OperationalError"; "sleep";
       "find chrome"; "insert process"; "print psutil.Error"; "sleep";
       "find chrome"; "insert process"; "system"; "insert system"; "stamp";
       "sleep"])).
Proof.
  intros w.
  assert (Hmon : monitoring w = true) by reflexivity.
  split_and!; [exact Hmon | reflexivity | | reflexivity].
  apply (proj1 (tick_failure_contained 5 ["chrome"] w Hmon)
           "sqlite3.OperationalError" (1%nat, ["..."; "find chrome"])
           (1%nat, ["..."; "find chrome"; "print sqlite3.OperationalError"]));
    reflexivity.
Defined.

(** C7, as the specification words it, fails. A machine whose output
    stream is closed: the write to the store fails in the second iteration,
    the handler catches that and prints, the [print] raises, and the loop
    is left by its exception after one sleep instead of four. *)
Lemma print_failure_counterexample :
  @tick_body _ _ _ _ closed_stdout 5 ["chrome"] (1%nat, [])
  = (Raise "sqlite3.OperationalError", (1%nat, ["find chrome"])) ∧
  @tick _ _ _ _ closed_stdout 5 ["chrome"] (1%nat, [])
  = (Raise "ValueError: I/O operation on closed file",
     (1%nat, ["find chrome"])) ∧
  @monitor_loop _ _ _ _ closed_stdout 9 5 ["chrome"] (0%nat, [])
  = (Raise "ValueError: I/O operation on closed file",
     (1%nat,
      ["find chrome"; "insert process"; "system"; "insert system"; "stamp";
       "sleep"; "find chrome"])).
Proof. split_and!; vm_compute; reflexivity. Qed.

End LoopFacts.

(** ** The running-process refresher *)

Module RefreshFacts.
Import Refresh.
Local Open Scope list_scope.

Section RefresherFacts.

Variable lower : string → string.

Implicit Types (t : table) (N : list string).

(** *** The names of the live processes *)

Lemma foldl_seen_step (l : list string) (d : list (string * string)) :
  d.*1 = lower <$> d.*2 →
  (foldl (seen_step lower) d l).*1 = lower <$> (foldl (seen_step lower) d l).*2 ∧
  (foldl (seen_step lower) d l).*2
  = (d.*2 ++ filter (λ y, lower y ∉ d.*1) (Watch.first_seen lower l))%list.
Proof.
  revert d. induction l as [|x l IH]; intros d Hd; simpl.
  - by rewrite app_nil_r.
  - destruct (decide (lower x ∈ d.*1)) as [Hin|Hnin].
    + assert (seen_step lower d x = d) as ->.
      { unfold seen_step. by rewrite decide_True. }
      destruct (IH d Hd) as [IH1 IH2]. split; [done |]. rewrite IH2.
      rewrite filter_cons, decide_False by (intros H; by apply H).
      rewrite list_filter_filter. f_equal. apply list_filter_iff.
      intros y. split; [| tauto]. intros Hy. split; [done |].
      intros Heq. apply Hy. by rewrite Heq.
    + assert (seen_step lower d x = (d ++ [(lower x, x)])%list) as ->.
      { unfold seen_step. by rewrite decide_False. }
      destruct (IH (d ++ [(lower x, x)])%list) as [IH1 IH2].
      { rewrite !fmap_app. simpl. by rewrite Hd. }
      split; [done |]. rewrite IH2.
      rewrite filter_cons, decide_True by done.
      rewrite !fmap_app. simpl. rewrite <- (assoc_L (++)). simpl. do 2 f_equal.
      rewrite list_filter_filter. apply list_filter_iff.
      intros y. rewrite elem_of_app, list_elem_of_singleton. tauto.
Qed.

(** The values of [process_names_seen]: the first-seen name of each class,
    in the order of the process list. *)
Lemma process_names_seen_values N :
  (process_names_seen lower N).*2 = Watch.first_seen lower N.
Proof.
  unfold process_names_seen.
  destruct (foldl_seen_step N [] eq_refl) as [_ ->]. simpl.
  induction (Watch.first_seen lower N) as [|y k IH]; [done |].
  rewrite filter_cons, decide_True by apply not_elem_of_nil. by rewrite IH.
Qed.

Lemma unique_names_Permutation N :
  unique_names lower N ≡ₚ Watch.first_seen lower N.
Proof.
  unfold unique_names. by rewrite merge_sort_Permutation, process_names_seen_values.
Qed.

Lemma elem_of_lower_first_seen (k : string) N :
  k ∈ lower <$> Watch.first_seen lower N ↔ k ∈ lower <$> N.
Proof.
  induction N as [|x N IH]; simpl; [done |].
  rewrite !elem_of_cons, <- IH, !list_elem_of_fmap.
  split.
  - intros [->|(y & -> & [Hy Hin]%list_elem_of_filter)]; [by left |].
    right. by exists y.
  - intros [->|(y & -> & Hin)]; [by left |].
    destruct (decide (lower y = lower x)) as [Heq|Hne]; [by left |].
    right. exists y. split; [done |]. by apply list_elem_of_filter.
Qed.

Lemma elem_of_lower_unique_names (k : string) N :
  k ∈ lower <$> unique_names lower N ↔ k ∈ lower <$> N.
Proof. by rewrite unique_names_Permutation, elem_of_lower_first_seen. Qed.

(** *** Removing rows *)

Section Rows.

Context (P : string → Prop) `{!∀ x, Decision (P x)}.

Lemma rows_where_snoc t (x : string) :
  rows_where P (t ++ [x])
  = (rows_where P t ++ if decide (P x) then [length t] else [])%list.
Proof.
  unfold rows_where. rewrite imap_app, filter_app, fmap_app. f_equal.
  simpl. rewrite Nat.add_0_r, filter_cons. simpl.
  by destruct (decide (P x)).
Qed.

Lemma delete_rows_app t (s : list string) :
  foldl (λ t row, delete row t) (t ++ s) (reverse (rows_where P t))
  = (foldl (λ t row, delete row t) t (reverse (rows_where P t)) ++ s)%list.
Proof.
  revert s. induction t as [|x t IH] using rev_ind; intros s; [done |].
  rewrite rows_where_snoc. destruct (decide (P x)).
  - rewrite reverse_app. simpl.
    rewrite <- (assoc_L (++)). simpl. rewrite delete_middle.
    rewrite <- (app_nil_r (t ++ [x])) at 1. rewrite <- (assoc_L (++)). simpl.
    rewrite delete_middle, app_nil_r. apply IH.
  - rewrite app_nil_r, <- (assoc_L (++)), !IH. by rewrite <- (assoc_L (++)).
Qed.

(** Deleting the selected rows from the last to the first leaves the rows
    that were not selected. *)
Lemma delete_rows t :
  foldl (λ t row, delete row t) t (reverse (rows_where P t))
  = filter (λ x, ¬ P x) t.
Proof.
  induction t as [|x t IH] using rev_ind; [done |].
  rewrite rows_where_snoc, filter_app, filter_cons, filter_nil.
  destruct (decide (P x)) as [HP|HP].
  - rewrite decide_False by tauto.
    rewrite reverse_app. simpl.
    rewrite <- (app_nil_r (t ++ [x])) at 1. rewrite <- (assoc_L (++)). simpl.
    rewrite delete_middle, !app_nil_r. apply IH.
  - rewrite decide_True by done. rewrite app_nil_r, delete_rows_app. by rewrite IH.
Qed.

Lemma rows_where_lt t : Forall (λ row, row < length t)%nat (rows_where P t).
Proof.
  unfold rows_where. apply Forall_fmap, Forall_forall.
  intros [i y] [_ Hin]%list_elem_of_filter.
  apply elem_of_lookup_imap in Hin as (j & z & [= -> ->] & Hz).
  simpl. by eapply lookup_lt_Some.
Qed.

Lemma omap_lookup_app (rows : list nat) t (s : list string) :
  Forall (λ row, row < length t)%nat rows →
  omap (λ row, (t ++ s) !! row) rows = omap (λ row, t !! row) rows.
Proof.
  intros Hlt. apply list_omap_ext.
  induction Hlt as [|row rows Hrow _ IH]; constructor; [| done].
  by apply lookup_app_l.
Qed.

(** The texts of the selected rows. *)
Lemma rows_where_lookup t :
  omap (λ row, t !! row) (rows_where P t) = filter P t.
Proof.
  induction t as [|x t IH] using rev_ind; [done |].
  rewrite rows_where_snoc, omap_app, filter_app, filter_cons, filter_nil.
  f_equal.
  - rewrite <- IH. apply omap_lookup_app, rows_where_lt.
  - destruct (decide (P x)); simpl; [| done].
    by rewrite list_lookup_middle.
Qed.

End Rows.

Lemma filter_ext_in {A} (P Q : A → Prop) `{!∀ x, Decision (P x)}
    `{!∀ x, Decision (Q x)} (l : list A) :
  (∀ x, x ∈ l → P x ↔ Q x) → filter P l = filter Q l.
Proof.
  induction l as [|x l IH]; intros HPQ; [done |].
  rewrite !filter_cons.
  rewrite IH by (intros y Hy; apply HPQ; by right).
  pose proof (HPQ x (list_elem_of_here _ _)) as Hx.
  destruct (decide (P x)), (decide (Q x)); tauto || done.
Qed.

(** *** Inserting rows *)

Lemma insert_row_Permutation (row : nat) (name : string) t :
  take row t ++ name :: drop row t ≡ₚ t ++ [name].
Proof.
  rewrite <- Permutation_middle, take_drop. apply Permutation_cons_append.
Qed.

Lemma foldl_add_step (S : gset string) (names : list string)
    (acc : list string * list event) (t0 : table) :
  let r := foldl (add_step lower S) acc names in
  r.1 ≡ₚ acc.1 ++ filter (λ name, lower name ∈ S) names ∧
  added r.2 = added acc.2 ++ filter (λ name, lower name ∈ S) names ∧
  removed t0 r.2 = removed t0 acc.2.
Proof.
  revert acc. induction names as [|name names IH]; intros acc; simpl.
  - by rewrite !app_nil_r.
  - destruct (IH (add_step lower S acc name)) as (IH1 & IH2 & IH3).
    rewrite IH1, IH2, IH3. clear IH IH1 IH2 IH3.
    rewrite filter_cons. unfold add_step.
    destruct (decide (lower name ∈ S)); [| done]. simpl.
    split_and!.
    + rewrite insert_row_Permutation. by rewrite <- (assoc_L (++)).
    + unfold added. rewrite omap_app. simpl. by rewrite <- (assoc_L (++)).
    + unfold removed. rewrite omap_app. simpl. by rewrite app_nil_r.
Qed.

Lemma removed_RemoveRow t (rows : list nat) :
  removed t (RemoveRow <$> rows) = omap (λ row, t !! row) rows.
Proof.
  unfold removed. apply list_omap_ext.
  induction rows as [|row rows IH]; simpl; by constructor.
Qed.

Lemma added_RemoveRow (rows : list nat) : added (RemoveRow <$> rows) = [].
Proof. induction rows; done. Qed.

(** What the removals and the insertions of a pass do to the rows. *)
Lemma update_rows_spec N t :
  let r := update_rows lower N t in
  removed t r.2 ≡ₚ filter (λ row, lower row ∉ lower <$> N) t ∧
  added r.2 = filter (λ name, lower name ∉ lower <$> t) (unique_names lower N) ∧
  unique_names lower N ≡ₚ Watch.first_seen lower N ∧
  r.1 ≡ₚ filter (λ row, lower row ∈ lower <$> N) t ++ added r.2 ∧
  (∀ x, lower x ∈ lower <$> t → lower x ∈ lower <$> N →
        (x ∉ added r.2) ∧ (x ∉ removed t r.2)).
Proof.
  intros r. subst r. unfold update_rows.
  set (unique := unique_names lower N).
  set (new_names := list_to_set (lower <$> unique) : gset string).
  set (to_remove := current_names lower t ∖ new_names).
  set (to_add := new_names ∖ current_names lower t).
  set (rows := rows_where (λ text, lower text ∈ to_remove) t).
  assert (Hnew : ∀ k, k ∈ new_names ↔ k ∈ lower <$> N).
  { intros k. unfold new_names. rewrite elem_of_list_to_set.
    apply elem_of_lower_unique_names. }
  assert (Hcur : ∀ k, k ∈ current_names lower t ↔ k ∈ lower <$> t).
  { intros k. unfold current_names. apply elem_of_list_to_set. }
  match goal with
  | |- context [foldl (add_step lower ?S) ?acc ?names] =>
      destruct (foldl_add_step S names acc t) as (H1 & H2 & H3);
      set (res := foldl (add_step lower S) acc names) in *
  end.
  cbn [fst snd] in H1, H2, H3.
  rewrite added_RemoveRow in H2. simpl in H2.
  rewrite removed_RemoveRow in H3.
  assert (Hrem : removed t (res.2)
                 ≡ₚ filter (λ row, lower row ∉ lower <$> N) t).
  { rewrite H3, reverse_Permutation. unfold rows. rewrite rows_where_lookup.
    erewrite filter_ext_in; [done |]. intros x Hx. unfold to_remove.
    rewrite elem_of_difference, Hnew, Hcur. split; [tauto |].
    intros Hn. split; [| done]. apply list_elem_of_fmap. by exists x. }
  assert (Hadd : added (res.2)
                 = filter (λ name, lower name ∉ lower <$> t) unique).
  { rewrite H2. apply filter_ext_in. intros x Hx. unfold to_add.
    rewrite elem_of_difference, Hnew, Hcur. split; [tauto |].
    intros Hn. split; [| done]. apply elem_of_lower_unique_names.
    apply list_elem_of_fmap. by exists x. }
  split_and!; [done | done | apply unique_names_Permutation | |].
  - rewrite H1, H2. f_equiv.
    unfold rows. rewrite delete_rows.
    erewrite filter_ext_in; [done |]. intros x Hx. unfold to_remove.
    rewrite elem_of_difference, Hnew, Hcur.
    assert (lower x ∈ lower <$> t) by (apply list_elem_of_fmap; by exists x).
    destruct (decide (lower x ∈ lower <$> N)); tauto.
  - intros x Ht HN. split.
    + rewrite Hadd. intros [Hx _]%list_elem_of_filter. done.
    + rewrite Hrem. intros [Hx _]%list_elem_of_filter. done.
Qed.

(** The order Qt sorts the table in, when its sorting is enabled. *)
Context (qt_le : relation string) `{!RelDecision qt_le}.

(** C9. One tick of the refresher, [refresh_running_processes], over the
    table [t] with the live names [N]: the tick comes to its end, the rows
    it removes are the rows of [t] with no live name equal up to case, the
    names it inserts are the live names (first-seen casing, one per class)
    with no row of [t] equal up to case, every other row of [t] stays in
    the table, and nothing that is both in [t] and live is removed or
    inserted. While monitoring, and before the collector exists, a tick
    does nothing at all. *)
Theorem incremental_refresh N t (print_returns was_sorting_enabled : bool) :
  (∃ r,
     refresh_running_processes lower qt_le false (Some (Some N))
       print_returns was_sorting_enabled t = Some r ∧
     removed t r.2 ≡ₚ filter (λ row, lower row ∉ lower <$> N) t ∧
     added r.2
     = filter (λ name, lower name ∉ lower <$> t) (unique_names lower N) ∧
     unique_names lower N ≡ₚ Watch.first_seen lower N ∧
     r.1 ≡ₚ filter (λ row, lower row ∈ lower <$> N) t ++ added r.2 ∧
     (∀ x, lower x ∈ lower <$> t → lower x ∈ lower <$> N →
           (x ∉ added r.2) ∧ (x ∉ removed t r.2))) ∧
  (∀ collector,
     refresh_running_processes lower qt_le true collector
       print_returns was_sorting_enabled t = Some (t, [])) ∧
  refresh_running_processes lower qt_le false None
    print_returns was_sorting_enabled t = Some (t, []).
Proof.
  split_and!; [| done | done].
  destruct (update_rows_spec N t) as (Hrem & Hadd & Huniq & Hrows & Hkept).
  eexists. split; [done |]. unfold refresh_table. cbn [fst snd].
  split_and!; [done | done | done | | done].
  rewrite <- Hrows. unfold set_sorting_enabled.
  destruct was_sorting_enabled; [apply merge_sort_Permutation | done].
Qed.

End RefresherFacts.

(** From the rows ["a"], ["b"] to the live names ["b"], ["c"] (met as
    ["B"], ["c"], ["b"]): the row of ["a"] goes, ["c"] is inserted, and the
    row of ["b"] is left alone. With the sorting of the table enabled, and
    the indicator pointing down, the rows are then turned round. *)
Example refresh_a_b_to_b_c :
  refresh_running_processes PyStr.lower String.le false
    (Some (Some ["B"; "c"; "b"])) true false ["a"; "b"]
  = Some (["b"; "c"], [RemoveRow 0; InsertRow 1 "c"]) ∧
  refresh_running_processes PyStr.lower (flip String.le) false
    (Some (Some ["B"; "c"; "b"])) true true ["a"; "b"]
  = Some (["c"; "b"], [RemoveRow 0; InsertRow 1 "c"]) ∧
  refresh_running_processes PyStr.lower String.le true
    (Some (Some ["B"; "c"; "b"])) true true ["a"; "b"]
  = Some (["a"; "b"], []).
Proof. split_and!; vm_compute; reflexivity. Qed.

End RefreshFacts.

(** ** Binary64 arithmetic: what rounding guarantees *)

Module Binary64Facts.
Import Sample.
Local Open Scope Z_scope.

(** [digits2_pos p] is the number of binary digits of [p]. *)
Lemma digits2_pos_bounds (p : positive) :
  2 ^ (Z.pos (digits2_pos p) - 1) ≤ Z.pos p < 2 ^ Z.pos (digits2_pos p).
Proof.
  induction p as [p IH|p IH|]; cbn [digits2_pos].
  1, 2: rewrite Pos2Z.inj_succ;
    replace (Z.succ (Z.pos (digits2_pos p)) - 1)
      with (Z.succ (Z.pos (digits2_pos p) - 1)) by lia;
    rewrite !Z.pow_succ_r by lia; lia.
  simpl. lia.
Qed.

Lemma digits2_pos_unique (p : positive) (k : Z) :
  2 ^ (k - 1) ≤ Z.pos p < 2 ^ k → Z.pos (digits2_pos p) = k.
Proof.
  intros [Hlo Hhi]. pose proof (digits2_pos_bounds p) as [Hlo' Hhi'].
  assert (0 < k).
  { destruct (Z.lt_trichotomy k 0) as [Hk|[->|Hk]]; [| simpl in Hhi; lia | done].
    rewrite Z.pow_neg_r in Hhi by done. lia. }
  destruct (Z.lt_trichotomy (Z.pos (digits2_pos p)) k) as [Hlt|[Heq|Hgt]]; [| done |].
  - assert (2 ^ Z.pos (digits2_pos p) ≤ 2 ^ (k - 1))
      by (apply Z.pow_le_mono_r; lia).
    lia.
  - assert (2 ^ k ≤ 2 ^ (Z.pos (digits2_pos p) - 1))
      by (apply Z.pow_le_mono_r; lia).
    lia.
Qed.

(** Comparisons, as hypotheses and as goals, for [lia]. *)
Local Ltac order_of_compare :=
  repeat match goal with
  | H : _ ∧ _ |- _ => destruct H
  | H : (_ ?= _) = Eq |- _ => apply Z.compare_eq_iff in H
  | H : (?x ?= ?y) = Lt |- _ => change (x < y) in H
  | H : (_ ?= _) = Gt |- _ => apply Z.compare_gt_iff in H
  | |- _ ∧ _ => split
  | |- (_ ?= _) = Eq => apply Z.compare_eq_iff
  | |- (?x ?= ?y) = Lt => change (x < y)
  | |- (_ ?= _) = Gt => apply Z.compare_gt_iff
  end.

(** One shift to the right: the mantissa is halved, its low bit becomes the
    round bit, and the sticky bit remembers whether anything was lost. *)
Lemma shr_1_located a d mrs : located a d mrs → located a (2 * d) (shr_1 mrs).
Proof.
  intros (Hd & Hm & rho & Ha & Hrho & Hloc).
  destruct mrs as [m r s]. cbn [shr_m] in *.
  split; [lia |].
  destruct m as [|[p|p|]|p]; try lia; cbn [shr_1 shr_m]; (split; [lia |]);
    [exists rho | exists (d + rho) | exists rho | exists (d + rho)];
    (split; [lia |]); (split; [lia |]);
    destruct r, s; cbn [orb loc_of_shr_record] in *;
    order_of_compare; lia.
Qed.

Lemma iter_pos_shr_1_located (p : positive) a d mrs :
  located a d mrs → located a (d * 2 ^ Z.pos p) (SpecFloat.iter_pos shr_1 p mrs).
Proof.
  revert d mrs. induction p as [p IH|p IH|]; intros d mrs Hl; cbn [SpecFloat.iter_pos].
  - apply shr_1_located in Hl. apply IH, IH in Hl.
    replace (d * 2 ^ Z.pos p~1) with (2 * d * 2 ^ Z.pos p * 2 ^ Z.pos p); [done |].
    replace (Z.pos p~1) with (1 + Z.pos p + Z.pos p) by lia.
    rewrite !Z.pow_add_r, Z.pow_1_r by lia. ring.
  - apply IH, IH in Hl.
    replace (d * 2 ^ Z.pos p~0) with (d * 2 ^ Z.pos p * 2 ^ Z.pos p); [done |].
    replace (Z.pos p~0) with (Z.pos p + Z.pos p) by lia.
    rewrite !Z.pow_add_r by lia. ring.
  - apply shr_1_located in Hl. by rewrite Z.pow_1_r, Z.mul_comm.
Qed.

Lemma loc_of_shr_record_of_loc m l :
  loc_of_shr_record (shr_record_of_loc m l) = l ∧ shr_m (shr_record_of_loc m l) = m.
Proof. by destruct l as [|[]]. Qed.

(** Rounding to nearest of a located quotient is within half a unit. *)
Lemma round_nearest_even_located a d mrs :
  located a d mrs →
  let m1 := round_nearest_even (shr_m mrs) (loc_of_shr_record mrs) in
  shr_m mrs ≤ m1 ≤ shr_m mrs + 1 ∧ Z.abs (2 * (m1 * d - a)) ≤ d ∧
  (loc_of_shr_record mrs = loc_Exact → m1 = shr_m mrs).
Proof.
  intros (Hd & Hm & rho & Ha & Hrho & Hloc). unfold round_nearest_even.
  destruct (loc_of_shr_record mrs) as [|[]].
  - subst rho. split; [lia |]. split; [| done]. lia.
  - destruct Hloc as [Hne Hc%Z.compare_eq_iff].
    destruct (Z.even (shr_m mrs)); (split; [lia |]); (split; [| done]).
    + lia.
    + lia.
  - destruct Hloc as [Hne Hc]. change (2 * rho < d) in Hc.
    split; [lia |]. split; [| done]. lia.
  - destruct Hloc as [Hne Hc%Z.compare_gt_iff]. split; [lia |]. split; [| done]. lia.
Qed.

Lemma digits2_pos_ge (p : positive) (k : Z) :
  2 ^ (k - 1) ≤ Z.pos p → k ≤ Z.pos (digits2_pos p).
Proof.
  intros Hlo. pose proof (digits2_pos_bounds p) as [_ Hhi].
  destruct (Z.le_gt_cases k (Z.pos (digits2_pos p))) as [|Hgt]; [done |].
  assert (2 ^ Z.pos (digits2_pos p) ≤ 2 ^ (k - 1)) by (apply Z.pow_le_mono_r; lia).
  lia.
Qed.

Lemma digits2_pos_le (p : positive) (k : Z) :
  0 ≤ k → Z.pos p < 2 ^ k → Z.pos (digits2_pos p) ≤ k.
Proof.
  intros Hk Hhi. pose proof (digits2_pos_bounds p) as [Hlo _].
  destruct (Z.le_gt_cases (Z.pos (digits2_pos p)) k) as [|Hgt]; [done |].
  assert (2 ^ k ≤ 2 ^ (Z.pos (digits2_pos p) - 1)) by (apply Z.pow_le_mono_r; lia).
  lia.
Qed.

Lemma fexp_normal (e : Z) : -1074 ≤ e - 53 → fexp 53 1024 e = e - 53.
Proof. intros He. unfold fexp, emin. lia. Qed.

(** The first shift of [binary_round_aux], when the mantissa has at least 53 digits. *)
Lemma shr_fexp_located (mx : positive) (ex : Z) (lx : location) (a d : Z) :
  located a d (shr_record_of_loc (Z.pos mx) lx) →
  53 ≤ Z.pos (digits2_pos mx) →
  -1074 ≤ Z.pos (digits2_pos mx) + ex - 53 →
  let n := Z.pos (digits2_pos mx) - 53 in
  ∃ mrs, shr_fexp 53 1024 (Z.pos mx) ex lx = (mrs, ex + n) ∧
         located a (d * 2 ^ n) mrs ∧
         2 ^ 52 ≤ shr_m mrs < 2 ^ 53 ∧
         (n = 0 → mrs = shr_record_of_loc (Z.pos mx) lx).
Proof.
  intros Hloc Hdg Hex n.
  unfold shr_fexp. cbn [Zdigits2].
  rewrite fexp_normal by lia.
  replace (Z.pos (digits2_pos mx) + ex - 53 - ex) with n by (unfold n; lia).
  assert (∃ mrs, shr (shr_record_of_loc (Z.pos mx) lx) ex n = (mrs, ex + n) ∧
                 located a (d * 2 ^ n) mrs ∧
                 (n = 0 → mrs = shr_record_of_loc (Z.pos mx) lx))
    as (mrs & Hshr & Hl & Hn0).
  { destruct n as [|p|p] eqn:En; [| | lia].
    - exists (shr_record_of_loc (Z.pos mx) lx). cbn [shr].
      rewrite Z.add_0_r, Z.pow_0_r, Z.mul_1_r. done.
    - exists (SpecFloat.iter_pos shr_1 p (shr_record_of_loc (Z.pos mx) lx)).
      cbn [shr]. split; [done |]. split; [| done].
      by apply iter_pos_shr_1_located. }
  exists mrs. split; [done |]. split; [done |]. split; [| done].
  pose proof (digits2_pos_bounds mx) as [Hlo Hhi].
  destruct Hloc as (Hd & _ & rho & Ha & Hrho & _).
  destruct (loc_of_shr_record_of_loc (Z.pos mx) lx) as [_ Hm]. rewrite Hm in Ha.
  destruct Hl as (_ & Hm' & rho' & Ha' & Hrho' & _).
  assert (0 ≤ n) by (unfold n; lia).
  assert (0 < 2 ^ n) as HW by (apply Z.pow_pos_nonneg; lia).
  replace (Z.pos (digits2_pos mx) - 1) with (52 + n) in Hlo by (unfold n; lia).
  replace (Z.pos (digits2_pos mx)) with (53 + n) in Hhi by (unfold n; lia).
  rewrite Z.pow_add_r in Hlo, Hhi by lia.
  set (W := 2 ^ n) in *. set (m' := shr_m mrs) in *.
  assert (0 < d * W) as HdW by lia.
  split.
  - assert (2 ^ 52 * (d * W) < (m' + 1) * (d * W)) as Hlt by nia.
    apply Z.mul_lt_mono_pos_r in Hlt; lia.
  - assert (m' * (d * W) < 2 ^ 53 * (d * W)) as Hlt by nia.
    apply Z.mul_lt_mono_pos_r in Hlt; lia.
Qed.

(** The second shift: the rounded mantissa either still has 53 digits, or
    is [2^53] and is shifted once more. *)
Lemma shr_fexp_renormalize (m1 e : Z) :
  2 ^ 52 ≤ m1 ≤ 2 ^ 53 → -1074 ≤ e →
  ∃ (m : positive) (c : Z),
    shr_fexp 53 1024 m1 e loc_Exact
    = ({| shr_m := Z.pos m; shr_r := false; shr_s := false |}, e + c) ∧
    0 ≤ c ≤ 1 ∧ 2 ^ 52 ≤ Z.pos m < 2 ^ 53 ∧ Z.pos m * 2 ^ c = m1 ∧
    (m1 < 2 ^ 53 → c = 0).
Proof.
  intros Hm1 He.
  destruct (Z.eq_dec m1 (2 ^ 53)) as [->|Hne].
  - exists (4503599627370496%positive), 1.
    unfold shr_fexp.
    replace (Zdigits2 (2 ^ 53)) with 54 by reflexivity.
    rewrite fexp_normal by lia.
    replace (54 + e - 53 - e) with 1 by lia.
    split; [reflexivity |]. split; [lia |]. split; [done |]. split; [reflexivity |]. lia.
  - destruct m1 as [|p1|p1]; [simpl in Hm1; lia | | lia].
    exists p1, 0.
    assert (Z.pos (digits2_pos p1) = 53) as Hdg.
    { apply digits2_pos_unique. replace (53 - 1) with 52 by lia. lia. }
    unfold shr_fexp. cbn [Zdigits2]. rewrite Hdg.
    rewrite fexp_normal by lia.
    replace (53 + e - 53 - e) with 0 by lia.
    cbn [shr shr_record_of_loc]. rewrite Z.add_0_r, Z.pow_0_r, Z.mul_1_r.
    split; [done |]. split; [lia |]. split; [lia |]. done.
Qed.

(** [binary_round_aux] on a located quotient with at least 53 digits, in the
    normal range: the result is a normal number within half a unit in the
    last place of the quotient. *)
Lemma binary_round_aux_located (s : bool) (mx : positive) (ex : Z) (lx : location)
    (a d : Z) :
  located a d (shr_record_of_loc (Z.pos mx) lx) →
  53 ≤ Z.pos (digits2_pos mx) →
  -1074 ≤ Z.pos (digits2_pos mx) + ex - 53 < 971 →
  ∃ (m : positive) (n : Z),
    binary_round_aux 53 1024 s (Z.pos mx) ex lx = S754_finite s m (ex + n) ∧
    Z.pos (digits2_pos mx) - 53 ≤ n ≤ Z.pos (digits2_pos mx) - 52 ∧
    2 ^ 52 ≤ Z.pos m < 2 ^ 53 ∧
    Z.abs (2 * (Z.pos m * 2 ^ n * d - a)) ≤ 2 ^ n * d ∧
    (lx = loc_Exact → Z.pos (digits2_pos mx) = 53 → m = mx ∧ n = 0).
Proof.
  intros Hloc Hdg Hex.
  destruct (shr_fexp_located mx ex lx a d Hloc Hdg) as (mrs & Hshr & Hl & Hm & Hn0);
    [lia |].
  set (n0 := Z.pos (digits2_pos mx) - 53) in *.
  destruct (round_nearest_even_located a (d * 2 ^ n0) mrs Hl) as (Hm1 & Herr & Hexact).
  set (m1 := round_nearest_even (shr_m mrs) (loc_of_shr_record mrs)) in *.
  destruct (shr_fexp_renormalize m1 (ex + n0)) as (m & c & Hshr2 & Hc & Hmb & Hmc & Hc0);
    [lia | lia |].
  exists m, (n0 + c).
  unfold binary_round_aux. rewrite Hshr. fold m1. rewrite Hshr2. cbn [shr_m].
  assert ((ex + n0 + c <=? 1024 - 53) = true) as -> by (apply Z.leb_le; lia).
  assert (0 < 2 ^ n0) by (apply Z.pow_pos_nonneg; lia).
  destruct Hl as (Hd & _).
  split; [f_equal; lia |]. split; [lia |]. split; [done |]. split.
  - rewrite Z.pow_add_r by lia.
    replace (Z.pos m * (2 ^ n0 * 2 ^ c) * d)
      with (Z.pos m * 2 ^ c * (d * 2 ^ n0)) by ring.
    rewrite Hmc.
    assert (1 ≤ 2 ^ c) by (apply (Z.pow_le_mono_r 2 0 c); lia).
    nia.
  - intros -> Hdg53.
    assert (n0 = 0) as Hn00 by (unfold n0; lia).
    rewrite (Hn0 Hn00) in *. cbn [shr_record_of_loc shr_m loc_of_shr_record] in *.
    assert (m1 = Z.pos mx) as Hm1x by (by apply Hexact).
    assert (c = 0) as -> by (apply Hc0; lia).
    rewrite Z.pow_0_r, Z.mul_1_r in Hmc. split; [| lia].
    rewrite Hm1x in Hmc. by injection Hmc.
Qed.


Lemma located_exact (m : Z) :
  0 ≤ m → located m 1 (shr_record_of_loc m loc_Exact).
Proof.
  intros Hm. split; [lia |]. split; [done |]. exists 0. cbn. split; [lia |]. done.
Qed.

Lemma pos_iter_xO (p d : positive) :
  Z.pos (Pos.iter xO p d) = Z.pos p * 2 ^ Z.pos d.
Proof.
  induction d as [|d IH] using Pos.peano_ind.
  - simpl. lia.
  - rewrite Pos.iter_succ, Pos2Z.inj_succ, Z.pow_succ_r by lia.
    rewrite Pos2Z.inj_xO, IH. ring.
Qed.

(** A positive integer below [2^53] is converted exactly, into a normal
    number. *)
Lemma of_int_exact (n : Z) :
  0 < n < 2 ^ 53 →
  ∃ (m : positive) (k : Z),
    of_int n = S754_finite false m (- k) ∧
    0 ≤ k ≤ 52 ∧ 2 ^ 52 ≤ Z.pos m < 2 ^ 53 ∧ Z.pos m = n * 2 ^ k.
Proof.
  intros [Hn0 Hn]. destruct n as [|p|p]; [lia | | lia].
  unfold of_int, binary_normalize, binary_round.
  pose proof (digits2_pos_bounds p) as [Hlo Hhi].
  assert (Z.pos (digits2_pos p) ≤ 53) as Hdg by (apply digits2_pos_le; lia).
  rewrite Z.add_0_r, fexp_normal by lia.
  set (dg := Z.pos (digits2_pos p)) in *.
  unfold shl_align.
  destruct (dg - 53 - 0) as [|q|q] eqn:Eq; [| lia |].
  - (* already 53 digits *)
    destruct (binary_round_aux_located false p 0 loc_Exact (Z.pos p) 1)
      as (m & n & Hr & Hn' & Hm & _ & Hex);
      [by apply located_exact | fold dg; lia | fold dg; lia |].
    destruct Hex as [-> ->]; [done | fold dg; lia |].
    exists p, 0. rewrite Hr. split; [done |]. split; [lia |]. split; [done |].
    rewrite Z.pow_0_r. lia.
  - (* shifted left by [53 - dg] *)
    set (mz := Pos.iter xO p q).
    assert (Z.pos mz = Z.pos p * 2 ^ Z.pos q) as Hmz by apply pos_iter_xO.
    assert (Z.pos q = 53 - dg) as Hq by (rewrite <- Pos2Z.opp_pos in Eq; lia).
    assert (2 ^ 52 ≤ Z.pos mz < 2 ^ 53) as Hmzb.
    { rewrite Hmz.
      assert (2 ^ 52 = 2 ^ (dg - 1) * 2 ^ Z.pos q) as ->
        by (rewrite <- Z.pow_add_r by lia; f_equal; lia).
      assert (2 ^ 53 = 2 ^ dg * 2 ^ Z.pos q) as ->
        by (rewrite <- Z.pow_add_r by lia; f_equal; lia).
      assert (0 < 2 ^ Z.pos q) by (apply Z.pow_pos_nonneg; lia).
      split; [apply Z.mul_le_mono_nonneg_r | apply Z.mul_lt_mono_pos_r]; lia. }
    assert (Z.pos (digits2_pos mz) = 53) as Hdz.
    { apply digits2_pos_unique. replace (53 - 1) with 52 by lia. done. }
    destruct (binary_round_aux_located false mz (dg - 53) loc_Exact (Z.pos mz) 1)
      as (m & n & Hr & Hn' & Hm & _ & Hex);
      [by apply located_exact | lia | lia |].
    destruct Hex as [-> ->]; [done | done |].
    exists mz, (Z.pos q). rewrite Hr. split; [f_equal; lia |]. split; [lia |].
    split; [done |]. done.
Qed.

Lemma of_int_0 : of_int 0 = S754_zero false.
Proof. reflexivity. Qed.

(** The product of two normal numbers, away from overflow and underflow. *)
Lemma SFmul_normal (mx my : positive) (ex ey : Z) :
  2 ^ 52 ≤ Z.pos mx < 2 ^ 53 → 2 ^ 52 ≤ Z.pos my < 2 ^ 53 →
  -1126 ≤ ex + ey < 918 →
  ∃ (m : positive) (n : Z),
    SFmul 53 1024 (S754_finite false mx ex) (S754_finite false my ey)
    = S754_finite false m (ex + ey + n) ∧
    52 ≤ n ≤ 54 ∧ 2 ^ 52 ≤ Z.pos m < 2 ^ 53 ∧
    Z.abs (2 * (Z.pos m * 2 ^ n - Z.pos mx * Z.pos my)) ≤ 2 ^ n.
Proof.
  intros Hx Hy He. cbn [SFmul xorb].
  change (Z.pos (PosDef.Pos.mul mx my)) with (Z.pos (mx * my)).
  assert (2 ^ 104 ≤ Z.pos (mx * my) < 2 ^ 106) as Hxy.
  { rewrite Pos2Z.inj_mul.
    change (2 ^ 104) with (2 ^ 52 * 2 ^ 52). change (2 ^ 106) with (2 ^ 53 * 2 ^ 53).
    nia. }
  assert (105 ≤ Z.pos (digits2_pos (mx * my)) ≤ 106) as Hdg.
  { split; [apply digits2_pos_ge | apply digits2_pos_le]; lia. }
  destruct (binary_round_aux_located false (mx * my) (ex + ey) loc_Exact
              (Z.pos (mx * my)) 1) as (m & n & Hr & Hn & Hm & Herr & _);
    [by apply located_exact | lia | lia |].
  exists m, n. change (IntDef.Z.add ex ey) with (ex + ey). rewrite Hr.
  split; [done |]. split; [lia |]. split; [done |].
  rewrite Pos2Z.inj_mul in Herr. by rewrite !Z.mul_1_r in Herr.
Qed.

(** [new_location] places a remainder against half of the divisor. *)
Lemma new_location_spec (nb k : Z) :
  0 ≤ k < nb →
  match new_location nb k with
  | loc_Exact => k = 0
  | loc_Inexact c => k ≠ 0 ∧ (2 * k ?= nb) = c
  end.
Proof.
  intros Hk. unfold new_location, new_location_even, new_location_odd.
  destruct (Z.even nb) eqn:Hev.
  - destruct (Z.eqb_spec k 0) as [->|Hne]; [done |]. done.
  - destruct (Z.eqb_spec k 0) as [->|Hne]; [done |]. split; [done |].
    assert (Z.odd nb = true) as [j Hj]%Z.odd_spec by (by rewrite <- Z.negb_even, Hev).
    change (IntDef.Z.compare (IntDef.Z.add (IntDef.Z.mul 2 k) 1) nb)
      with (2 * k + 1 ?= nb).
    destruct (Z.compare_spec (2 * k + 1) nb); order_of_compare; lia.
Qed.

(** The quotient of two normal numbers, away from overflow and underflow. *)
Lemma SFdiv_normal (mx my : positive) (ex ey : Z) :
  2 ^ 52 ≤ Z.pos mx < 2 ^ 53 → 2 ^ 52 ≤ Z.pos my < 2 ^ 53 →
  -1021 ≤ ex - ey < 1022 →
  ∃ (m : positive) (n : Z),
    SFdiv 53 1024 (S754_finite false mx ex) (S754_finite false my ey)
    = S754_finite false m (ex - ey - 53 + n) ∧
    0 ≤ n ≤ 2 ∧ 2 ^ 52 ≤ Z.pos m < 2 ^ 53 ∧
    Z.abs (2 * (Z.pos m * 2 ^ n * Z.pos my - Z.pos mx * 2 ^ 53)) ≤ 2 ^ n * Z.pos my.
Proof.
  intros Hx Hy He. cbn [SFdiv xorb]. unfold SFdiv_core_binary. cbn [Zdigits2].
  assert (Z.pos (digits2_pos mx) = 53) as -> by (apply digits2_pos_unique; lia).
  assert (Z.pos (digits2_pos my) = 53) as -> by (apply digits2_pos_unique; lia).
  change (IntDef.Z.sub (IntDef.Z.add 53 ex) (IntDef.Z.add 53 ey))
    with (53 + ex - (53 + ey)).
  rewrite fexp_normal by lia.
  change (IntDef.Z.min (53 + ex - (53 + ey) - 53) (IntDef.Z.sub ex ey))
    with (Z.min (53 + ex - (53 + ey) - 53) (ex - ey)).
  replace (Z.min (53 + ex - (53 + ey) - 53) (ex - ey)) with (ex - ey - 53) by lia.
  change (IntDef.Z.sub (IntDef.Z.sub ex ey) (ex - ey - 53))
    with (ex - ey - (ex - ey - 53)).
  replace (ex - ey - (ex - ey - 53)) with 53 by lia.
  cbv iota beta.
  change (IntDef.Z.shiftl (Z.pos mx) 53) with (Z.shiftl (Z.pos mx) 53).
  rewrite Z.shiftl_mul_pow2 by lia.
  set (a := Z.pos mx * 2 ^ 53).
  change (IntDef.Z.div_eucl a (Z.pos my)) with (Z.div_eucl a (Z.pos my)).
  pose proof (Z.div_eucl_eq a (Z.pos my)) as Heq.
  pose proof (Z.mod_pos_bound a (Z.pos my)) as Hrem.
  unfold Z.modulo in Hrem.
  destruct (Z.div_eucl a (Z.pos my)) as [q r].
  specialize (Heq ltac:(lia)). specialize (Hrem ltac:(lia)).
  assert (2 ^ 52 ≤ q < 2 ^ 54) as Hq.
  { unfold a in Heq. change (2 ^ 54) with (2 * 2 ^ 53).
    change (2 ^ 53) with (2 * 2 ^ 52) in *. nia. }
  destruct q as [|pq|pq]; [lia | | lia].
  assert (53 ≤ Z.pos (digits2_pos pq) ≤ 54) as Hdq.
  { split; [apply digits2_pos_ge | apply digits2_pos_le]; lia. }
  destruct (binary_round_aux_located false pq (ex - ey - 53)
              (new_location (Z.pos my) r) a (Z.pos my))
    as (m & n & Hr & Hn & Hm & Herr & _); [| lia | lia |].
  { split; [lia |].
    destruct (loc_of_shr_record_of_loc (Z.pos pq) (new_location (Z.pos my) r))
      as [-> ->].
    split; [lia |]. exists r. split; [lia |]. split; [lia |].
    by apply new_location_spec. }
  exists m, n. rewrite Hr. split; [done |]. split; [lia |]. split; [done |]. done.
Qed.

End Binary64Facts.

(** ** Down-sampling *)

Module SampleFacts.
Import Sample Binary64Facts.
Local Open Scope Z_scope.

(** The arithmetic behind the index bounds. [S / A] is the stride as
    computed ([A] a power of two), [Y * B / A] the product [i * stride] as
    computed; both are correct to half a unit in the last place. *)
Lemma index_arith (L M i S Y A B : Z) :
  1 ≤ i < M → M < L → L * M ≤ 2 ^ 51 →
  2 ^ 52 ≤ S < 2 ^ 53 → 2 ^ 52 ≤ Y < 2 ^ 53 →
  0 < A → 0 < B →
  Z.abs (2 * (S * M - L * A)) ≤ M →
  Z.abs (2 * (Y * B - i * S)) ≤ B →
  (Y * B / A) * M ≤ i * L ≤ (Y * B / A + 1) * M.
Proof.
  intros Hi HML HLM HS HY HA HB H1 H2.
  apply Z.abs_le in H1. apply Z.abs_le in H2.
  change (2 ^ 51) with 2251799813685248 in *.
  change (2 ^ 52) with 4503599627370496 in *.
  change (2 ^ 53) with 9007199254740992 in *.
  assert (B ≤ 2 * i) as HBi.
  { destruct (Z.le_gt_cases B (2 * i)) as [|Hgt]; [done |]. exfalso.
    assert (B * (2 * Y - 1) ≤ 2 * i * S) by lia.
    assert ((2 * i + 1) * (2 * Y - 1) ≤ B * (2 * Y - 1))
      by (apply Z.mul_le_mono_nonneg_r; lia).
    assert ((2 * i + 1) * 9007199254740991 ≤ (2 * i + 1) * (2 * Y - 1))
      by (apply Z.mul_le_mono_nonneg_l; lia).
    assert (2 * i * S ≤ 2 * i * 9007199254740991)
      by (apply Z.mul_le_mono_nonneg_l; lia).
    lia. }
  assert (M * (i + B) < 2 * A) as Hgap.
  { destruct (Z.lt_ge_cases (M * (i + B)) (2 * A)) as [|Hge]; [done |]. exfalso.
    assert (M * (2 * S - 1) ≤ 2 * L * A) by lia.
    assert (M * 9007199254740991 ≤ M * (2 * S - 1))
      by (apply Z.mul_le_mono_nonneg_l; lia).
    assert (2 * L * A ≤ L * (M * (i + B))) by nia.
    assert (M * (i + B) ≤ M * (3 * i)) by (apply Z.mul_le_mono_nonneg_l; lia).
    assert (L * (M * (i + B)) ≤ L * (M * (3 * i)))
      by (apply Z.mul_le_mono_nonneg_l; lia).
    assert (L * (M * (3 * i)) = M * (3 * (i * L))) by ring.
    assert (i * L ≤ M * L) by (apply Z.mul_le_mono_nonneg_r; lia).
    assert (M * (3 * (i * L)) ≤ M * (3 * 2251799813685248)).
    { apply Z.mul_le_mono_nonneg_l; lia. }
    lia. }
  assert (Z.abs (2 * (Y * B * M - i * L * A)) ≤ M * (i + B)) as Hsum.
  { apply Z.abs_le.
    assert (- (i * M) ≤ i * (2 * (S * M - L * A)) ≤ i * M) by nia.
    assert (- (B * M) ≤ M * (2 * (Y * B - i * S)) ≤ B * M) by nia.
    lia. }
  apply Z.abs_le in Hsum.
  pose proof (Z.mul_div_le (Y * B) A HA) as Hq1.
  pose proof (Z.mul_succ_div_gt (Y * B) A HA) as Hq2.
  set (q := Y * B / A) in *.
  split.
  - assert (A * (q * M) < A * (i * L + 1)) as Hlt by nia.
    apply Z.mul_lt_mono_pos_l in Hlt; lia.
  - assert (A * (i * L - 1) < A * ((q + 1) * M)) as Hlt by nia.
    apply Z.mul_lt_mono_pos_l in Hlt; lia.
Qed.

(** Cancelling a positive factor under an absolute value. *)
Lemma abs_mul_cancel (x y t : Z) :
  0 < t → Z.abs (2 * (x * t)) ≤ y * t → Z.abs (2 * x) ≤ y.
Proof.
  intros Ht H. apply Z.abs_le in H. apply Z.abs_le.
  split.
  - assert (- y * t ≤ 2 * x * t) as Hle by lia.
    apply Z.mul_le_mono_pos_r in Hle; lia.
  - assert (2 * x * t ≤ y * t) as Hle by lia.
    apply Z.mul_le_mono_pos_r in Hle; lia.
Qed.

(** The integer part of [Y * 2^(G - P)]. *)
Lemma to_int_scaled (Y : positive) (G P : Z) :
  0 ≤ G → 0 ≤ P →
  to_int (S754_finite false Y (G - P)) = Some (Z.pos Y * 2 ^ G / 2 ^ P).
Proof.
  intros HG HP. cbn [to_int cond_Zopp]. f_equal.
  assert (0 < 2 ^ P) by (apply Z.pow_pos_nonneg; lia).
  assert (0 < 2 ^ G) by (apply Z.pow_pos_nonneg; lia).
  destruct (Z.leb_spec 0 (G - P)) as [Hle|Hlt].
  - replace G with (G - P + P) at 2 by lia.
    rewrite Z.pow_add_r, Z.mul_assoc, Z.div_mul by lia. done.
  - replace P with (- (G - P) + G) at 2 by lia.
    rewrite Z.pow_add_r by lia.
    rewrite Z.div_mul_cancel_r by lia. done.
Qed.

Lemma index_bounds (L M i : Z) :
  1 ≤ M → M < L → L * M ≤ 2 ^ 51 → 0 ≤ i < M →
  ∃ step idx, truediv L M = Some step ∧ to_int (mul_int i step) = Some idx ∧
              0 ≤ idx ∧ idx * M ≤ i * L ≤ (idx + 1) * M.
Proof.
  intros HM HML HLM Hi.
  assert (L < 2 ^ 53 ∧ M < 2 ^ 53) as [HL53 HM53].
  { change (2 ^ 51) with 2251799813685248 in HLM.
    change (2 ^ 53) with 9007199254740992. nia. }
  unfold truediv. destruct (Z.eqb_spec M 0) as [?|_]; [lia |].
  destruct (of_int_exact L) as (mL & kL & HoL & HkL & HmL & HvL); [lia |].
  destruct (of_int_exact M) as (mM & kM & HoM & HkM & HmM & HvM); [lia |].
  rewrite HoL, HoM.
  destruct (SFdiv_normal mL mM (- kL) (- kM)) as (S & n1 & Hdiv & Hn1 & HS & Herr1);
    [done | done | lia |].
  rewrite Hdiv. eexists. 
  destruct (Z.eq_dec i 0) as [->|Hi0].
  { exists 0. split; [done |]. unfold mul_int. split; [reflexivity |]. lia. }
  destruct (of_int_exact i) as (mi & ki & Hoi & Hki & Hmi & Hvi); [lia |].
  destruct (SFmul_normal mi S (- ki) (- kL - - kM - 53 + n1))
    as (Y & n2 & Hmul & Hn2 & HY & Herr2); [done | done | lia |].
  set (P := kL - kM + 53 - n1). set (G := n2 - ki).
  assert (0 ≤ G) by (unfold G; lia).
  (* the stride: |2 (S M - L 2^P)| ≤ M *)
  set (T := 2 ^ (n1 + kM)).
  assert (0 < T) by (apply Z.pow_pos_nonneg; lia).
  assert (Z.pos S * 2 ^ n1 * Z.pos mM = Z.pos S * M * T) as HSM.
  { rewrite HvM. unfold T. rewrite Z.pow_add_r by lia. ring. }
  assert (2 ^ n1 * Z.pos mM = M * T) as HMT.
  { rewrite HvM. unfold T. rewrite Z.pow_add_r by lia. ring. }
  rewrite HSM, HMT, HvL in Herr1.
  assert (0 ≤ P) as HP.
  { destruct (Z.le_gt_cases 0 P) as [|Hneg]; [done |]. exfalso.
    assert (T = 2 ^ (kL + 53) * 2 ^ (- P)) as HT.
    { unfold T. rewrite <- Z.pow_add_r by lia. f_equal. unfold P. lia. }
    assert (2 ≤ 2 ^ (- P)) by (apply (Z.pow_le_mono_r 2 1 (- P)); lia).
    assert (0 < 2 ^ (kL + 53)) by (apply Z.pow_pos_nonneg; lia).
    set (U := 2 ^ (kL + 53)) in *. set (V := 2 ^ (- P)) in *.
    replace (L * 2 ^ kL * 2 ^ 53) with (L * U) in Herr1
      by (unfold U; rewrite Z.pow_add_r by lia; ring).
    rewrite HT in Herr1.
    replace (Z.pos S * M * (U * V) - L * U)
      with ((Z.pos S * M * V - L) * U) in Herr1 by ring.
    replace (M * (U * V)) with (M * V * U) in Herr1 by ring.
    apply abs_mul_cancel in Herr1; [| done]. apply Z.abs_le in Herr1.
    change (2 ^ 51) with 2251799813685248 in *.
    change (2 ^ 52) with 4503599627370496 in *.
    assert (1 * 2 ≤ M * V) by (apply Z.mul_le_mono_nonneg; lia).
    assert (M * V * (2 * Z.pos S - 1) ≤ 2 * L) by lia.
    assert (2 * 9007199254740991 ≤ M * V * (2 * Z.pos S - 1))
      by (apply Z.mul_le_mono_nonneg; lia).
    nia. }
  set (A := 2 ^ P). assert (0 < A) by (apply Z.pow_pos_nonneg; lia).
  assert (Z.abs (2 * (Z.pos S * M - L * A)) ≤ M) as Hstride.
  { apply (abs_mul_cancel _ _ T); [done |].
    replace ((Z.pos S * M - L * A) * T)
      with (Z.pos S * M * T - L * 2 ^ kL * 2 ^ 53); [done |].
    unfold A, T. rewrite (Z.mul_sub_distr_r). f_equal.
    rewrite <- !Z.mul_assoc. f_equal. rewrite <- !Z.pow_add_r by lia. f_equal.
    unfold P. lia. }
  (* the product: |2 (Y 2^G - i S)| ≤ 2^G *)
  set (B := 2 ^ G). assert (0 < B) by (apply Z.pow_pos_nonneg; lia).
  assert (Z.abs (2 * (Z.pos Y * B - i * Z.pos S)) ≤ B) as Hprod.
  { apply (abs_mul_cancel _ _ (2 ^ ki)); [apply Z.pow_pos_nonneg; lia |].
    replace ((Z.pos Y * B - i * Z.pos S) * 2 ^ ki)
      with (Z.pos Y * 2 ^ n2 - Z.pos mi * Z.pos S).
    2:{ rewrite Hvi. unfold B. rewrite Z.mul_sub_distr_r. f_equal; [| ring].
        rewrite <- Z.mul_assoc, <- Z.pow_add_r by lia. do 2 f_equal. unfold G. lia. }
    replace (B * 2 ^ ki) with (2 ^ n2); [done |].
    unfold B. rewrite <- Z.pow_add_r by lia. f_equal. unfold G. lia. }
  exists (Z.pos Y * B / A). split; [done |]. split.
  { unfold mul_int. rewrite Hoi, Hmul.
    replace (- ki + (- kL - - kM - 53 + n1) + n2) with (G - P) by (unfold G, P; lia).
    by rewrite to_int_scaled. }
  split; [apply Z.div_pos; lia |].
  apply (index_arith L M i (Z.pos S) (Z.pos Y) A B); try done; lia.
Qed.

(** Every index of the list [indices], with its bounds. *)
Lemma indices_Forall2 (L M : Z) (step : float) (js : list Z) :
  1 ≤ M → M < L → L * M ≤ 2 ^ 51 → truediv L M = Some step →
  Forall (λ i, 0 ≤ i < M) js →
  ∃ idxs, mapM (λ i, to_int (mul_int i step)) js = Some idxs ∧
          Forall2 (λ i idx, 0 ≤ idx ∧ idx * M ≤ i * L ≤ (idx + 1) * M) js idxs.
Proof.
  intros HM HML HLM Hstep Hjs.
  induction Hjs as [|i js Hi _ (idxs & Hmap & Hall)].
  - exists []. split; [done | constructor].
  - destruct (index_bounds L M i HM HML HLM Hi) as (step' & idx & Hs & Hidx & Hb).
    rewrite Hstep in Hs. injection Hs as <-.
    exists (idx :: idxs). split; [| by constructor].
    apply mapM_Some. constructor; [done | by apply mapM_Some].
Qed.

Lemma range_lookup (n : Z) (i : nat) (x : Z) :
  range n !! i = Some x → x = Z.of_nat i ∧ 0 ≤ x < n.
Proof.
  unfold range. rewrite list_lookup_fmap.
  destruct (seq 0 (Z.to_nat n) !! i) as [j|] eqn:Hj; [| done].
  apply lookup_seq in Hj as [-> Hlt]. intros [= <-]. lia.
Qed.

Lemma range_length (n : Z) : 0 ≤ n → Z.of_nat (length (range n)) = n.
Proof. intros Hn. unfold range. rewrite length_fmap, length_seq. lia. Qed.

(** The list [indices]: one index per point of the budget, the [i]-th
    within one of [i * L / M] from below, so strictly increasing and inside
    the series. *)
Lemma sample_indices_spec (L M : Z) :
  1 ≤ M → M < L → L * M ≤ 2 ^ 51 →
  ∃ indices,
    sample_indices L M = Some indices ∧
    Z.of_nat (length indices) = M ∧
    (∀ (i : nat) idx, indices !! i = Some idx →
       0 ≤ idx < L ∧ idx * M ≤ Z.of_nat i * L ≤ (idx + 1) * M) ∧
    (∀ (i j : nat) x y, indices !! i = Some x → indices !! j = Some y →
       (i < j)%nat → x < y).
Proof.
  intros HM HML HLM.
  destruct (index_bounds L M 0 HM HML HLM) as (step & _ & Hstep & _); [lia |].
  destruct (indices_Forall2 L M step (range M) HM HML HLM Hstep)
    as (indices & Hmap & Hall).
  { apply Forall_lookup. intros i x Hx. by apply range_lookup in Hx as [_ ?]. }
  assert (Hat : ∀ (i : nat) idx, indices !! i = Some idx →
            Z.of_nat i < M ∧ 0 ≤ idx ∧
            idx * M ≤ Z.of_nat i * L ≤ (idx + 1) * M).
  { intros i idx Hidx.
    destruct (Forall2_lookup_r _ _ _ _ _ Hall Hidx) as (x & Hx & Hb).
    apply range_lookup in Hx as [-> ?]. split; [lia | done]. }
  exists indices. split_and!.
  - unfold sample_indices. rewrite Hstep. done.
  - rewrite <- (Forall2_length _ _ _ Hall). apply range_length. lia.
  - intros i idx Hidx. destruct (Hat i idx Hidx) as (Hi & H0 & Hlo & Hhi).
    split; [| done]. split; [done |].
    assert (idx * M < L * M) as Hlt by nia.
    apply Z.mul_lt_mono_pos_r in Hlt; lia.
  - intros i j x y Hx Hy Hij.
    destruct (Hat i x Hx) as (_ & _ & Hxlo & _).
    destruct (Hat j y Hy) as (_ & _ & _ & Hyhi).
    assert ((Z.of_nat i + 1) * L ≤ Z.of_nat j * L)
      by (apply Z.mul_le_mono_nonneg_r; lia).
    assert ((x + 1) * M < (y + 1) * M) as Hlt by nia.
    apply Z.mul_lt_mono_pos_r in Hlt; lia.
Qed.

(** C3 (as amended). A series no longer than the budget is returned as it
    is. For a budget [M ≥ 1] and a longer series of [L] points, with
    [L * M ≤ 2^51], [sample_data] returns exactly [M] points, the points of
    the series at the positions [indices]; the positions are strictly
    increasing inside [0 .. L-1], and the [i]-th is [int(i * (L / M))] in
    binary64 arithmetic, which is [floor(i * L / M)], or that number less one
    when [i * L / M] is whole: [idx * M ≤ i * L ≤ (idx + 1) * M]. *)
Theorem down_sampling {A} (data : list A) (max_points : Z) :
  let L := Z.of_nat (length data) in
  (L ≤ max_points → sample_data data max_points = Some data) ∧
  (1 ≤ max_points → max_points < L → L * max_points ≤ 2 ^ 51 →
   ∃ indices out,
     sample_indices L max_points = Some indices ∧
     sample_data data max_points = Some out ∧
     Z.of_nat (length out) = max_points ∧
     Forall2 (λ idx x, data !! Z.to_nat idx = Some x) indices out ∧
     (∀ (i : nat) idx, indices !! i = Some idx →
        0 ≤ idx < L ∧
        idx * max_points ≤ Z.of_nat i * L ≤ (idx + 1) * max_points) ∧
     (∀ (i j : nat) x y, indices !! i = Some x → indices !! j = Some y →
        (i < j)%nat → x < y)).
Proof.
  intros L. split.
  - intros Hle. unfold sample_data. fold L.
    by destruct (Z.leb_spec L max_points); [| lia].
  - intros HM HML HLM.
    destruct (sample_indices_spec L max_points HM HML HLM)
      as (indices & Hidx & Hlen & Hat & Hinc).
    assert (∃ out, mapM (getitem data) indices = Some out ∧
                   Forall2 (λ idx x, data !! Z.to_nat idx = Some x) indices out)
      as (out & Hout & Hpts).
    { assert (Forall (λ idx, 0 ≤ idx < L) indices) as Hin.
      { apply Forall_lookup. intros i idx Hi. by apply Hat in Hi as [? _]. }
      clear -Hin. induction Hin as [|idx indices Hidx _ (out & Hout & Hpts)].
      - exists []. split; [done | constructor].
      - destruct (lookup_lt_is_Some_2 data (Z.to_nat idx)) as [x Hx]; [lia |].
        exists (x :: out). split; [| by constructor].
        apply mapM_Some. constructor; [| by apply mapM_Some].
        unfold getitem. by destruct (Z.leb_spec 0 idx); [| lia]. }
    exists indices, out. split_and!; try done.
    + unfold sample_data. fold L.
      destruct (Z.leb_spec L max_points); [lia |]. rewrite Hidx. done.
    + rewrite <- (Forall2_length _ _ _ Hpts). done.
Qed.

(** C3, as the specification words it, fails. For 1150 points and a budget
    of 1000 the point taken for [i = 100] is the point 114, while
    [floor(100 * 1150 / 1000)] is 115: the stride [1150 / 1000] is the
    binary64 number just below 1.15, and a hundred times it rounds below
    115. And a budget of 0 is no budget: the division raises. *)
Lemma stride_index_counterexample :
  (sample_data (range 1150) 1000 ≫= (.!! 100%nat)) = Some 114 ∧
  100 * 1150 / 1000 = 115 ∧
  sample_data ["a"; "b"; "c"] 0 = None.
Proof. split_and!; vm_compute; reflexivity. Qed.

(** Five points out of twelve. *)
Example sample_5_of_12 :
  sample_data ["a"; "b"; "c"; "d"; "e"; "f"; "g"; "h"; "i"; "j"; "k"; "l"] 5
  = Some ["a"; "c"; "e"; "h"; "j"] ∧
  sample_data ["a"; "b"; "c"] 5 = Some ["a"; "b"; "c"].
Proof. split; vm_compute; reflexivity. Qed.

End SampleFacts.

(** ** The rest of the store *)

Module DBRestFacts.
Import DB DBRest.
Local Open Scope Z_scope.
Local Open Scope list_scope.

Section RestFacts.

Context {real : Type}.
Variable json_dumps : @json real → string.
Variable json_loads : string → option (@json real).

Implicit Types (db : @database real).

(** X1. A system sample replaces the row of its own timestamp, if there is
    one, and no other: afterwards the table holds exactly one row with that
    timestamp, the new one, and the rows of other timestamps are as they
    were, in their order. *)
Theorem system_upsert (s : @SystemInfo real) (tb : @system_table real) :
  let ts := Clock.isoformat (sys_timestamp s) in
  let tb' := insert_system_info json_dumps s tb in
  filter (λ r, srow_timestamp r = ts) (system_info tb')
  = [system_values json_dumps s (system_info_seq tb')] ∧
  filter (λ r, srow_timestamp r ≠ ts) (system_info tb')
  = filter (λ r, srow_timestamp r ≠ ts) (system_info tb) ∧
  system_info_seq tb < system_info_seq tb'.
Proof.
  clear json_loads.
  intros ts tb'. subst tb'. unfold insert_system_info. fold ts.
  cbn [system_info system_info_seq]. split_and!.
  - rewrite filter_app, filter_cons, decide_True, filter_nil by done.
    rewrite list_filter_filter.
    assert (filter (λ r : @system_row real,
              srow_timestamp r = ts ∧ srow_timestamp r ≠ ts) (system_info tb) = [])
      as ->; [| done].
    induction (system_info tb) as [|r l IH]; [done |].
    rewrite filter_cons, decide_False by tauto. done.
  - rewrite filter_app, filter_cons, decide_False, filter_nil, app_nil_r
      by (intros H; by apply H).
    apply list_filter_filter_l. done.
  - lia.
Qed.

(** *** What a session of writes leaves in the store *)

Lemma foldr_max_ge (l : list Z) (x : Z) : x ∈ l → x ≤ foldr Z.max 0 l.
Proof.
  induction l as [|y l IH]; [by intros ?%elem_of_nil |].
  intros [->|Hin]%elem_of_cons; simpl; [lia |]. specialize (IH Hin). lia.
Qed.

Lemma insert_or_replace_well ts p mk db :
  (∀ id, same_key ts p (mk id) ∧ row_id (mk id) = id) → 0 ≤ processes_seq db →
  stored_well db → stored_well (insert_or_replace ts p mk db).
Proof.
  intros Hmk Hseq (Hkeys & Hids & Hall). unfold stored_well, insert_or_replace.
  cbn [processes processes_seq].
  set (id := Z.max (processes_seq db) (foldr Z.max 0 (row_id <$> processes db)) + 1).
  destruct (Hmk id) as [[Hts Hp] Hid].
  assert (Hsub : sublist (filter (λ r, ¬ same_key ts p r) (processes db))
                   (processes db)) by apply sublist_filter.
  rewrite !fmap_app. simpl. split_and!.
  - apply NoDup_app. split_and!.
    + eapply sublist_NoDup; [done |]. by apply fmap_sublist.
    + intros k (r & -> & [Hr _]%list_elem_of_filter)%list_elem_of_fmap.
      rewrite list_elem_of_singleton. intros [= H1 H2]. apply Hr. split; congruence.
    + apply NoDup_singleton.
  - apply NoDup_app. split_and!.
    + eapply sublist_NoDup; [done |]. by apply fmap_sublist.
    + intros k (r & -> & [_ Hr]%list_elem_of_filter)%list_elem_of_fmap.
      rewrite list_elem_of_singleton, Hid. intros Heq.
      assert (row_id r ≤ foldr Z.max 0 (row_id <$> processes db))
        by (apply foldr_max_ge, list_elem_of_fmap; by exists r).
      unfold id in Heq. lia.
    + apply NoDup_singleton.
  - apply Forall_app. split.
    + apply Forall_forall. intros r [_ Hr]%list_elem_of_filter.
      rewrite Forall_forall in Hall. specialize (Hall r Hr). unfold id. lia.
    + constructor; [| constructor]. rewrite Hid. unfold id. lia.
Qed.

Lemma insert_all_snoc writes (w : Clock.datetime * @ProcessInfo real) db :
  insert_all json_dumps (writes ++ [w]) db
  = insert_process_info json_dumps w.1 w.2 (insert_all json_dumps writes db).
Proof. unfold insert_all. by rewrite foldl_app. Qed.

Lemma insert_all_well writes :
  stored_well (insert_all json_dumps writes init_database) ∧
  0 ≤ processes_seq (insert_all json_dumps writes init_database).
Proof.
  induction writes as [|w writes [IH1 IH2]] using rev_ind.
  - split; [| done]. repeat split; simpl; constructor.
  - rewrite insert_all_snoc. unfold insert_process_info. split.
    + apply insert_or_replace_well; done.
    + pose proof (DBFacts.insert_or_replace_seq (Clock.isoformat w.1)
          (pid w.2) (values json_dumps (Clock.isoformat w.1) w.2)
          (insert_all json_dumps writes init_database)). lia.
Qed.

(** Deleting rows leaves the rows that stay in their order. *)
Lemma StronglySorted_filter {A} (R : relation A) (P : A → Prop)
    `{!∀ x, Decision (P x)} (l : list A) :
  StronglySorted R l → StronglySorted R (filter P l).
Proof.
  induction 1 as [|x l Hl IH Hx]; [constructor |].
  rewrite filter_cons. destruct (decide (P x)); [| done].
  constructor; [done |]. rewrite Forall_forall in Hx |- *.
  intros y [_ Hy]%list_elem_of_filter. by apply Hx.
Qed.

(** X2. Whatever is written to a fresh store, in whatever order, no two
    rows of it share their [(timestamp, pid)], no two share their id, and
    every id is positive and at most the counter of the table. The rows
    stand in the order of their ids: a write that replaces a row moves it
    behind all others, under an id larger than all. *)
Theorem store_keeps_keys_unique (writes : list (Clock.datetime * @ProcessInfo real)) :
  let db := insert_all json_dumps writes init_database in
  NoDup ((λ r, (row_timestamp r, row_pid r)) <$> processes db) ∧
  NoDup (row_id <$> processes db) ∧
  Forall (λ r, 0 < row_id r ≤ processes_seq db) (processes db) ∧
  StronglySorted (λ r1 r2, row_id r1 < row_id r2) (processes db).
Proof.
  intros db. destruct (insert_all_well writes) as [(Hkeys & Hids & Hall) _].
  split_and!; [done .. |]. subst db. clear Hkeys Hids Hall.
  induction writes as [|w writes IH] using rev_ind; [constructor |].
  rewrite insert_all_snoc. unfold insert_process_info, insert_or_replace.
  cbn [processes].
  destruct (insert_all_well writes) as [(_ & _ & Hall) Hseq].
  set (db := insert_all json_dumps writes init_database) in *.
  apply StronglySorted_app_2.
  - intros r1 r2 [_ Hr1]%list_elem_of_filter ->%list_elem_of_singleton.
    cbn [row_id values]. rewrite Forall_forall in Hall.
    specialize (Hall r1 Hr1). lia.
  - by apply StronglySorted_filter.
  - repeat constructor.
Qed.

(** X3. After a session of writes to a fresh store, the row of a key is the
    last sample written to that key, and a key nothing was written to has
    no row. *)
Theorem store_holds_last_write (writes : list (Clock.datetime * @ProcessInfo real))
    (ts : string) (p : Z) :
  let rows := processes (insert_all json_dumps writes init_database) in
  match last (filter (writes_to ts p) writes) with
  | Some w => ∃ id, filter (same_key ts p) rows = [values json_dumps ts w.2 id]
  | None => filter (same_key ts p) rows = []
  end.
Proof.
  induction writes as [|w writes IH] using rev_ind; [done |].
  rewrite insert_all_snoc, filter_app, filter_cons, filter_nil.
  unfold insert_process_info.
  destruct (decide (writes_to ts p w)) as [[Hts Hp]|Hn].
  - rewrite last_snoc. subst ts p. eexists.
    apply DBFacts.insert_or_replace_key. intros id. apply DBFacts.values_key.
  - rewrite app_nil_r.
    rewrite DBFacts.insert_or_replace_other;
      [done | intros id; apply DBFacts.values_key |].
    intros [= H1 H2]. apply Hn. by split.
Qed.

(** *** The time range *)

Lemma text_min_spec (t : string) (ts : list string) :
  foldr text_min t ts ∈ t :: ts ∧
  ∀ x, x ∈ t :: ts → String.le (foldr text_min t ts) x.
Proof.
  induction ts as [|a ts [IHin IHle]]; simpl.
  - split; [by left |]. intros x ->%list_elem_of_singleton. done.
  - unfold text_min at 1 3.
    destruct (decide (String.le a (foldr text_min t ts))) as [Hle|Hn].
    + split; [right; by left |]. intros x Hx.
      assert (x = a ∨ x ∈ t :: ts) as [->|Hin].
      { rewrite !elem_of_cons in Hx. rewrite !elem_of_cons. tauto. }
      * done.
      * etrans; [done | by apply IHle].
    + assert (String.le (foldr text_min t ts) a)
        by (destruct (total String.le a (foldr text_min t ts)); done).
      split.
      * rewrite !elem_of_cons in IHin. rewrite !elem_of_cons. tauto.
      * intros x Hx.
        assert (x = a ∨ x ∈ t :: ts) as [->|Hin].
        { rewrite !elem_of_cons in Hx. rewrite !elem_of_cons. tauto. }
        -- done.
        -- by apply IHle.
Qed.

Lemma text_max_spec (t : string) (ts : list string) :
  foldr text_max t ts ∈ t :: ts ∧
  ∀ x, x ∈ t :: ts → String.le x (foldr text_max t ts).
Proof.
  induction ts as [|a ts [IHin IHle]]; simpl.
  - split; [by left |]. intros x ->%list_elem_of_singleton. done.
  - unfold text_max at 1 3.
    destruct (decide (String.le a (foldr text_max t ts))) as [Hle|Hn].
    + split.
      * rewrite !elem_of_cons in IHin. rewrite !elem_of_cons. tauto.
      * intros x Hx.
        assert (x = a ∨ x ∈ t :: ts) as [->|Hin].
        { rewrite !elem_of_cons in Hx. rewrite !elem_of_cons. tauto. }
        -- done.
        -- by apply IHle.
    + assert (String.le (foldr text_max t ts) a)
        by (destruct (total String.le a (foldr text_max t ts)); done).
      split; [right; by left |]. intros x Hx.
      assert (x = a ∨ x ∈ t :: ts) as [->|Hin].
      { rewrite !elem_of_cons in Hx. rewrite !elem_of_cons. tauto. }
      * done.
      * etrans; [by apply IHle | done].
Qed.

(** X4. [get_time_range] of a store with no row is [(None, None)]; of any
    other store it is a pair of stored timestamps that bound every stored
    timestamp, and a query between the two bounds loses no row. *)
Theorem time_range_spans_store db :
  match get_time_range db with
  | (Some lo, Some hi) =>
      processes db ≠ [] ∧
      lo ∈ row_timestamp <$> processes db ∧
      hi ∈ row_timestamp <$> processes db ∧
      (∀ r, r ∈ processes db →
         String.le lo (row_timestamp r) ∧ String.le (row_timestamp r) hi) ∧
      (∀ pid name,
         get_process_data json_loads db pid name (Some lo) (Some hi)
         = get_process_data json_loads db pid name None None)
  | (None, None) => processes db = []
  | _ => False
  end.
Proof.
  unfold get_time_range.
  destruct (processes db) as [|r0 rows] eqn:Hrows; [done |]. simpl.
  destruct (text_min_spec (row_timestamp r0) (row_timestamp <$> rows))
    as [Hlo_in Hlo].
  destruct (text_max_spec (row_timestamp r0) (row_timestamp <$> rows))
    as [Hhi_in Hhi].
  assert (Hb : ∀ r, r ∈ r0 :: rows →
            String.le (foldr text_min (row_timestamp r0) (row_timestamp <$> rows))
              (row_timestamp r) ∧
            String.le (row_timestamp r)
              (foldr text_max (row_timestamp r0) (row_timestamp <$> rows))).
  { intros r Hr.
    assert (row_timestamp r ∈ row_timestamp r0 :: (row_timestamp <$> rows))
      by (rewrite <- fmap_cons; apply list_elem_of_fmap; by exists r).
    split; [by apply Hlo | by apply Hhi]. }
  split_and!; try done.
  intros pid name. unfold get_process_data, select_processes. rewrite Hrows.
  do 2 f_equal. apply RefreshFacts.filter_ext_in. intros r Hr.
  destruct (Hb r Hr) as [H1 H2]. unfold where_clause.
  destruct (PyStr.opt_truthy (Some _)), (PyStr.opt_truthy (Some _)); simpl; tauto.
Qed.

(** *** The listings *)

Lemma StronglySorted_strict {A} (R : relation A) (l : list A) :
  StronglySorted R l → NoDup l → StronglySorted (λ a b, R a b ∧ a ≠ b) l.
Proof.
  induction 1 as [|x l Hl IH Hx]; intros Hnd; [constructor |].
  apply NoDup_cons in Hnd as [Hnin Hnd].
  constructor; [by apply IH |].
  rewrite Forall_forall in Hx |- *. intros y Hy. split; [by apply Hx |].
  intros ->. done.
Qed.

Lemma StronglySorted_weaken {A} (R R' : relation A) (l : list A) :
  (∀ a b, R a b → R' a b) → StronglySorted R l → StronglySorted R' l.
Proof.
  intros HR. induction 1 as [|x l Hl IH Hx]; constructor; [done |].
  eapply Forall_impl; [done |]. intros y. apply HR.
Qed.

Lemma sorted_listing {A} `{EqDecision A} (R : relation A)
    `{!RelDecision R, !Transitive R, !Total R} (l : list A) :
  StronglySorted (λ a b, R a b ∧ a ≠ b) (merge_sort R (remove_dups l)) ∧
  ∀ x, x ∈ merge_sort R (remove_dups l) ↔ x ∈ l.
Proof.
  split.
  - apply StronglySorted_strict; [by apply StronglySorted_merge_sort |].
    rewrite merge_sort_Permutation. apply NoDup_remove_dups.
  - intros x. by rewrite merge_sort_Permutation, elem_of_remove_dups.
Qed.

Lemma elem_of_get_all_process_names db (n : string) :
  n ∈ get_all_process_names db ↔ ∃ r, r ∈ processes db ∧ row_name r = n.
Proof.
  unfold get_all_process_names.
  rewrite (proj2 (sorted_listing String.le _)), list_elem_of_fmap.
  split; intros (r & ? & ?); by exists r.
Qed.

(** X5. The listings of the store are ascending without repetition and
    complete: [get_all_process_names] gives every stored name once, in the
    order of the texts, and [get_all_pids], with or without a name, every
    pid of its rows once, in the order of the numbers. *)
Theorem listings_ascending_distinct db (name : option string) :
  StronglySorted (λ a b, String.le a b ∧ a ≠ b) (get_all_process_names db) ∧
  (∀ n, n ∈ get_all_process_names db ↔ ∃ r, r ∈ processes db ∧ row_name r = n) ∧
  StronglySorted Z.lt (get_all_pids db name) ∧
  (∀ p, p ∈ get_all_pids db None ↔ ∃ r, r ∈ processes db ∧ row_pid r = p).
Proof.
  split_and!.
  - apply (proj1 (sorted_listing String.le _)).
  - apply elem_of_get_all_process_names.
  - unfold get_all_pids.
    eapply StronglySorted_weaken; [| apply (proj1 (sorted_listing Z.le _))].
    intros a b. simpl. lia.
  - intros p. unfold get_all_pids. simpl.
    rewrite (proj2 (sorted_listing Z.le _)), list_elem_of_fmap.
    split; intros (r & ? & ?); by exists r.
Qed.

(** *** The tree of the analyzer *)

Lemma elem_of_tree_entries db (n : string) (p : Z) :
  (n, p) ∈ tree_entries db
  ↔ n ∈ get_all_process_names db ∧ p ∈ get_all_pids db (Some n).
Proof.
  unfold tree_entries. rewrite list_elem_of_bind. split.
  - intros (n' & (p' & Hin & Hp)%list_elem_of_bind & Hn).
    apply list_elem_of_singleton in Hin as [= <- <-].
    rewrite merge_sort_Permutation in Hn. rewrite merge_sort_Permutation in Hp. done.
  - intros [Hn Hp]. exists n. split; [| by rewrite merge_sort_Permutation].
    apply list_elem_of_bind. exists p.
    split; [by left | by rewrite merge_sort_Permutation].
Qed.

(** X6. The tree of the analyzer lists a process [(name, pid)], for a
    non-empty name, exactly when the store holds a row with that name and
    that pid, and lists no entry twice. Under a stored name that is empty
    it lists every pid of the store: [get_all_pids] takes the empty name
    for no name. *)
Theorem tree_lists_stored_processes db :
  (∀ n p, n ≠ "" →
     (n, p) ∈ tree_entries db
     ↔ ∃ r, r ∈ processes db ∧ row_name r = n ∧ row_pid r = p) ∧
  (∀ p, ("", p) ∈ tree_entries db
     ↔ (∃ r, r ∈ processes db ∧ row_name r = "") ∧
       (∃ r, r ∈ processes db ∧ row_pid r = p)) ∧
  NoDup (tree_entries db).
Proof.
  pose proof (elem_of_get_all_process_names db) as Hnames.
  split_and!.
  - intros n p Hn. rewrite elem_of_tree_entries, Hnames.
    unfold get_all_pids. rewrite (proj2 (sorted_listing Z.le _)).
    destruct n as [|c n]; [done |]. simpl. rewrite list_elem_of_fmap. split.
    + intros [_ (r & -> & [Hr Hin]%list_elem_of_filter)]. by exists r.
    + intros (r & Hin & Hr & <-). split; [by exists r |].
      exists r. split; [done |]. by apply list_elem_of_filter.
  - intros p. rewrite elem_of_tree_entries, Hnames.
    unfold get_all_pids. rewrite (proj2 (sorted_listing Z.le _)). simpl.
    rewrite list_elem_of_fmap. split.
    + intros [Hn (r & -> & Hin)]. split; [done | by exists r].
    + intros [Hn (r & Hin & <-)]. split; [done | by exists r].
  - unfold tree_entries. apply NoDup_bind.
    + intros n1 n2 [n p] _ _ (p1 & Hin1 & _)%list_elem_of_bind
        (p2 & Hin2 & _)%list_elem_of_bind.
      apply list_elem_of_singleton in Hin1 as [= -> _].
      apply list_elem_of_singleton in Hin2 as [= -> _]. done.
    + intros n _. apply NoDup_bind.
      * intros p1 p2 [n' p] _ _ Hin1%list_elem_of_singleton
          Hin2%list_elem_of_singleton. congruence.
      * intros p _. apply NoDup_singleton.
      * rewrite merge_sort_Permutation. unfold get_all_pids.
        rewrite merge_sort_Permutation. apply NoDup_remove_dups.
    + rewrite merge_sort_Permutation. unfold get_all_process_names.
      rewrite merge_sort_Permutation. apply NoDup_remove_dups.
Qed.

(** X7. A click on an entry of the tree always loads data: the rows loaded
    are never none, and they are all the stored rows of the entry's pid,
    under whatever name they were stored, since the rows are asked for by
    pid alone. *)
Theorem tree_entry_loads_rows db (tb : system_table) (n : string) (p : Z) :
  (n, p) ∈ tree_entries db →
  ∃ l, load_process_data json_loads db tb n p = Some l ∧
       loaded_process l ≠ [] ∧ loaded_name l = n ∧ loaded_pid l = p ∧
       loaded_system l = get_system_data json_loads tb None None ∧
       ∀ d, d ∈ loaded_process l
            ↔ ∃ r, r ∈ processes db ∧ row_pid r = p ∧ d = to_data json_loads r.
Proof.
  intros [_ Hp]%elem_of_tree_entries.
  assert (∃ r, r ∈ processes db ∧ row_pid r = p) as (r & Hr & Hpid).
  { unfold get_all_pids in Hp.
    rewrite (proj2 (sorted_listing Z.le _)), list_elem_of_fmap in Hp.
    destruct Hp as (r & -> & Hr). exists r. split; [| done].
    destruct (PyStr.opt_truthy (Some n)); [| done].
    by apply list_elem_of_filter in Hr as [_ ?]. }
  assert (Hall : ∀ d, d ∈ get_process_data json_loads db (Some p) None None None
            ↔ ∃ r, r ∈ processes db ∧ row_pid r = p ∧ d = to_data json_loads r).
  { intros d. unfold get_process_data. rewrite list_elem_of_fmap. split.
    - intros (r' & -> & [(Hp' & _) Hr']%DBFacts.elem_of_select_processes).
      by exists r'.
    - intros (r' & Hr' & Hp' & ->). exists r'. split; [done |].
      apply DBFacts.elem_of_select_processes. done. }
  unfold load_process_data.
  destruct (get_process_data json_loads db (Some p) None None None)
    as [|d0 ds] eqn:Hdata.
  - exfalso. eapply not_elem_of_nil, Hall. by exists r.
  - eexists. split; [done |]. cbn [loaded_process loaded_name loaded_pid
      loaded_system]. done.
Qed.

(** *** Writing, then reading *)

Lemma isoformat_nonempty (d : Clock.datetime) : Clock.isoformat d ≠ "".
Proof.
  intros H. apply (f_equal String.length) in H. unfold Clock.isoformat in H.
  rewrite ClockFacts.string_app_length, ClockFacts.digits_length in H. done.
Qed.

Lemma merge_sort_singleton {A} (R : relation A) `{!RelDecision R} (x : A) :
  merge_sort R [x] = [x].
Proof. apply Permutation_singleton_r, merge_sort_Permutation. Qed.

(** The query for the key of a write, after the write. *)
Lemma read_back_after_write (now : Clock.datetime)
    (process_info : @ProcessInfo real) db :
  let ts := Clock.isoformat now in
  let db' := insert_process_info json_dumps now process_info db in
  get_process_data json_loads db' (Some (pid process_info)) None (Some ts) (Some ts)
  = [to_data json_loads (values json_dumps ts process_info (processes_seq db'))].
Proof.
  intros ts db'. unfold get_process_data, select_processes.
  assert (filter (where_clause (Some (pid process_info)) None (Some ts) (Some ts))
            (processes db')
          = filter (same_key ts (pid process_info)) (processes db')) as ->.
  { apply RefreshFacts.filter_ext_in. intros r _.
    unfold where_clause, same_key.
    assert (PyStr.opt_truthy (Some ts) = true) as ->.
    { apply DBFacts.opt_truthy_Some. exists ts. split; [done |].
      apply isoformat_nonempty. }
    simpl. split.
    - intros (Hp & _ & H1 & H2). split; [| done].
      by apply (anti_symm String.le).
    - intros [-> ->]. done. }
  subst db'. unfold insert_process_info. fold ts.
  rewrite DBFacts.insert_or_replace_key
    by (intros id; apply DBFacts.values_key).
  rewrite merge_sort_singleton. done.
Qed.


(** X8. A sample that was written is read back: asked for the sample's pid
    at the instant of the write, [get_process_data] returns one record, the
    one that was written, with the id the write drew from the counter,
    whatever the store held before. *)
Theorem written_sample_is_read_back (now : Clock.datetime)
    (process_info : @ProcessInfo real) db :
  let ts := Clock.isoformat now in
  let db' := insert_process_info json_dumps now process_info db in
  get_process_data json_loads db' (Some (pid process_info)) None (Some ts) (Some ts)
  = [to_data json_loads (values json_dumps ts process_info (processes_seq db'))] ∧
  processes_seq db < processes_seq db'.
Proof.
  intros ts db'. split.
  - apply read_back_after_write.
  - subst db'. unfold insert_process_info, insert_or_replace. simpl. lia.
Qed.

(** *** The system table *)

#[local] Instance system_timestamp_le_trans : Transitive (@system_timestamp_le real).
Proof. intros r1 r2 r3. unfold system_timestamp_le. apply transitivity. Qed.

#[local] Instance system_timestamp_le_total : Total (@system_timestamp_le real).
Proof. intros r1 r2. unfold system_timestamp_le. apply total, _. Qed.

(** X9. [get_system_data] returns exactly the stored system rows that lie
    in the period asked for, ascending in the timestamp; a bound that is
    absent or the empty text is no bound. *)
Theorem system_query_filtering (tb : @system_table real)
    (start_time end_time : option string) :
  let result := get_system_data json_loads tb start_time end_time in
  (∀ d, d ∈ result ↔
     ∃ r, r ∈ system_info tb ∧ d = to_system_data json_loads r ∧
          (∀ T, start_time = Some T → T ≠ "" → String.le T (srow_timestamp r)) ∧
          (∀ T, end_time = Some T → T ≠ "" → String.le (srow_timestamp r) T)) ∧
  StronglySorted String.le (sdata_timestamp <$> result) ∧
  (length result ≤ length (system_info tb))%nat.
Proof.
  intros result. subst result. unfold get_system_data. split_and!.
  - intros d. rewrite list_elem_of_fmap.
    assert (Hw : ∀ r : @system_row real, system_where start_time end_time r ↔
              (∀ T, start_time = Some T → T ≠ "" → String.le T (srow_timestamp r)) ∧
              (∀ T, end_time = Some T → T ≠ "" → String.le (srow_timestamp r) T)).
    { intros r. unfold system_where.
      destruct start_time as [[|c S]|], end_time as [[|c' E]|]; simpl;
        split; try (intros [H1 H2]; split; try done);
        try (intros T [= <-] HT; done); try (by apply H1); try (by apply H2). }
    split.
    + intros (r & -> & Hr). rewrite merge_sort_Permutation in Hr.
      apply list_elem_of_filter in Hr as [Hr Hin]. exists r.
      apply Hw in Hr as [? ?]. done.
    + intros (r & Hin & -> & H1 & H2). exists r. split; [done |].
      rewrite merge_sort_Permutation. apply list_elem_of_filter.
      split; [by apply Hw | done].
  - rewrite <- list_fmap_compose.
    apply (StronglySorted_fmap _ system_timestamp_le); [by intros r1 r2 |].
    apply StronglySorted_merge_sort; apply _.
  - rewrite length_fmap, merge_sort_Permutation. apply length_filter.
Qed.

End RestFacts.

(** *** Concrete runs *)

Lemma tree_entry_loads_rows_witness :
  let loads := λ _ : string, @None (@json Z) in
  let row ts name := mk_process_row 1 ts 4242 name None None None None None in
  let db := {| processes := [row "2025-01-01T12:00:00" "chrome";
                             row "2025-03-01T12:00:00" "bash"];
               processes_seq := 2 |} in
  let tb := {| system_info := []; system_info_seq := 0 |} in
  ("chrome", 4242) ∈ tree_entries db ∧
  ∃ l, load_process_data loads db tb "chrome" 4242 = Some l ∧
       loaded_process l ≠ [] ∧ loaded_name l = "chrome" ∧ loaded_pid l = 4242 ∧
       loaded_system l = get_system_data loads tb None None ∧
       ∀ d, d ∈ loaded_process l
            ↔ ∃ r, r ∈ processes db ∧ row_pid r = 4242 ∧ d = to_data loads r.
Proof.
  intros loads row db tb.
  assert (H : ("chrome", 4242) ∈ tree_entries db).
  { vm_compute. right. left. }
  split; [exact H |].
  exact (tree_entry_loads_rows loads db tb "chrome" 4242 H).
Defined.

End DBRestFacts.

(** ** The column [extra_metrics], written and read *)

Module MetricsFacts.
Import DB DBRest.
Local Open Scope Z_scope.
Local Open Scope list_scope.

Section RoundTrip.

Context {real : Type}.
Variable json_dumps : @json real → string.
Variable json_loads : string → option (@json real).


End RoundTrip.

(** *** Concrete runs *)



End MetricsFacts.

(** ** The configuration document *)

Module ConfigDocFacts.
Import DB ConfigDoc.
Local Open Scope list_scope.

(** *** Saving *)

Section Saving.

Import Config.

Lemma string_app_snoc (s : string) (c : ascii) (t : string) :
  ((s ++ String c "") ++ t)%string = (s ++ String c t)%string.
Proof.
  induction s as [|a s IH]; [done |].
  change (String a ((s ++ String c "") ++ t) = String a (s ++ String c t))%string.
  by f_equal.
Qed.

(** The loop of [json.dump]: the characters reach the file in order. *)
Lemma write_chars (tp : string) (chars : list ascii) (fs : filesystem) (s : string) :
  files fs !! tp = Some s →
  let fs' := foldl (λ s f, f s) fs (write_char tp <$> chars) in
  files fs' !! tp = Some (s ++ string_of_list_ascii chars)%string ∧
  (∀ q, q ≠ tp → files fs' !! q = files fs !! q) ∧
  dirs fs' = dirs fs.
Proof.
  revert fs s. induction chars as [|c chars IH]; intros fs s Hs.
  - cbn. split_and!; [| done | done].
    rewrite Hs. f_equal. clear. induction s as [|a s IH]; [done |].
    change (String a s = String a (s ++ ""))%string. by f_equal.
  - rewrite fmap_cons. cbn [foldl].
    destruct (IH (write_char tp c fs) (s ++ String c "")%string) as (H1 & H2 & H3).
    { cbn. by rewrite lookup_alter_eq, Hs. }
    cbv zeta. split_and!.
    + rewrite H1. cbn [string_of_list_ascii]. by rewrite string_app_snoc.
    + intros q Hq. rewrite H2 by done. cbn. by rewrite lookup_alter_ne.
    + by rewrite H3.
Qed.

(** The file system a [save_config] leaves when nothing fails. *)
Lemma save_config_files (p : path) (doc : string) (fs : filesystem) :
  let fs' := save_config p doc fs in
  files fs' !! full p = Some doc ∧
  files fs' !! temp_path p = None ∧
  (∀ q, q ≠ full p → q ≠ temp_path p → files fs' !! q = files fs !! q) ∧
  dirs fs' = {[parent p]} ∪ dirs fs.
Proof.
  pose proof (ConfigFacts.temp_path_ne p) as Hne.
  unfold save_config, save_config_effects.
  rewrite !foldl_app. cbn [foldl].
  set (fs1 := if bool_decide (parent p ∈ dirs fs) then fs else mkdir (parent p) fs).
  assert (Hf1 : files fs1 = files fs) by (subst fs1; by destruct (bool_decide _)).
  assert (Hd1 : dirs fs1 = {[parent p]} ∪ dirs fs).
  { subst fs1.
    destruct (bool_decide_reflect (parent p ∈ dirs fs)) as [Hin|Hin]; [| done].
    symmetry. apply subseteq_union_1_L. by apply singleton_subseteq_l. }
  destruct (write_chars (temp_path p) (list_ascii_of_string doc)
              (open_w (temp_path p) fs1) "") as (H1 & H2 & H3).
  { cbn. apply lookup_insert_eq. }
  cbv zeta in H1, H2, H3. rewrite string_of_list_ascii_of_string in H1.
  set (fs3 := foldl (λ s f, f s) (open_w (temp_path p) fs1)
                (write_char (temp_path p) <$> list_ascii_of_string doc)) in *.
  set (fs4 := if exists_file (full p) fs3 then unlink (full p) fs3 else fs3).
  assert (H4 : files fs4 !! temp_path p = Some doc ∧
               (∀ q, q ≠ full p → files fs4 !! q = files fs3 !! q) ∧
               dirs fs4 = dirs fs3).
  { subst fs4. destruct (exists_file (full p) fs3); [| done]. cbn.
    split_and!; [| | done].
    - by rewrite lookup_delete_ne.
    - intros q Hq. by rewrite lookup_delete_ne. }
  destruct H4 as (H4 & H5 & H6). cbv zeta. unfold move. rewrite H4. cbn.
  split_and!.
  - apply lookup_insert_eq.
  - rewrite lookup_insert_ne by done. apply lookup_delete_eq.
  - intros q Hq1 Hq2.
    rewrite lookup_insert_ne, lookup_delete_ne, H5, H2 by done.
    cbn. rewrite lookup_insert_ne by done. by rewrite Hf1.
  - by rewrite H6, H3.
Qed.

(** X13. A [save_config] that runs to its end leaves the document under
    the configuration path and no temporary file; every other file is as it
    was, and the directory of the configuration file exists. A second save
    leaves the files as if it had been the only one: the last document
    wins, and nothing of the first is left. *)
Theorem save_config_result (p : path) (doc : string) (fs : filesystem) :
  let fs' := save_config p doc fs in
  files fs' !! full p = Some doc ∧
  files fs' !! temp_path p = None ∧
  (∀ q, q ≠ full p → q ≠ temp_path p → files fs' !! q = files fs !! q) ∧
  dirs fs' = {[parent p]} ∪ dirs fs ∧
  (∀ doc', files (save_config p doc' fs') = files (save_config p doc' fs)).
Proof.
  intros fs'. destruct (save_config_files p doc fs) as (H1 & H2 & H3 & H4).
  fold fs' in H1, H2, H3, H4. split_and!; [done .. |].
  intros doc'. apply map_eq. intros q.
  destruct (save_config_files p doc' fs') as (H1' & H2' & H3' & _).
  destruct (save_config_files p doc' fs) as (H1'' & H2'' & H3'' & _).
  cbv zeta in *.
  destruct (decide (q = full p)) as [->|Hq1]; [congruence |].
  destruct (decide (q = temp_path p)) as [->|Hq2]; [congruence |].
  rewrite H3', H3'' by done. by apply H3.
Qed.

End Saving.

Section DocumentFacts.

Context {real : Type}.

Local Abbreviation dict := (list (string * @json real)).

Implicit Types (d default current result : dict) (key k : string)
  (v value : @json real).

(** *** Dicts *)

Lemma dict_get_set key k v d :
  dict_get key (dict_set k v d) = if decide (k = key) then Some v else dict_get key d.
Proof.
  induction d as [|[k' v'] d IH]; simpl.
  - destruct (decide (k = key)); done.
  - destruct (decide (k' = k)) as [->|Hk]; simpl.
    + destruct (decide (k = key)); done.
    + destruct (decide (k' = key)) as [->|Hk'].
      * by rewrite decide_False by done.
      * done.
Qed.

Lemma dict_get_None key d : dict_get key d = None ↔ key ∉ d.*1.
Proof.
  induction d as [|[k' v'] d IH]; simpl.
  - split; [intros _; apply not_elem_of_nil | done].
  - rewrite not_elem_of_cons. destruct (decide (k' = key)) as [->|Hk].
    + split; [done | by intros [? _]].
    + rewrite IH. split; [done | by intros [_ ?]].
Qed.

Lemma dict_get_is_Some key d : is_Some (dict_get key d) ↔ key ∈ d.*1.
Proof.
  rewrite <- not_eq_None_Some, dict_get_None.
  destruct (decide (key ∈ d.*1)); tauto.
Qed.

Lemma dict_set_keys key v d :
  (dict_set key v d).*1 = if decide (key ∈ d.*1) then d.*1 else d.*1 ++ [key].
Proof.
  induction d as [|[k' v'] d IH].
  - destruct (decide (key ∈ [])) as [[]%not_elem_of_nil|]; done.
  - cbn [dict_set]. rewrite fmap_cons. cbn [fst].
    destruct (decide (k' = key)) as [->|Hk].
    + rewrite decide_True by left. done.
    + rewrite fmap_cons, IH. cbn [fst].
      destruct (decide (key ∈ d.*1)) as [Hin|Hin].
      * rewrite decide_True by by right. done.
      * rewrite decide_False; [done |]. rewrite not_elem_of_cons. done.
Qed.

Lemma dict_set_get_id key v d : dict_get key d = Some v → dict_set key v d = d.
Proof.
  induction d as [|[k' v'] d IH]; simpl; [done |].
  destruct (decide (k' = key)) as [->|Hk]; [by intros [= ->] |].
  intros H. by rewrite IH.
Qed.

(** Two dicts with the same keys, in the same order and each once, and the
    same value under every key are the same dict. *)
Lemma dict_ext d1 d2 :
  NoDup d1.*1 → d1.*1 = d2.*1 → (∀ key, dict_get key d1 = dict_get key d2) →
  d1 = d2.
Proof.
  revert d2. induction d1 as [|[k1 v1] d1 IH]; intros [|[k2 v2] d2];
    try done.
  rewrite !fmap_cons. cbn [fst].
  intros [Hnin Hnd]%NoDup_cons [= <- Hkeys] Hget. f_equal.
  - pose proof (Hget k1) as H. cbn [dict_get] in H.
    rewrite !decide_True in H by done. congruence.
  - apply IH; [done | done |]. intros key. pose proof (Hget key) as H.
    cbn [dict_get] in H.
    destruct (decide (k1 = key)) as [<-|Hk]; [| done].
    transitivity (@None (@json real)); [| symmetry].
    + by apply dict_get_None.
    + apply dict_get_None. by rewrite <- Hkeys.
Qed.

(** *** Merging the defaults *)

(** [merge_dict] is the loop of the source. *)
Lemma merge_dict_loop default current :
  merge_dict default current = foldl merge_step default current.
Proof.
  unfold merge_dict. simpl. revert default.
  induction current as [|[key value] items IH]; intros result; [done |].
  simpl. rewrite <- IH. f_equal. unfold merge_step, merged. simpl.
  destruct (dict_get key result) as [[]|]; try done. by destruct value.
Qed.

Lemma merge_loop_get key result items :
  NoDup items.*1 →
  dict_get key (foldl merge_step result items)
  = match dict_get key items with
    | Some value => Some (merged (dict_get key result) value)
    | None => dict_get key result
    end.
Proof.
  revert result. induction items as [|[k v] items IH]; intros result; [done |].
  cbn [foldl dict_get]. rewrite fmap_cons. cbn [fst].
  intros [Hnin Hnd]%NoDup_cons. rewrite IH by done.
  unfold merge_step. cbn [fst snd]. rewrite !dict_get_set.
  destruct (decide (k = key)) as [->|Hk]; [| done].
  apply dict_get_None in Hnin. rewrite Hnin. done.
Qed.

Lemma merge_loop_keys result items :
  NoDup items.*1 →
  (foldl merge_step result items).*1
  = result.*1 ++ filter (λ k, k ∉ result.*1) items.*1.
Proof.
  revert result. induction items as [|[k v] items IH]; intros result.
  - simpl. by rewrite app_nil_r.
  - simpl. intros [Hnin Hnd]%NoDup_cons. rewrite IH by done.
    unfold merge_step. simpl. rewrite dict_set_keys, filter_cons.
    destruct (decide (k ∈ result.*1)) as [Hin|Hin].
    + rewrite decide_False by tauto. done.
    + rewrite decide_True by done. rewrite <- app_assoc. simpl. do 2 f_equal.
      apply RefreshFacts.filter_ext_in. intros k' Hk'.
      rewrite elem_of_app, list_elem_of_singleton.
      assert (k' ≠ k) by (intros ->; done). tauto.
Qed.



(** X10. [_merge_defaults]: under a key of the file the merged document
    holds the file's value, merged in turn with the default when both are
    dicts; under any other key it holds the default. Its keys are those of
    the defaults, in their order, and after them the keys only the file
    has, in the order of the file. *)
Theorem merge_defaults_lookup default current :
  NoDup current.*1 →
  (∀ key,
     dict_get key (merge_dict default current)
     = match dict_get key current with
       | Some value =>
           Some match dict_get key default, value with
                | Some (JDict d), JDict c => JDict (merge_dict d c)
                | _, _ => value
                end
       | None => dict_get key default
       end) ∧
  (merge_dict default current).*1
  = default.*1 ++ filter (λ k, k ∉ default.*1) current.*1.
Proof.
  intros Hnd. rewrite merge_dict_loop. split.
  - intros key. by rewrite merge_loop_get.
  - by apply merge_loop_keys.
Qed.

(** *** [get] and [set] *)

Lemma set_path_fresh (keys : list string) value :
  keys ≠ [] → ∃ c', set_path keys value (JDict []) = Done c'.
Proof.
  induction keys as [|k keys IH]; [done |]. intros _.
  destruct keys as [|k2 keys]; [by eexists |].
  destruct IH as [c' Hc']; [done |].
  cbn [set_path]. cbn [set_path] in Hc'.
  assert (dict_mem k ([] : dict) = false) as -> by done.
  cbn [dict_set dict_get]. rewrite decide_True by done. rewrite Hc'.
  by eexists.
Qed.

Lemma get_path_fresh (keys : list string) :
  keys ≠ [] → get_path keys (JDict ([] : dict)) = None.
Proof. by destruct keys. Qed.

Lemma get_path_cons k (keys : list string) d :
  get_path (k :: keys) (JDict d)
  = match dict_get k d with Some v => get_path keys v | None => None end.
Proof. done. Qed.

(** What [set_path] does on a path of two keys or more. *)
Lemma set_path_cons k k2 (keys : list string) value config :
  set_path (k :: k2 :: keys) value config
  = match config with
    | JDict d =>
        let d := if dict_mem k d then d else dict_set k (JDict []) d in
        match dict_get k d with
        | Some sub =>
            match set_path (k2 :: keys) value sub with
            | Done sub => Done (JDict (dict_set k sub d))
            | Raised sub => Raised (JDict (dict_set k sub d))
            end
        | None => Raised (JDict d)
        end
    | _ => Raised config
    end.
Proof. done. Qed.

(** The dict [set_path] walks into under [k], and the dict it is in. *)
Lemma set_path_descend k d :
  let d' := if dict_mem k d then d else dict_set k (JDict []) d in
  ∃ sub, dict_get k d' = Some sub ∧
         (∀ k', k' ≠ k → dict_get k' d' = dict_get k' d) ∧
         (dict_get k d = Some sub ∧ d' = d ∨
          dict_get k d = None ∧ sub = JDict []).
Proof.
  intros d'. subst d'. unfold dict_mem.
  destruct (dict_get k d) as [sub|] eqn:Hk.
  - rewrite bool_decide_true by done. exists sub. rewrite Hk. split_and!; auto.
  - rewrite bool_decide_false by (by intros []). exists (JDict []).
    split_and!; [| | by right].
    + rewrite dict_get_set. by rewrite decide_True.
    + intros k' Hk'. rewrite dict_get_set. by rewrite decide_False.
Qed.

Lemma set_path_Raised (keys : list string) value config c' :
  set_path keys value config = Raised c' → c' = config.
Proof.
  revert config c'. induction keys as [|k keys IH]; intros config c'.
  - by intros [= <-].
  - destruct keys as [|k2 keys].
    + destruct config; by intros [= <-].
    + rewrite set_path_cons. destruct config as [| | | | | |d]; try by intros [= <-].
      cbv zeta. destruct (set_path_descend k d) as (sub & Hsub & _ & Hcase).
      cbv zeta in Hsub, Hcase. rewrite Hsub.
      destruct (set_path (k2 :: keys) value sub) as [sub'|sub'] eqn:Hset; [done |].
      intros [= <-]. destruct Hcase as [[Hk ->]|[Hk ->]].
      * apply IH in Hset as ->. by rewrite dict_set_get_id.
      * destruct (set_path_fresh (k2 :: keys) value) as [c'' Hc'']; [done |].
        congruence.
Qed.

Lemma set_path_get_path (keys : list string) value config c' :
  set_path keys value config = Done c' → get_path keys c' = Some value.
Proof.
  revert config c'. induction keys as [|k keys IH]; intros config c'; [done |].
  destruct keys as [|k2 keys].
  - destruct config as [| | | | | |d]; try done. intros [= <-].
    rewrite get_path_cons, dict_get_set, decide_True by done. done.
  - rewrite set_path_cons. destruct config as [| | | | | |d]; try done.
    cbv zeta. destruct (set_path_descend k d) as (sub & Hsub & _ & _).
    cbv zeta in Hsub. rewrite Hsub.
    destruct (set_path (k2 :: keys) value sub) as [sub'|sub'] eqn:Hset; [| done].
    intros [= <-]. apply IH in Hset.
    rewrite get_path_cons, dict_get_set, decide_True by done. done.
Qed.

Lemma set_path_other (p : list string) k k' (r r' : list string) value config c' :
  k ≠ k' →
  set_path (p ++ k :: r) value config = Done c' →
  get_path (p ++ k' :: r') c' = get_path (p ++ k' :: r') config.
Proof.
  intros Hk. revert config c'. induction p as [|a p IH]; intros config c'.
  - cbn [app]. destruct r as [|k2 r].
    + destruct config as [| | | | | |d]; try done. intros [= <-].
      rewrite !get_path_cons, dict_get_set, decide_False by done. done.
    + rewrite set_path_cons. destruct config as [| | | | | |d]; try done.
      cbv zeta. destruct (set_path_descend k d) as (sub & Hsub & Hother & _).
      cbv zeta in Hsub, Hother. rewrite Hsub.
      destruct (set_path (k2 :: r) value sub) as [sub'|sub']; [| done].
      intros [= <-]. rewrite !get_path_cons.
      rewrite dict_get_set, decide_False by done. by rewrite Hother.
  - cbn [app]. destruct (p ++ k :: r) as [|k2 tail] eqn:Htail.
    { by destruct p. }
    rewrite set_path_cons. destruct config as [| | | | | |d]; try done.
    cbv zeta. destruct (set_path_descend a d) as (sub & Hsub & _ & Hcase).
    cbv zeta in Hsub, Hcase. rewrite Hsub.
    destruct (set_path (k2 :: tail) value sub) as [sub'|sub'] eqn:Hset; [| done].
    intros [= <-]. apply IH in Hset. rewrite !get_path_cons.
    rewrite dict_get_set, decide_True by done. rewrite Hset.
    destruct Hcase as [[Ha _]|[Ha ->]]; rewrite Ha; [done |].
    apply get_path_fresh. by destruct p.
Qed.

(** X11. [get] after [set]: when [set(key, value)] returns, [get(key)] is
    [value], for a plain key and for a dotted one alike; when it raises,
    because a value on the way is no dict, it has changed nothing. *)
Theorem set_then_get (config : @json real) (key : string) value :
  match set config key value with
  | Done c' => ∀ default : @json real, get c' key default = value
  | Raised c' => c' = config
  end.
Proof.
  unfold set, get.
  destruct (set_path (split "." key) value config) as [c'|c'] eqn:Hset.
  - intros default. by rewrite (set_path_get_path _ _ _ _ Hset).
  - by apply set_path_Raised in Hset.
Qed.

(** X12. [set] leaves the other keys alone: a key whose parts part ways
    with those of the key that was set reads as it did before. *)
Theorem set_leaves_other_keys (config c' : @json real) (key key' : string) value
    (p : list string) (k k' : string) (r r' : list string) :
  split "." key = p ++ k :: r → split "." key' = p ++ k' :: r' → k ≠ k' →
  set config key value = Done c' →
  ∀ default : @json real, get c' key' default = get config key' default.
Proof.
  unfold set, get. intros -> -> Hk Hset default.
  by rewrite (set_path_other p k k' r r' value config c' Hk Hset).
Qed.

(** *** Merging twice *)

Lemma well_formed_dict d :
  well_formed (JDict d) ↔ NoDup d.*1 ∧ Forall (λ kv, well_formed kv.2) d.
Proof.
  cbn [well_formed]. apply and_iff_compat_l.
  induction d as [|[k v] d IH]; [by split; [constructor |] |].
  rewrite Forall_cons, IH. done.
Qed.

Lemma dict_get_elem_of key d v : dict_get key d = Some v → (key, v) ∈ d.
Proof.
  induction d as [|[k' v'] d IH]; [done |]. cbn [dict_get].
  destruct (decide (k' = key)) as [->|Hk].
  - intros [= ->]. left.
  - intros H. right. by apply IH.
Qed.

Lemma depth_elem_of key d v : (key, v) ∈ d → (depth v < depth (JDict d))%nat.
Proof.
  cbn [depth]. induction d as [|[k' v'] d IH]; [by intros ?%elem_of_nil |].
  intros [[= <- <-]|Hin]%elem_of_cons; [lia |]. specialize (IH Hin). lia.
Qed.

(** A dict of the document, below a key of a well-formed dict. *)
Lemma well_formed_get key d x :
  well_formed (JDict d) → dict_get key d = Some (JDict x) →
  well_formed (JDict x) ∧ (depth (JDict x) < depth (JDict d))%nat.
Proof.
  intros [_ Hall]%well_formed_dict Hget%dict_get_elem_of. split.
  - rewrite Forall_forall in Hall. apply (Hall _ Hget).
  - by eapply depth_elem_of.
Qed.

Lemma filter_not_in_self (l : list string) : filter (λ k, k ∉ l) l = [].
Proof.
  assert (∀ l', l' ⊆ l → filter (λ k, k ∉ l) l' = []) as H; [| by apply H].
  induction l' as [|x l' IH]; [done |]. intros Hsub.
  rewrite filter_cons, decide_False, IH; [done | |].
  - intros y Hy. apply Hsub. by right.
  - intros Hx. apply Hx, Hsub. left.
Qed.

Lemma merge_dict_keys_NoDup default current :
  NoDup default.*1 → NoDup current.*1 → NoDup (merge_dict default current).*1.
Proof.
  intros Hd Hc. rewrite merge_dict_loop, merge_loop_keys by done.
  apply NoDup_app. split_and!; [done | | by apply NoDup_filter].
  intros k Hk [Hn _]%list_elem_of_filter. done.
Qed.

Lemma merge_dict_self (n : nat) d :
  (depth (JDict d) ≤ n)%nat → well_formed (JDict d) → merge_dict d d = d.
Proof.
  revert d. induction n as [|n IH]; intros d Hn Hwf; [cbn in Hn; lia |].
  pose proof Hwf as [Hnd _]%well_formed_dict.
  assert (Hkeys : (merge_dict d d).*1 = d.*1).
  { rewrite merge_dict_loop, merge_loop_keys, filter_not_in_self by done.
    apply app_nil_r. }
  apply dict_ext; [by rewrite Hkeys | done |].
  intros key. rewrite merge_dict_loop, merge_loop_get by done.
  destruct (dict_get key d) as [v|] eqn:Hget; [| done].
  destruct v as [| | | | | |x]; try done.
  destruct (well_formed_get key d x Hwf Hget). cbn [merged].
  rewrite IH; [done | lia | done].
Qed.

Lemma merge_dict_twice (n : nat) default current :
  (depth (JDict current) ≤ n)%nat →
  well_formed (JDict default) → well_formed (JDict current) →
  merge_dict default (merge_dict default current) = merge_dict default current.
Proof.
  revert default current.
  induction n as [|n IH]; intros d c Hn Hd Hc; [cbn in Hn; lia |].
  pose proof Hd as [Hnd _]%well_formed_dict.
  pose proof Hc as [Hnc _]%well_formed_dict.
  pose proof (merge_dict_keys_NoDup d c Hnd Hnc) as Hnm.
  symmetry. apply dict_ext; [done | |].
  - rewrite (merge_dict_loop d (merge_dict d c)), merge_loop_keys by done.
    rewrite merge_dict_loop, merge_loop_keys by done.
    rewrite filter_app, filter_not_in_self, list_filter_filter. cbn [app].
    f_equal. apply RefreshFacts.filter_ext_in. tauto.
  - intros key.
    rewrite (merge_dict_loop d (merge_dict d c)), merge_loop_get by done.
    rewrite merge_dict_loop, merge_loop_get by done.
    destruct (dict_get key c) as [v0|] eqn:Hc0.
    + f_equal. destruct (dict_get key d) as [[| | | | | |dd]|] eqn:Hd0; try done.
      destruct v0 as [| | | | | |c0]; try done.
      destruct (well_formed_get key d dd Hd Hd0) as [Hwd _].
      destruct (well_formed_get key c c0 Hc Hc0) as [Hwc Hlt].
      cbn [merged]. rewrite IH; [done | lia | done | done].
    + destruct (dict_get key d) as [[| | | | | |dd]|] eqn:Hd0; try done.
      destruct (well_formed_get key d dd Hd Hd0) as [Hwd _].
      cbn [merged]. by rewrite (merge_dict_self (depth (JDict dd))).
Qed.

(** X14. [_merge_defaults] is idempotent: a document that was merged with
    the defaults is left as it is by a second merge, keys, order and
    values; and the defaults merged with themselves are the defaults. *)
Theorem merge_defaults_idempotent default current :
  well_formed (JDict default) → well_formed (JDict current) →
  merge_dict default (merge_dict default current) = merge_dict default current ∧
  merge_dict default default = default.
Proof.
  intros Hd Hc. split.
  - by apply (merge_dict_twice (depth (JDict current))).
  - by apply (merge_dict_self (depth (JDict default))).
Qed.

End DocumentFacts.

(** *** Loading *)

Section LoadingFacts.

Context {real : Type}.
Variable json_dumps : @json real → string.
Variable json_loads : string → option (@json real).

Local Abbreviation dict := (list (string * @json real)).

Implicit Types (d default current result : dict) (key k : string)
  (v value : @json real).


(** *** Saving the window, and starting again *)







End LoadingFacts.

(** *** Concrete runs *)

Lemma merge_defaults_lookup_witness :
  let current : list (string * @json Z) :=
    [ ("record_interval", JInt 10);
      ("ui", JDict [("window_width", JInt 1600)]);
      ("theme", JStr "dark") ] in
  NoDup current.*1 ∧
  (∀ key,
     dict_get key (merge_dict DEFAULT_CONFIG current)
     = match dict_get key current with
       | Some value =>
           Some match dict_get key DEFAULT_CONFIG, value with
                | Some (JDict d), JDict c => JDict (merge_dict d c)
                | _, _ => value
                end
       | None => dict_get key DEFAULT_CONFIG
       end) ∧
  (merge_dict DEFAULT_CONFIG current).*1
  = ["output_dir"; "record_interval"; "monitored_processes"; "monitor_by_pid";
     "ui"; "theme"].
Proof.
  intros current.
  assert (H : NoDup current.*1) by (apply (bool_decide_unpack _); vm_compute; exact I).
  split; [exact H |].
  exact (merge_defaults_lookup DEFAULT_CONFIG current H).
Defined.

Lemma set_leaves_other_keys_witness :
  let config : @json Z := JDict DEFAULT_CONFIG in
  let c' := JDict
    [ ("output_dir", JStr "D:\system_performance_record");
      ("record_interval", JInt 5);
      ("monitored_processes", JList []);
      ("monitor_by_pid", JDict []);
      ("ui", JDict [("window_width", JInt 1600); ("window_height", JInt 800)]) ] in
  split "." "ui.window_width" = ["ui"] ++ "window_width" :: [] ∧
  split "." "ui.window_height" = ["ui"] ++ "window_height" :: [] ∧
  "window_width" ≠ "window_height" ∧
  set config "ui.window_width" (JInt 1600) = Done c' ∧
  ∀ default : @json Z,
    get c' "ui.window_height" default = get config "ui.window_height" default.
Proof.
  intros config c'.
  assert (H1 : split "." "ui.window_width" = ["ui"] ++ "window_width" :: [])
    by reflexivity.
  assert (H2 : split "." "ui.window_height" = ["ui"] ++ "window_height" :: [])
    by reflexivity.
  assert (H3 : "window_width" ≠ "window_height") by discriminate.
  assert (H4 : set config "ui.window_width" (JInt 1600) = Done c') by reflexivity.
  split_and!; [exact H1 | exact H2 | exact H3 | exact H4 |].
  exact (set_leaves_other_keys config c' "ui.window_width" "ui.window_height"
           (JInt 1600) ["ui"] "window_width" "window_height" [] [] H1 H2 H3 H4).
Defined.

Lemma merge_defaults_idempotent_witness :
  let current : list (string * @json Z) :=
    [ ("record_interval", JInt 10);
      ("ui", JDict [("window_width", JInt 1600)]);
      ("theme", JStr "dark") ] in
  well_formed (JDict (@DEFAULT_CONFIG Z)) ∧ well_formed (JDict current) ∧
  merge_dict DEFAULT_CONFIG (merge_dict DEFAULT_CONFIG current)
  = merge_dict DEFAULT_CONFIG current ∧
  merge_dict DEFAULT_CONFIG DEFAULT_CONFIG = @DEFAULT_CONFIG Z.
Proof.
  intros current.
  assert (Hd : well_formed (JDict (@DEFAULT_CONFIG Z))).
  { cbn [well_formed DEFAULT_CONFIG].
    repeat split; apply (bool_decide_unpack _); vm_compute; exact I. }
  assert (Hc : well_formed (JDict current)).
  { cbn [well_formed]. subst current.
    repeat split; apply (bool_decide_unpack _); vm_compute; exact I. }
  split; [exact Hd |]. split; [exact Hc |].
  exact (merge_defaults_idempotent DEFAULT_CONFIG current Hd Hc).
Defined.


(** A configuration file that holds no JSON: the defaults replace it when
    the [print] of the handler returns, and nothing is touched when that
    raises. *)
Example load_config_unreadable :
  let dumps := λ _ : @json Z, "{...}" in
  let loads := λ _ : string, @None (@json Z) in
  let p := Config.mk_path "/etc/perf" "/etc/perf/config.json" in
  let fs := Config.mk_filesystem {["/etc/perf"]} {["/etc/perf/config.json" := "{oops"]} in
  load_config dumps loads true DEFAULT_CONFIG p fs
  = Some (DEFAULT_CONFIG,
          Config.mk_filesystem {["/etc/perf"]} {["/etc/perf/config.json" := "{...}"]}) ∧
  load_config dumps loads false DEFAULT_CONFIG p fs = None.
Proof. split; [| reflexivity]. vm_compute. reflexivity. Qed.

End ConfigDocFacts.

(** ** Working on the watch-list by selection *)

Module SelectionFacts.
Import Watch Selection.
Local Open Scope list_scope.

Implicit Types (t s : list string) (rows : list nat).

(** *** Removing the selected rows *)

#[local] Instance flip_le_trans : Transitive (flip Nat.le).
Proof. intros a b c. unfold flip. lia. Qed.

#[local] Instance flip_le_total : Total (flip Nat.le).
Proof. intros a b. unfold flip. lia. Qed.

Lemma rows_but_snoc rows t (x : string) :
  rows_but rows (t ++ [x])
  = rows_but rows t ++ if decide (length t ∈ rows) then [] else [x].
Proof.
  unfold rows_but. rewrite imap_app, filter_app, fmap_app. f_equal.
  cbn [imap]. rewrite Nat.add_0_r, filter_cons, filter_nil. cbn [fst].
  destruct (decide (length t ∈ rows)).
  - by rewrite decide_False by tauto.
  - by rewrite decide_True by done.
Qed.

Lemma rows_but_ext rows rows' t :
  (∀ i, (i < length t)%nat → i ∈ rows ↔ i ∈ rows') →
  rows_but rows t = rows_but rows' t.
Proof.
  intros H. unfold rows_but. f_equal. apply RefreshFacts.filter_ext_in.
  intros [i x] (j & y & [= <- <-] & Hy)%elem_of_lookup_imap. cbn [fst].
  apply lookup_lt_Some in Hy. specialize (H i Hy). tauto.
Qed.

Lemma delete_app_l (d : nat) t s :
  (d < length t)%nat → delete d (t ++ s) = delete d t ++ s.
Proof.
  intros Hd. rewrite !delete_take_drop.
  rewrite take_app_le, drop_app_le by lia. by rewrite <- (assoc_L (++)).
Qed.

(** Rows removed from the last to the first do not move the rows that are
    still to be removed. *)
Lemma delete_descending_app rows t s :
  StronglySorted (λ a b, (b < a)%nat) rows →
  Forall (λ row, (row < length t)%nat) rows →
  foldl (λ t row, delete row t) (t ++ s) rows
  = foldl (λ t row, delete row t) t rows ++ s.
Proof.
  intros Hsorted. revert t.
  induction Hsorted as [|d rows _ IH Hd]; intros t Hlt; [done |].
  apply Forall_cons in Hlt as [Hdt Hlt]. cbn [foldl].
  rewrite delete_app_l by done. apply IH.
  rewrite length_delete by (by apply lookup_lt_is_Some_2).
  rewrite Forall_forall in Hd |- *. intros row Hrow.
  specialize (Hd row Hrow). lia.
Qed.

Lemma delete_descending rows t :
  StronglySorted (λ a b, (b < a)%nat) rows →
  Forall (λ row, (row < length t)%nat) rows →
  foldl (λ t row, delete row t) t rows = rows_but rows t.
Proof.
  revert rows. induction t as [|x t IH] using rev_ind; intros rows Hsorted Hlt.
  - destruct rows as [|d rows]; [done |].
    apply Forall_cons in Hlt as [Hd _]. cbn in Hd. lia.
  - rewrite rows_but_snoc. rewrite length_app in Hlt. cbn [length] in Hlt.
    destruct (decide (length t ∈ rows)) as [Hin|Hin].
    + destruct rows as [|d rows]; [by apply elem_of_nil in Hin |].
      apply StronglySorted_inv in Hsorted as [Hsorted Hd].
      apply Forall_cons in Hlt as [Hdt Hlt].
      assert (d = length t) as ->.
      { apply elem_of_cons in Hin as [->|Hin]; [done |].
        rewrite Forall_forall in Hd. specialize (Hd _ Hin). lia. }
      assert (Forall (λ row, (row < length t)%nat) rows).
      { eapply Forall_impl; [exact Hd | done]. }
      cbn [foldl]. rewrite <- (app_nil_r (t ++ [x])) at 1.
      rewrite <- (assoc_L (++)). cbn [app].
      rewrite delete_middle, !app_nil_r, IH by done.
      apply rows_but_ext. intros i Hi. rewrite elem_of_cons.
      split; [tauto |]. intros [->|?]; [lia | done].
    + assert (Forall (λ row, (row < length t)%nat) rows).
      { rewrite Forall_forall in Hlt |- *. intros row Hrow.
        specialize (Hlt row Hrow).
        assert (row ≠ length t) by (by intros ->). lia. }
      rewrite delete_descending_app, IH by done. done.
Qed.

Section SelectedFacts.

Variable lower : string → string.

(** X17. [remove_selected_process] removes the selected rows and no other:
    what is left of the table are the rows whose number was not selected,
    in their order, so a table without two rows equal up to case stays
    one. *)
Theorem selected_rows_removed rows t :
  NoDup rows → Forall (λ row, (row < length t)%nat) rows →
  remove_selected_process rows t = rows_but rows t ∧
  (NoDup (lower <$> t) → NoDup (lower <$> remove_selected_process rows t)).
Proof.
  intros Hnd Hlt.
  assert (Heq : remove_selected_process rows t = rows_but rows t).
  { unfold remove_selected_process.
    destruct (decide (rows = [])) as [->|_].
    - unfold rows_but. induction t as [|x t IH] using rev_ind; [done |].
      rewrite imap_app, filter_app, fmap_app. cbn [imap].
      rewrite filter_cons, decide_True, filter_nil by apply not_elem_of_nil.
      cbn [fmap list_fmap snd]. by rewrite <- IH.
    - rewrite delete_descending.
      + apply rows_but_ext. intros i _. by rewrite merge_sort_Permutation.
      + eapply DBRestFacts.StronglySorted_weaken;
          [| apply DBRestFacts.StronglySorted_strict;
             [apply (StronglySorted_merge_sort (flip Nat.le)); apply _ |
              by rewrite merge_sort_Permutation]].
        intros a b [Hle Hne]. unfold flip in Hle. lia.
      + by rewrite merge_sort_Permutation. }
  rewrite Heq. split; [done |].
  intros Ht. eapply sublist_NoDup; [exact Ht |]. apply fmap_sublist.
  clear. induction t as [|x t IH] using rev_ind; [done |].
  rewrite rows_but_snoc. apply sublist_app; [done |].
  destruct (decide _); [apply sublist_nil_l | done].
Qed.

(** *** Adding the selected names *)

Lemma add_to_monitor_loop (selected : list string) t (n : nat) :
  foldl (λ acc name,
           let r := add_process_to_monitor_result lower name acc.1 in
           (r.1, if r.2 then S acc.2 else acc.2))
        (t, n) selected
  = let new := filter (λ y, lower y ∉ lower <$> t) (first_seen lower selected) in
    (t ++ new, (n + length new)%nat).
Proof.
  revert t n. induction selected as [|name selected IH]; intros t n.
  - cbn. by rewrite app_nil_r, Nat.add_0_r.
  - cbn [foldl first_seen]. rewrite filter_cons, IH. cbv zeta.
    unfold add_process_to_monitor_result. cbn [fst snd].
    destruct (already_monitored lower (lower name) t) eqn:Hmon; cbn [fst snd].
    + apply (WatchFacts.already_monitored_spec lower) in Hmon.
      rewrite decide_False by tauto. rewrite list_filter_filter.
      assert (filter (λ y, lower y ∉ lower <$> t) (first_seen lower selected)
              = filter (λ y, (lower y ∉ lower <$> t) ∧ lower y ≠ lower name)
                  (first_seen lower selected)) as <-; [| done].
      apply RefreshFacts.filter_ext_in. intros y _. split; [| tauto].
      intros Hy. split; [done |]. intros Heq. apply Hy. by rewrite Heq.
    + assert (lower name ∉ lower <$> t) as Hnew.
      { intros Hin%(WatchFacts.already_monitored_spec lower). congruence. }
      rewrite decide_True by done. rewrite list_filter_filter.
      assert (filter (λ y, lower y ∉ lower <$> t ++ [name])
                (first_seen lower selected)
              = filter (λ y, (lower y ∉ lower <$> t) ∧ lower y ≠ lower name)
                  (first_seen lower selected)) as ->.
      { apply RefreshFacts.filter_ext_in. intros y _.
        rewrite fmap_app, elem_of_app.
        change (lower <$> [name]) with [lower name].
        rewrite list_elem_of_singleton. tauto. }
      rewrite <- (assoc_L (++)). cbn [app length]. f_equal. lia.
Qed.

(** X18. [add_to_monitor] appends to the watch-list the selected names it
    does not have yet, each once and in the casing met first, and counts
    them: the table grows by [added_count] rows, the rows it had stay in
    front, every selected name is in it afterwards up to case, and no two
    rows equal up to case arise. *)
Theorem selected_names_added (selected : list string) t :
  let r := add_to_monitor lower selected t in
  r.1 = t ++ filter (λ y, lower y ∉ lower <$> t) (first_seen lower selected) ∧
  length r.1 = (length t + r.2)%nat ∧
  (∀ name, name ∈ selected → lower name ∈ lower <$> r.1) ∧
  (NoDup (lower <$> t) → NoDup (lower <$> r.1)) ∧
  r.1 = foldl (λ t name, add_process_to_monitor lower name t) t selected.
Proof.
  intros r. subst r. unfold add_to_monitor. rewrite add_to_monitor_loop.
  cbv zeta. cbn [fst snd]. split_and!.
  - done.
  - by rewrite length_app.
  - intros name Hin. rewrite fmap_app, elem_of_app.
    destruct (decide (lower name ∈ lower <$> t)) as [|Hn]; [by left |]. right.
    assert (lower name ∈ lower <$> first_seen lower selected)
      as (y & Hy & Hyin)%list_elem_of_fmap.
    { apply (RefreshFacts.elem_of_lower_first_seen lower).
      apply list_elem_of_fmap. by exists name. }
    apply list_elem_of_fmap. exists y. split; [done |].
    apply list_elem_of_filter. split; [by rewrite <- Hy | done].
  - intros Ht. rewrite fmap_app. apply NoDup_app. split_and!; [done | |].
    + intros k Hk (y & -> & [Hy _]%list_elem_of_filter)%list_elem_of_fmap. done.
    + eapply sublist_NoDup;
        [| apply fmap_sublist, sublist_filter].
      rewrite <- (WatchFacts.unique_processes_first_seen lower lower).
      apply (WatchFacts.unique_processes_NoDup lower lower).
  - revert t. induction selected as [|name selected IH]; intros t.
    + cbn. by rewrite app_nil_r.
    + cbn [foldl]. rewrite <- IH. unfold add_process_to_monitor.
      cbn [first_seen]. rewrite filter_cons, list_filter_filter.
      destruct (already_monitored lower (lower name) t) eqn:Hmon.
      * apply (WatchFacts.already_monitored_spec lower) in Hmon.
        rewrite decide_False by tauto. f_equal.
        apply RefreshFacts.filter_ext_in. intros y _. split; [tauto |].
        intros Hy. split; [done |]. intros Heq. apply Hy. by rewrite Heq.
      * assert (lower name ∉ lower <$> t) as Hnew.
        { intros Hin%(WatchFacts.already_monitored_spec lower).
          congruence. }
        rewrite decide_True by done. rewrite <- (assoc_L (++)). cbn [app].
        do 2 f_equal. apply RefreshFacts.filter_ext_in. intros y _.
        rewrite fmap_app, elem_of_app.
        change (lower <$> [name]) with [lower name].
        rewrite list_elem_of_singleton. tauto.
Qed.

End SelectedFacts.

(** *** Concrete runs *)

Lemma selected_rows_removed_witness :
  let t := ["chrome"; "code"; "idea"; "bash"; "python"] in
  let rows := [3; 0; 2]%nat in
  NoDup rows ∧ Forall (λ row, (row < length t)%nat) rows ∧
  remove_selected_process rows t = rows_but rows t ∧
  (NoDup (PyStr.lower <$> t) →
   NoDup (PyStr.lower <$> remove_selected_process rows t)).
Proof.
  intros t rows.
  assert (H1 : NoDup rows) by (apply (bool_decide_unpack _); vm_compute; exact I).
  assert (H2 : Forall (λ row, (row < length t)%nat) rows)
    by (repeat constructor).
  split; [exact H1 |]. split; [exact H2 |].
  exact (selected_rows_removed PyStr.lower rows t H1 H2).
Defined.

(** Rows 3, 0 and 2 of five go, in whatever order they were selected; two
    names of the running table are new to the watch-list, one is not. *)
Example remove_and_add :
  remove_selected_process [3; 0; 2]%nat ["chrome"; "code"; "idea"; "bash"; "python"]
  = ["code"; "python"] ∧
  add_to_monitor PyStr.lower ["Code"; "bash"; "BASH"; "vim"] ["code"; "python"]
  = (["code"; "python"; "bash"; "vim"], 2%nat).
Proof. split; vm_compute; reflexivity. Qed.

End SelectionFacts.

(** ** The running table from one refresh to the next *)

Module RefreshTableFacts.
Import Refresh.
Local Open Scope list_scope.

Lemma ltb_not_le (a b : string) : String.ltb a b = true ↔ ¬ String.le b a.
Proof.
  unfold String.le, String.leb, String.ltb.
  rewrite (String.compare_antisym b a).
  destruct (String.compare a b); cbn; split; try done; tauto.
Qed.

Lemma filter_none {A} (P : A → Prop) `{!∀ x, Decision (P x)} (l : list A) :
  (∀ x, ¬ P x) → filter P l = [].
Proof.
  intros Hnone. induction l as [|x l IH]; [done |].
  by rewrite filter_cons, decide_False.
Qed.

Lemma rows_where_none (P : string → Prop) `{!∀ x, Decision (P x)}
    (t : list string) :
  (∀ x, ¬ P x) → rows_where P t = [].
Proof.
  intros Hnone. unfold rows_where. rewrite filter_none; [done |].
  intros ir. apply Hnone.
Qed.

Section Settled.

Variable lower : string → string.

Implicit Types (t N : list string).

(** The rows of the table after the removals and the insertions. *)
Lemma update_rows_rows N t :
  (update_rows lower N t).1
  ≡ₚ filter (λ row, lower row ∈ lower <$> N) t
     ++ filter (λ name, lower name ∉ lower <$> t) (unique_names lower N).
Proof.
  unfold update_rows.
  set (unique := unique_names lower N).
  set (new_names := list_to_set (lower <$> unique) : gset string).
  assert (Hnew : ∀ k, k ∈ new_names ↔ k ∈ lower <$> N).
  { intros k. unfold new_names. rewrite elem_of_list_to_set.
    apply RefreshFacts.elem_of_lower_unique_names. }
  assert (Hcur : ∀ k, k ∈ current_names lower t ↔ k ∈ lower <$> t).
  { intros k. unfold current_names. apply elem_of_list_to_set. }
  match goal with
  | |- context [foldl (add_step lower ?S) ?acc ?names] =>
      destruct (RefreshFacts.foldl_add_step lower S names acc t) as (H1 & _)
  end.
  rewrite H1. cbn [fst]. rewrite (RefreshFacts.delete_rows lower).
  apply Permutation_app; apply reflexive_eq; apply RefreshFacts.filter_ext_in.
  - intros x Hx. rewrite elem_of_difference, Hnew, Hcur.
    assert (lower x ∈ lower <$> t) by (apply list_elem_of_fmap; by exists x).
    destruct (decide (lower x ∈ lower <$> N)); tauto.
  - intros x Hx. rewrite elem_of_difference, Hnew, Hcur. split; [tauto |].
    intros Hn. split; [| done]. apply RefreshFacts.elem_of_lower_unique_names.
    apply list_elem_of_fmap. by exists x.
Qed.

Lemma update_rows_names N t (k : string) :
  k ∈ lower <$> (update_rows lower N t).1 ↔ k ∈ lower <$> N.
Proof.
  rewrite update_rows_rows, fmap_app, elem_of_app. split.
  - intros [(x & -> & [Hx _]%list_elem_of_filter)%list_elem_of_fmap
           |(x & -> & [_ Hx]%list_elem_of_filter)%list_elem_of_fmap]; [done |].
    apply RefreshFacts.elem_of_lower_unique_names.
    apply list_elem_of_fmap. by exists x.
  - intros HN. destruct (decide (k ∈ lower <$> t)) as [Ht|Ht].
    + left. apply list_elem_of_fmap in Ht as (x & -> & Hx).
      apply list_elem_of_fmap. exists x.
      split; [done |]. by apply list_elem_of_filter.
    + right. apply RefreshFacts.elem_of_lower_unique_names in HN.
      apply list_elem_of_fmap in HN as (x & -> & Hx).
      apply list_elem_of_fmap. exists x.
      split; [done |]. by apply list_elem_of_filter.
Qed.

Lemma add_step_idle (names : list string) (acc : list string * list event) :
  foldl (add_step lower ∅) acc names = acc.
Proof.
  induction names as [|name names IH]; [done |]. cbn [foldl].
  unfold add_step at 2. by rewrite decide_False by apply not_elem_of_empty.
Qed.

(** A table that shows the live names, up to case, is left alone. *)
Lemma update_rows_settled N t :
  (∀ k, k ∈ lower <$> t ↔ k ∈ lower <$> N) → update_rows lower N t = (t, []).
Proof.
  intros Hnames.
  assert (Heq : current_names lower t
                = list_to_set (lower <$> unique_names lower N)).
  { apply set_eq. intros k. unfold current_names.
    rewrite !elem_of_list_to_set, Hnames.
    by rewrite RefreshFacts.elem_of_lower_unique_names. }
  unfold update_rows. cbv zeta. rewrite Heq, difference_diag_L.
  rewrite rows_where_none by (intros x; apply not_elem_of_empty).
  cbn [reverse rev_append foldl fmap list_fmap]. apply add_step_idle.
Qed.

(** The order Qt sorts the table in, when its sorting is enabled. *)
Context (qt_le : relation string) `{!RelDecision qt_le}.

Lemma set_sorting_enabled_Permutation (enable : bool) t :
  set_sorting_enabled qt_le enable t ≡ₚ t.
Proof. destruct enable; [apply merge_sort_Permutation | done]. Qed.

Lemma refresh_table_names (enable : bool) N t (k : string) :
  k ∈ lower <$> (refresh_table lower qt_le enable N t).1 ↔ k ∈ lower <$> N.
Proof.
  unfold refresh_table. cbn [fst].
  rewrite set_sorting_enabled_Permutation. apply update_rows_names.
Qed.

(** Sorting a second time changes nothing, when the order is one. *)
Lemma set_sorting_enabled_twice (enable : bool) t :
  enable = false ∨ (Transitive qt_le ∧ Total qt_le ∧ AntiSymm (=) qt_le) →
  set_sorting_enabled qt_le enable (set_sorting_enabled qt_le enable t)
  = set_sorting_enabled qt_le enable t.
Proof.
  intros [-> | (Htrans & Htotal & Hanti)]; [done |].
  destruct enable; [| done]. cbn [set_sorting_enabled].
  apply (StronglySorted_unique qt_le).
  - by apply StronglySorted_merge_sort.
  - by apply StronglySorted_merge_sort.
  - apply merge_sort_Permutation.
Qed.

(** X19. After a tick of the refresher the running table shows the live
    processes, up to case: a name is on a row exactly when a live process
    has it. A second tick with the same listing, the sorting of the table
    being as the first tick found and left it, then finds nothing to do:
    it removes no row and inserts none, and all it does to the table is
    to sort it once more when its sorting is enabled. That leaves the rows
    where they are when the sorting is disabled, and when the order the
    table is sorted in is a total order. *)
Theorem refresh_settles N t (print_returns was_sorting_enabled : bool) :
  ∃ r,
    refresh_running_processes lower qt_le false (Some (Some N))
      print_returns was_sorting_enabled t = Some r ∧
    (∀ k, k ∈ lower <$> r.1 ↔ k ∈ lower <$> N) ∧
    refresh_running_processes lower qt_le false (Some (Some N))
      print_returns was_sorting_enabled r.1
    = Some (set_sorting_enabled qt_le was_sorting_enabled r.1, []) ∧
    set_sorting_enabled qt_le was_sorting_enabled r.1 ≡ₚ r.1 ∧
    (was_sorting_enabled = false
     ∨ (Transitive qt_le ∧ Total qt_le ∧ AntiSymm (=) qt_le) →
     refresh_running_processes lower qt_le false (Some (Some N))
       print_returns was_sorting_enabled r.1 = Some (r.1, [])).
Proof.
  eexists. split; [done |].
  assert (Hsettled :
    update_rows lower N (refresh_table lower qt_le was_sorting_enabled N t).1
    = ((refresh_table lower qt_le was_sorting_enabled N t).1, [])).
  { apply update_rows_settled. intros k. apply refresh_table_names. }
  split_and!.
  - intros k. apply refresh_table_names.
  - cbn [refresh_running_processes]. unfold refresh_table at 1.
    by rewrite Hsettled.
  - apply set_sorting_enabled_Permutation.
  - intros Horder. cbn [refresh_running_processes]. unfold refresh_table at 1.
    rewrite Hsettled. cbn [fst snd]. unfold refresh_table. cbn [fst].
    by rewrite set_sorting_enabled_twice.
Qed.

(** *** The order of the rows *)

#[local] Instance lower_le_trans : Transitive (lower_le lower).
Proof. intros a b c. unfold lower_le. apply transitivity. Qed.

#[local] Instance lower_le_total : Total (lower_le lower).
Proof. intros a b. unfold lower_le. apply total, _. Qed.

Lemma insert_row_sorted (name : string) t :
  StronglySorted (lower_le lower) t →
  StronglySorted (lower_le lower)
    (take (insert_row lower name t) t ++ name :: drop (insert_row lower name t) t).
Proof.
  intros Hsorted. set (row := insert_row lower name t).
  pose proof Hsorted as Hsplit. rewrite <- (take_drop row t) in Hsplit.
  apply StronglySorted_app in Hsplit as (Hcross & Htake & Hdrop).
  assert (Hbefore : ∀ x, x ∈ take row t → lower_le lower x name).
  { intros x (j & Hj)%list_elem_of_lookup_1.
    pose proof (lookup_lt_Some _ _ _ Hj) as Hlt. rewrite length_take in Hlt.
    rewrite lookup_take_lt in Hj by lia.
    assert (¬ String.ltb (lower name) (lower x) = true) as Hn.
    { subst row. unfold insert_row in *.
      destruct (list_find _ t) as [[i text]|] eqn:Hfind.
      - apply list_find_Some in Hfind as (_ & _ & Hmin).
        apply (Hmin j x Hj). lia.
      - apply list_find_None in Hfind. rewrite Forall_forall in Hfind.
        apply Hfind. by eapply list_elem_of_lookup_2. }
    rewrite ltb_not_le in Hn. unfold lower_le.
    by destruct (decide (String.le (lower x) (lower name))). }
  assert (Hafter : Forall (lower_le lower name) (drop row t)).
  { subst row. unfold insert_row in *.
    destruct (list_find _ t) as [[i text]|] eqn:Hfind.
    - apply list_find_Some in Hfind as (Hi & Hlt%ltb_not_le & _).
      assert (lower_le lower name text) as Hle.
      { unfold lower_le.
        destruct (total String.le (lower name) (lower text)); done. }
      rewrite (drop_S _ _ _ Hi) in Hdrop |- *.
      apply StronglySorted_inv in Hdrop as [_ Hrest].
      constructor; [done |]. eapply Forall_impl; [exact Hrest |].
      intros y Hy. by etrans.
    - by rewrite drop_all. }
  apply StronglySorted_app_2; [| done | by constructor].
  intros x y Hx [->|Hy]%elem_of_cons; [by apply Hbefore | by apply Hcross].
Qed.

Lemma add_step_sorted (S : gset string) (names : list string)
    (acc : list string * list event) :
  StronglySorted (lower_le lower) acc.1 →
  StronglySorted (lower_le lower) (foldl (add_step lower S) acc names).1.
Proof.
  revert acc. induction names as [|name names IH]; intros acc Hacc; [done |].
  cbn [foldl]. apply IH. unfold add_step.
  destruct (decide (lower name ∈ S)); [| done]. cbn [fst].
  by apply insert_row_sorted.
Qed.

Lemma update_rows_sorted N t :
  StronglySorted (lower_le lower) t →
  StronglySorted (lower_le lower) (update_rows lower N t).1.
Proof.
  intros Ht. unfold update_rows. apply add_step_sorted. cbn [fst].
  rewrite (RefreshFacts.delete_rows lower).
  by apply DBRestFacts.StronglySorted_filter.
Qed.

Lemma update_rows_NoDup N t :
  NoDup (lower <$> t) → NoDup (lower <$> (update_rows lower N t).1).
Proof.
  intros Ht. rewrite update_rows_rows, fmap_app. apply NoDup_app.
  split_and!.
  - eapply sublist_NoDup; [exact Ht |]. apply fmap_sublist, sublist_filter.
  - intros k (x & -> & [_ Hx]%list_elem_of_filter)%list_elem_of_fmap
      (y & Hy & [Hn _]%list_elem_of_filter)%list_elem_of_fmap.
    apply Hn. rewrite <- Hy. apply list_elem_of_fmap. by exists x.
  - eapply sublist_NoDup; [| apply fmap_sublist, sublist_filter].
    rewrite RefreshFacts.unique_names_Permutation.
    rewrite <- (WatchFacts.unique_processes_first_seen lower lower).
    apply (WatchFacts.unique_processes_NoDup lower lower).
Qed.

(** X20. The refresher keeps the running table free of doubles: whatever
    a tick finds (monitoring or not, a collector or none, a listing or an
    exception), a table without two rows equal up to case is one after
    the tick, when the tick comes to its end; so is the empty table the
    window starts with. The order of the rows after a tick with a listing
    is that of the table's sorting where it is enabled (sorted by the
    order of the sort indicator, when that is transitive and total); where
    it is disabled, rows that ascend by lower-cased name still do, rows
    removed and rows inserted. *)
Theorem refresh_keeps_order N t (print_returns : bool) :
  (∀ monitoring collector was_sorting_enabled r,
     refresh_running_processes lower qt_le monitoring collector
       print_returns was_sorting_enabled t = Some r →
     NoDup (lower <$> t) → NoDup (lower <$> r.1)) ∧
  (∀ was_sorting_enabled, ∃ r,
     refresh_running_processes lower qt_le false (Some (Some N))
       print_returns was_sorting_enabled [] = Some r ∧
     NoDup (lower <$> r.1)) ∧
  (∃ r,
     refresh_running_processes lower qt_le false (Some (Some N))
       print_returns true t = Some r ∧
     (Transitive qt_le → Total qt_le → StronglySorted qt_le r.1)) ∧
  (∃ r,
     refresh_running_processes lower qt_le false (Some (Some N))
       print_returns false t = Some r ∧
     (StronglySorted (lower_le lower) t → StronglySorted (lower_le lower) r.1)) ∧
  (∃ r,
     refresh_running_processes lower qt_le false (Some (Some N))
       print_returns false [] = Some r ∧
     StronglySorted (lower_le lower) r.1).
Proof.
  assert (Hnodup : ∀ enable N' t', NoDup (lower <$> t') →
            NoDup (lower <$> (refresh_table lower qt_le enable N' t').1)).
  { intros enable N' t' Ht'. unfold refresh_table. cbn [fst].
    rewrite set_sorting_enabled_Permutation. by apply update_rows_NoDup. }
  split_and!.
  - intros monitoring collector enable r Hr Ht.
    unfold refresh_running_processes in Hr.
    destruct monitoring; [by simplify_eq |].
    destruct collector as [[N'|]|]; [| | by simplify_eq].
    + simplify_eq. by apply Hnodup.
    + destruct print_returns; by simplify_eq.
  - intros enable. eexists. split; [done |]. apply Hnodup. constructor.
  - eexists. split; [done |]. intros Htrans Htotal.
    unfold refresh_table. cbn [fst set_sorting_enabled].
    by apply StronglySorted_merge_sort.
  - eexists. split; [done |]. intros Ht.
    unfold refresh_table. cbn [fst set_sorting_enabled].
    by apply update_rows_sorted.
  - eexists. split; [done |].
    unfold refresh_table. cbn [fst set_sorting_enabled].
    apply update_rows_sorted. constructor.
Qed.

End Settled.

(** *** Concrete runs *)

(** The table sorted by Qt in ascending order of the texts: the rows
    ["a"], ["b"] become ["b"], ["c"], and the next tick leaves them. *)
Lemma refresh_settles_witness :
  refresh_running_processes PyStr.lower String.le false
    (Some (Some ["B"; "c"; "b"])) true true ["a"; "b"]
  = Some (["b"; "c"], [RemoveRow 0; InsertRow 1 "c"]) ∧
  refresh_running_processes PyStr.lower String.le false
    (Some (Some ["B"; "c"; "b"])) true true ["b"; "c"]
  = Some (["b"; "c"], []).
Proof.
  destruct (refresh_settles PyStr.lower String.le ["B"; "c"; "b"] ["a"; "b"]
              true true) as (r & Hr & _ & _ & _ & Hsame).
  assert (Hfirst : refresh_running_processes PyStr.lower String.le false
            (Some (Some ["B"; "c"; "b"])) true true ["a"; "b"]
          = Some (["b"; "c"], [RemoveRow 0; InsertRow 1 "c"]))
    by (vm_compute; reflexivity).
  split; [exact Hfirst |].
  rewrite Hfirst in Hr. injection Hr as <-. apply Hsame.
  right. split_and!; apply _.
Defined.

End RefreshTableFacts.

(** ** The order of time stamps *)

Module TimestampFacts.
Import Clock PlatformUtils.

Lemma ascii_compare_refl (c : ascii) : Ascii.compare c c = Eq.
Proof. unfold Ascii.compare. apply N.compare_refl. Qed.

(** Texts that start with parts of one length compare by their parts. *)
Lemma compare_app (a b s t : string) :
  String.length a = String.length b →
  String.compare (a ++ s) (b ++ t) = lex (String.compare a b) (String.compare s t).
Proof.
  revert b. induction a as [|c a IH]; intros [|c' b] Hlen; try done.
  injection Hlen as Hlen.
  change (String.compare (String c (a ++ s)) (String c' (b ++ t))
          = lex (String.compare (String c a) (String c' b)) (String.compare s t)).
  cbn [String.compare]. destruct (Ascii.compare c c'); [by apply IH | done | done].
Qed.

Lemma compare_sep (c : ascii) (s t : string) :
  String.compare (String c s) (String c t) = String.compare s t.
Proof. cbn [String.compare]. by rewrite ascii_compare_refl. Qed.

Lemma compare_single (c c' : ascii) :
  String.compare (String c "") (String c' "") = Ascii.compare c c'.
Proof. cbn [String.compare]. by destruct (Ascii.compare c c'). Qed.

Lemma digit_compare (n m : N) :
  Ascii.compare (digit n) (digit m) = (n mod 10 ?= m mod 10)%N.
Proof.
  unfold Ascii.compare, digit.
  assert (n mod 10 < 10)%N by (apply N.mod_lt; lia).
  assert (m mod 10 < 10)%N by (apply N.mod_lt; lia).
  rewrite !N_ascii_embedding by lia.
  destruct (N.compare_spec (n mod 10) (m mod 10));
    [apply N.compare_eq_iff | apply N.compare_lt_iff | apply N.compare_gt_iff];
    lia.
Qed.

Lemma lex_compare_pair (a b r s : N) :
  (r < 10)%N → (s < 10)%N →
  lex (a ?= b)%N (r ?= s)%N = (10 * a + r ?= 10 * b + s)%N.
Proof.
  intros Hr Hs. unfold lex.
  destruct (N.compare_spec a b); destruct (N.compare_spec r s); symmetry;
    first [apply N.compare_eq_iff | apply N.compare_lt_iff
          | apply N.compare_gt_iff]; lia.
Qed.

(** Numbers printed with one width compare as their texts do. *)
Lemma digits_compare (w : nat) (n m : N) :
  (n < 10 ^ N.of_nat w)%N → (m < 10 ^ N.of_nat w)%N →
  String.compare (digits w n) (digits w m) = (n ?= m)%N.
Proof.
  revert n m. induction w as [|w IH]; intros n m Hn Hm.
  - cbn in Hn, Hm. assert (n = 0 ∧ m = 0)%N as [-> ->] by lia. done.
  - cbn [digits]. rewrite compare_app by (by rewrite !ClockFacts.digits_length).
    rewrite Nat2N.inj_succ, N.pow_succ_r' in Hn, Hm.
    rewrite IH by (apply N.Div0.div_lt_upper_bound; lia).
    rewrite compare_single, digit_compare.
    assert (n mod 10 < 10)%N by (apply N.mod_lt; lia).
    assert (m mod 10 < 10)%N by (apply N.mod_lt; lia).
    rewrite lex_compare_pair by done. by rewrite <- !N.div_mod by lia.
Qed.

(** The fraction [isoformat] prints, or leaves out. *)
Lemma fraction_compare (u1 u2 : N) :
  (u1 < 1000000)%N → (u2 < 1000000)%N →
  String.compare (if (u1 =? 0)%N then "" else "." ++ digits 6 u1)
                 (if (u2 =? 0)%N then "" else "." ++ digits 6 u2)
  = (u1 ?= u2)%N.
Proof.
  intros H1 H2.
  destruct (N.eqb_spec u1 0) as [->|Hu1], (N.eqb_spec u2 0) as [->|Hu2].
  - done.
  - symmetry. apply N.compare_lt_iff. lia.
  - symmetry. apply N.compare_gt_iff. lia.
  - change ("." ++ digits 6 ?u)%string with (String "." (digits 6 u)).
    rewrite compare_sep. by apply digits_compare.
Qed.

Lemma string_le_compare (s t : string) :
  String.le s t ↔ String.compare s t ≠ Gt.
Proof.
  unfold String.le, String.leb. destruct (String.compare s t); cbn; split; done.
Qed.

(** The texts of two instants compare as the instants. *)
Lemma isoformat_compare (d1 d2 : datetime) :
  valid d1 → valid d2 →
  String.compare (isoformat d1) (isoformat d2) = compare_datetime d1 d2.
Proof.
  intros Hv1 Hv2.
  destruct d1 as [y1 mo1 da1 h1 mi1 s1 u1], d2 as [y2 mo2 da2 h2 mi2 s2 u2].
  unfold valid, isoformat, compare_datetime in *.
  cbn [year month day hour minute second microsecond] in *.
  destruct Hv1 as (?&?&?&?&?&?&?), Hv2 as (?&?&?&?&?&?&?).
  repeat (rewrite compare_app by (by rewrite !ClockFacts.digits_length);
          rewrite digits_compare by (cbn; lia); f_equal;
          try match goal with
          | |- String.compare (String ?c "" ++ _) (String ?c "" ++ _) = _ =>
              change (String c "" ++ ?r)%string with (String c r);
              rewrite compare_sep
          end).
  by apply fraction_compare.
Qed.

(** X21. The text order of time stamps is the order of the instants: two
    [isoformat] texts compare as the two [datetime]s do, whether the
    fraction of the second is printed or left out. [ORDER BY timestamp]
    therefore lists the rows from the earliest to the latest. *)
Theorem timestamps_sort_by_instant (d1 d2 : datetime) :
  valid d1 → valid d2 →
  String.compare (isoformat d1) (isoformat d2) = compare_datetime d1 d2 ∧
  (String.le (isoformat d1) (isoformat d2) ↔ compare_datetime d1 d2 ≠ Gt) ∧
  (isoformat d1 = isoformat d2 ↔ compare_datetime d1 d2 = Eq).
Proof.
  intros Hv1 Hv2. pose proof (isoformat_compare d1 d2 Hv1 Hv2) as Hcmp.
  split_and!; [done | by rewrite string_le_compare, Hcmp |].
  rewrite <- Hcmp. split.
  - intros ->. clear. induction (isoformat d2) as [|c s IH]; [done |].
    by rewrite compare_sep.
  - apply String.compare_eq_iff.
Qed.

(** X22. The name of the database file tells the second monitoring was
    started in, and nothing finer: the names of two starts compare as the
    two instants do to the second, so they are the same name exactly when
    the starts fall in the same second, and the names sort by time. (The
    years have four digits, as [%Y] prints them in full only then.) *)
Theorem db_filename_to_the_second (d1 d2 : datetime) :
  valid d1 → valid d2 → (1000 ≤ year d1)%N → (1000 ≤ year d2)%N →
  String.compare (get_timestamp_string d1) (get_timestamp_string d2)
  = compare_second d1 d2 ∧
  (db_filename d1 = db_filename d2 ↔ compare_second d1 d2 = Eq) ∧
  String.length (get_timestamp_string d1) = 15%nat.
Proof.
  intros Hv1 Hv2 _ _.
  assert (Hcmp : String.compare (get_timestamp_string d1) (get_timestamp_string d2)
                 = compare_second d1 d2).
  { destruct d1 as [y1 mo1 da1 h1 mi1 s1 u1], d2 as [y2 mo2 da2 h2 mi2 s2 u2].
    unfold valid, get_timestamp_string, compare_second in *.
    cbn [year month day hour minute second microsecond] in *.
    destruct Hv1 as (?&?&?&?&?&?&?), Hv2 as (?&?&?&?&?&?&?).
    repeat (rewrite compare_app by (by rewrite !ClockFacts.digits_length);
            rewrite digits_compare by (cbn; lia); f_equal;
            try match goal with
            | |- String.compare (String ?c "" ++ _) (String ?c "" ++ _) = _ =>
                change (String c "" ++ ?r)%string with (String c r);
                rewrite compare_sep
            end).
    apply digits_compare; cbn; lia. }
  split_and!; [done | |].
  - rewrite <- Hcmp. unfold db_filename. split.
    + intros Heq. apply ClockFacts.string_app_inj in Heq as [-> _].
      * clear. induction (get_timestamp_string d2) as [|c s IH]; [done |].
        by rewrite compare_sep.
      * unfold get_timestamp_string.
        by rewrite !ClockFacts.string_app_length, !ClockFacts.digits_length.
    + intros Heq%String.compare_eq_iff. by rewrite Heq.
  - unfold get_timestamp_string.
    by rewrite !ClockFacts.string_app_length, !ClockFacts.digits_length.
Qed.

(** *** Concrete runs *)

Lemma timestamps_sort_by_instant_witness :
  let d1 := mk_datetime 2025 1 1 12 0 0 0 in
  let d2 := mk_datetime 2025 1 1 12 0 0 1 in
  valid d1 ∧ valid d2 ∧
  String.compare (isoformat d1) (isoformat d2) = compare_datetime d1 d2 ∧
  (String.le (isoformat d1) (isoformat d2) ↔ compare_datetime d1 d2 ≠ Gt) ∧
  (isoformat d1 = isoformat d2 ↔ compare_datetime d1 d2 = Eq).
Proof.
  intros d1 d2.
  assert (H1 : valid d1) by (unfold valid; cbn; lia).
  assert (H2 : valid d2) by (unfold valid; cbn; lia).
  split; [exact H1 |]. split; [exact H2 |].
  exact (timestamps_sort_by_instant d1 d2 H1 H2).
Defined.

Lemma db_filename_to_the_second_witness :
  let d1 := mk_datetime 2025 1 1 12 0 0 250000 in
  let d2 := mk_datetime 2025 1 1 12 0 0 900000 in
  valid d1 ∧ valid d2 ∧ (1000 ≤ year d1)%N ∧ (1000 ≤ year d2)%N ∧
  String.compare (get_timestamp_string d1) (get_timestamp_string d2)
  = compare_second d1 d2 ∧
  (db_filename d1 = db_filename d2 ↔ compare_second d1 d2 = Eq) ∧
  String.length (get_timestamp_string d1) = 15%nat.
Proof.
  intros d1 d2.
  assert (H1 : valid d1) by (unfold valid; cbn; lia).
  assert (H2 : valid d2) by (unfold valid; cbn; lia).
  assert (H3 : (1000 ≤ year d1)%N) by (cbn; lia).
  assert (H4 : (1000 ≤ year d2)%N) by (cbn; lia).
  split; [exact H1 |]. split; [exact H2 |].
  split; [exact H3 |]. split; [exact H4 |].
  exact (db_filename_to_the_second d1 d2 H1 H2 H3 H4).
Defined.

(** A stamp without a fraction sorts before the stamps of the same second
    that have one; two starts within a second share their database. *)
Example stamps_of_one_second :
  isoformat (mk_datetime 2025 1 1 12 0 0 0) = "2025-01-01T12:00:00" ∧
  String.ltb "2025-01-01T12:00:00" "2025-01-01T12:00:00.000001" = true ∧
  db_filename (mk_datetime 2025 1 1 12 0 0 250000) = "20250101_120000.db" ∧
  db_filename (mk_datetime 2025 1 1 12 0 0 900000) = "20250101_120000.db".
Proof. split_and!; vm_compute; reflexivity. Qed.

End TimestampFacts.

(** ** A session of monitoring, read back *)

Module HistoryFacts.
Import Clock PlatformUtils DB DBRest.
Local Open Scope Z_scope.
Local Open Scope list_scope.

Lemma foldr_max_le (l : list Z) (b : Z) :
  0 ≤ b → Forall (λ x, x ≤ b) l → foldr Z.max 0 l ≤ b.
Proof. intros Hb. induction 1; cbn [foldr]; lia. Qed.

Lemma filter_all {A} (P : A → Prop) `{!∀ x, Decision (P x)} (l : list A) :
  Forall P l → filter P l = l.
Proof.
  induction 1 as [|x l Hx _ IH]; [done |].
  by rewrite filter_cons, decide_True, IH.
Qed.

Lemma StronglySorted_fmap_inv {A B} (R : relation B) (f : A → B) (l : list A) :
  StronglySorted R (f <$> l) → StronglySorted (λ x y, R (f x) (f y)) l.
Proof.
  induction l as [|x l IH]; [constructor |]. rewrite fmap_cons.
  intros [Hl Hx]%StronglySorted_inv. constructor; [by apply IH |].
  rewrite Forall_fmap in Hx. exact Hx.
Qed.

Lemma NoDup_fmap_elem_of {A B} (f : A → B) (l : list A) (x y : A) :
  NoDup (f <$> l) → x ∈ l → y ∈ l → f x = f y → x = y.
Proof.
  induction l as [|z l IH]; [by intros _ ?%elem_of_nil |].
  rewrite fmap_cons. intros [Hz Hnd]%NoDup_cons.
  intros [->|Hx]%elem_of_cons [->|Hy]%elem_of_cons Heq; [done | | | by apply IH].
  - destruct Hz. rewrite Heq. apply list_elem_of_fmap. by exists y.
  - destruct Hz. rewrite <- Heq. apply list_elem_of_fmap. by exists x.
Qed.

Section History.

Context {real : Type}.
Variable json_dumps : @json real → string.
Variable json_loads : string → option (@json real).

Implicit Types (writes : list (datetime * @ProcessInfo real)).

(** The row a write leaves, when it is the [i]-th write to a fresh store. *)
Local Abbreviation written i w :=
  (values json_dumps (isoformat w.1) w.2 (Z.of_nat i + 1)).

(** Writes at instants that go up replace nothing: the table holds one row
    per write, in the order of the writes, under the ids 1, 2, ... *)
Lemma insert_all_rows writes :
  Forall (λ w, valid w.1) writes →
  StronglySorted (λ a b, compare_datetime a b = Lt) writes.*1 →
  processes (insert_all json_dumps writes init_database)
  = imap (λ i w, written i w) writes ∧
  processes_seq (insert_all json_dumps writes init_database)
  = Z.of_nat (length writes).
Proof.
  induction writes as [|w writes IH] using rev_ind; intros Hvalid Hsorted;
    [done |].
  rewrite fmap_app in Hsorted.
  apply StronglySorted_app in Hsorted as (Hbefore & Hsorted & _).
  apply Forall_app in Hvalid as [Hvalid [Hw _]%Forall_cons].
  destruct (IH Hvalid Hsorted) as [Hrows Hseq]. clear IH.
  pose proof (DBRestFacts.insert_all_well json_dumps writes) as [(_ & _ & Hids) _].
  rewrite DBRestFacts.insert_all_snoc.
  unfold insert_process_info, insert_or_replace. cbn [processes processes_seq].
  set (db := insert_all json_dumps writes init_database) in *.
  assert (Z.max (processes_seq db) (foldr Z.max 0 (row_id <$> processes db)) + 1
          = Z.of_nat (length writes) + 1) as ->.
  { assert (foldr Z.max 0 (row_id <$> processes db) ≤ processes_seq db);
      [| lia].
    apply foldr_max_le; [lia |]. apply Forall_fmap.
    eapply Forall_impl; [exact Hids |]. intros r. cbn. lia. }
  split; [| rewrite length_app; cbn [length]; lia].
  rewrite imap_app. cbn [imap]. rewrite Nat.add_0_r. f_equal.
  rewrite filter_all; [done |]. rewrite Hrows.
  apply Forall_forall. intros r (i & w' & -> & Hw')%elem_of_lookup_imap.
  intros [Hts _]. cbn [row_timestamp values] in Hts.
  assert (compare_datetime w'.1 w.1 = Lt) as Hlt.
  { apply Hbefore; [| left]. apply list_elem_of_fmap. exists w'.
    split; [done |]. by eapply list_elem_of_lookup_2. }
  rewrite <- TimestampFacts.isoformat_compare, Hts in Hlt; [| | done].
  - clear -Hlt. induction (isoformat w.1) as [|c s IHs]; [done |].
    rewrite TimestampFacts.compare_sep in Hlt. by apply IHs.
  - rewrite Forall_forall in Hvalid. apply Hvalid.
    by eapply list_elem_of_lookup_2.
Qed.

(** X23. A session read back. Samples written to a fresh store at instants
    that go up, as a clock gives them, are all kept, and
    [get_process_data] without a filter returns them in the order they
    were written, the [i]-th under the id [i]. *)
Theorem history_in_writing_order writes :
  Forall (λ w, valid w.1) writes →
  StronglySorted (λ a b, compare_datetime a b = Lt) writes.*1 →
  get_process_data json_loads (insert_all json_dumps writes init_database)
    None None None None
  = imap (λ i w, to_data json_loads (written i w)) writes.
Proof.
  intros Hvalid Hsorted.
  destruct (insert_all_rows writes Hvalid Hsorted) as [Hrows _].
  unfold get_process_data, select_processes. rewrite Hrows.
  rewrite filter_all by (by apply Forall_forall).
  set (rows := imap (λ i w, written i w) writes).
  assert (Hts : row_timestamp <$> rows = isoformat <$> writes.*1).
  { subst rows. rewrite fmap_imap, <- list_fmap_compose.
    clear. induction writes as [|w writes IH] using rev_ind; [done |].
    by rewrite imap_app, fmap_app, IH. }
  assert (Hstrict : StronglySorted (λ a b, String.compare a b = Lt)
                      (row_timestamp <$> rows)).
  { rewrite Hts. clear -Hvalid Hsorted.
    induction writes as [|w writes IH]; [constructor |].
    rewrite !fmap_cons in *. apply Forall_cons in Hvalid as [Hw Hvalid].
    apply StronglySorted_inv in Hsorted as [Hsorted Hall].
    constructor; [by apply IH |].
    rewrite Forall_forall in Hall. rewrite Forall_forall in Hvalid.
    rewrite Forall_forall.
    intros ts (d & -> & (w' & -> & Hw')%list_elem_of_fmap)%list_elem_of_fmap.
    rewrite TimestampFacts.isoformat_compare; [| done | by apply Hvalid].
    apply Hall, list_elem_of_fmap. by exists w'. }
  assert (Hnd : NoDup (row_timestamp <$> rows)).
  { clear -Hstrict. induction Hstrict as [|ts l _ IH Hall]; constructor; [| done].
    intros Hin. rewrite Forall_forall in Hall. specialize (Hall ts Hin).
    clear -Hall. induction ts as [|c s IHs]; [done |].
    rewrite TimestampFacts.compare_sep in Hall. by apply IHs. }
  assert (merge_sort timestamp_le rows = rows) as ->;
    [| subst rows; by rewrite fmap_imap].
  apply (StronglySorted_unique_strong timestamp_le).
  - intros r1 r2 Hr1 Hr2 H12 H21. rewrite merge_sort_Permutation in Hr1.
    apply (NoDup_fmap_elem_of row_timestamp rows); [done .. |].
    unfold timestamp_le in *. by apply (anti_symm String.le).
  - apply StronglySorted_merge_sort.
    + intros r1 r2 r3. unfold timestamp_le. apply transitivity.
    + intros r1 r2. unfold timestamp_le. apply total, _.
  - apply (StronglySorted_fmap_inv String.le row_timestamp).
    eapply DBRestFacts.StronglySorted_weaken; [| exact Hstrict].
    intros a b Hab. apply TimestampFacts.string_le_compare. by rewrite Hab.
  - apply merge_sort_Permutation.
Qed.

End History.

(** *** Concrete runs *)

Lemma history_in_writing_order_witness :
  let dumps := λ _ : @json Z, "{...}" in
  let loads := λ _ : string, @None (@json Z) in
  let s1 := mk_ProcessInfo 4242 "chrome" "chrome --type=gpu" "alice" 10 200 [] in
  let s2 := mk_ProcessInfo 4242 "chrome" "chrome --type=gpu" "alice" 35 180 [] in
  let writes := [ (mk_datetime 2025 1 1 12 0 0 250000, s1);
                  (mk_datetime 2025 1 1 12 0 5 0, s2) ] in
  Forall (λ w, valid w.1) writes ∧
  StronglySorted (λ a b, compare_datetime a b = Lt) writes.*1 ∧
  get_process_data loads (insert_all dumps writes init_database)
    None None None None
  = imap (λ i w, to_data loads
                   (values dumps (isoformat w.1) w.2 (Z.of_nat i + 1))) writes.
Proof.
  intros dumps loads s1 s2 writes.
  assert (H1 : Forall (λ w, valid w.1) writes).
  { repeat constructor; cbn; lia. }
  assert (H2 : StronglySorted (λ a b, compare_datetime a b = Lt) writes.*1).
  { repeat constructor. }
  split; [exact H1 |]. split; [exact H2 |].
  exact (history_in_writing_order dumps loads writes H1 H2).
Defined.

End HistoryFacts.

(** ** The pace of the monitoring loop *)

Module LoopPaceFacts.
Import Loop.
Local Open Scope nat_scope.

Section Pace.

Context {World ProcessInfo SystemInfo exn : Type}.
Context `{!Machine World ProcessInfo SystemInfo exn}.

(** The number of sleeps a world has seen. [time.sleep] adds one; the
    collector, the store, the stamp and [print] add none, whether they
    return or raise. *)
Variable slept : World → nat.

Hypothesis slept_get_processes :
  ∀ name w, slept (get_processes_by_name name w).2 = slept w.
Hypothesis slept_get_system : ∀ w, slept (get_system_info w).2 = slept w.
Hypothesis slept_insert_process :
  ∀ p w, slept (insert_process_info p w).2 = slept w.
Hypothesis slept_insert_system :
  ∀ s w, slept (insert_system_info s w).2 = slept w.
Hypothesis slept_stamp : ∀ w, slept (set_last_record_time w) = slept w.
Hypothesis slept_print : ∀ e w, slept (print_error e w).2 = slept w.
Hypothesis slept_sleep : ∀ interval w, slept (sleep interval w) = S (slept w).

Implicit Types (w : World).

(** A computation that does not sleep, and one that sleeps [n] times when
    it returns and not at all when it raises. *)
Local Abbreviation quiet c := (∀ w, slept (c w).2 = slept w).
Local Abbreviation paced n c :=
  (∀ w, match c w with
        | (Return _, w') => slept w' = slept w + n
        | (Raise _, w') => slept w' = slept w
        end).

Lemma quiet_bind {A B} (c : comp World exn A) (k : A → comp World exn B) :
  quiet c → (∀ a, quiet (k a)) → quiet (bind c k).
Proof.
  intros Hc Hk w. unfold bind. specialize (Hc w).
  destruct (c w) as [[a|e] w1]; cbn [snd] in *; [| done].
  by rewrite Hk.
Qed.

Lemma quiet_collect (names : list string) (acc : list ProcessInfo) :
  quiet (collect names acc).
Proof.
  revert acc. induction names as [|name names IH]; intros acc; [done |].
  cbn [collect]. apply quiet_bind; [apply slept_get_processes |].
  intros procs. apply IH.
Qed.

Lemma quiet_for_each (l : list ProcessInfo) :
  quiet (for_each l insert_process_info).
Proof.
  induction l as [|p l IH]; [done |].
  cbn [for_each]. apply quiet_bind; [apply slept_insert_process | done].
Qed.

Lemma paced_bind {A B} (n : nat) (c : comp World exn A)
    (k : A → comp World exn B) :
  quiet c → (∀ a, paced n (k a)) → paced n (bind c k).
Proof.
  intros Hc Hk w. unfold bind. specialize (Hc w).
  destruct (c w) as [[a|e] w1]; cbn [snd] in *; [| done].
  specialize (Hk a w1). destruct (k a w1) as [[b|e] w2]; congruence.
Qed.

Lemma paced_tick_body (interval : Z) (names : list string) :
  paced 1 (tick_body interval names).
Proof.
  unfold tick_body.
  apply paced_bind; [apply quiet_collect |]. intros processes_to_record.
  apply paced_bind; [apply quiet_for_each |]. intros _.
  apply paced_bind; [apply slept_get_system |]. intros system_info.
  apply paced_bind; [apply slept_insert_system |]. intros _.
  apply paced_bind; [intros w; apply slept_stamp |]. intros _.
  intros w. cbn. rewrite slept_sleep. lia.
Qed.

(** An iteration that returns has slept once; one that raises has not
    slept, and what it raises came out of the handler's [print]. *)
Lemma tick_pace (interval : Z) (names : list string) w :
  match tick interval names w with
  | (Return _, w') => slept w' = S (slept w)
  | (Raise e', w') =>
      slept w' = slept w ∧
      ∃ e w1, tick_body interval names w = (Raise e, w1) ∧
              print_error e w1 = (Raise e', w')
  end.
Proof.
  pose proof (paced_tick_body interval names w) as Hb.
  destruct (tick_body interval names w) as [[[]|e] w1] eqn:Hbody.
  - rewrite (LoopFacts.tick_of_Return _ _ _ _ _ Hbody). lia.
  - rewrite (LoopFacts.tick_of_Raise _ _ _ _ _ Hbody).
    pose proof (slept_print e w1) as Hp.
    destruct (print_error e w1) as [[[]|e'] w2] eqn:Hprint; cbn [snd] in Hp.
    + rewrite slept_sleep. lia.
    + split; [lia |]. by exists e, w1.
Qed.

(** X24. Every iteration of the monitoring loop that comes to its end has
    slept once, whether it recorded or failed: a failing iteration neither
    skips the wait nor waits twice. An iteration ends without the sleep
    only when the [print] of its handler raises; the loop then ends by
    that exception. A run of the loop that returns has slept as many times
    as it had iterations, and it returned on finding the flag cleared. *)
Theorem every_iteration_sleeps_once (interval : Z) (names : list string) w :
  match tick interval names w with
  | (Return _, w') => slept w' = S (slept w)
  | (Raise e', w') =>
      slept w' = slept w ∧
      ∃ e w1, tick_body interval names w = (Raise e, w1) ∧
              print_error e w1 = (Raise e', w')
  end ∧
  ∀ fuel,
    match monitor_loop fuel interval names w with
    | (Return b, w') =>
        ∃ n, slept w' = slept w + n ∧ n ≤ fuel ∧
             if b then monitoring w' = false else n = fuel
    | (Raise _, w') => ∃ n, slept w' = slept w + n ∧ n < fuel
    end.
Proof.
  split; [apply tick_pace |].
  intros fuel. revert w. induction fuel as [|fuel IH]; intros w.
  - exists 0. cbn. split_and!; [lia | lia | done].
  - cbn [monitor_loop]. destruct (monitoring w) eqn:Hmon.
    + unfold bind. pose proof (tick_pace interval names w) as Ht.
      destruct (tick interval names w) as [[[]|e'] w1].
      * specialize (IH w1).
        destruct (monitor_loop fuel interval names w1) as [[b|e] w'].
        -- destruct IH as (n & Hn & Hle & Hb). exists (S n).
           split_and!; [lia | lia |]. destruct b; [done | lia].
        -- destruct IH as (n & Hn & Hlt). exists (S n). split; lia.
      * destruct Ht as [Ht _]. exists 0. split; lia.
    + exists 0. split_and!; [lia | lia | done].
Qed.

End Pace.

(** *** Concrete runs *)

(** The scripted machine counts its sleeps in the first component. *)
Lemma every_iteration_sleeps_once_witness :
  let slept := λ w : nat * list string, w.1 in
  let w := (1, ["..."]) in
  (∀ name w, slept (get_processes_by_name name w).2 = slept w) ∧
  (∀ w, slept (get_system_info w).2 = slept w) ∧
  (∀ p w, slept (insert_process_info p w).2 = slept w) ∧
  (∀ s w, slept (insert_system_info s w).2 = slept w) ∧
  (∀ w, slept (set_last_record_time w) = slept w) ∧
  (∀ e w, slept (print_error e w).2 = slept w) ∧
  (∀ interval w, slept (sleep interval w) = S (slept w)) ∧
  match tick 5 ["chrome"] w with
  | (Return _, w') => slept w' = S (slept w)
  | (Raise e', w') =>
      slept w' = slept w ∧
      ∃ e w1, tick_body 5 ["chrome"] w = (Raise e, w1) ∧
              print_error e w1 = (Raise e', w')
  end ∧
  ∀ fuel,
    match monitor_loop fuel 5 ["chrome"] w with
    | (Return b, w') =>
        ∃ n, slept w' = slept w + n ∧ n ≤ fuel ∧
             if b then monitoring w' = false else n = fuel
    | (Raise _, w') => ∃ n, slept w' = slept w + n ∧ n < fuel
    end.
Proof.
  intros slept w.
  assert (H1 : ∀ name w, slept (get_processes_by_name name w).2 = slept w)
    by reflexivity.
  assert (H2 : ∀ w, slept (get_system_info w).2 = slept w).
  { intros [n l]. cbn. by destruct (n =? 2). }
  assert (H3 : ∀ p w, slept (insert_process_info p w).2 = slept w).
  { intros p [n l]. cbn. by destruct (n =? 1). }
  assert (H4 : ∀ s w, slept (insert_system_info s w).2 = slept w)
    by reflexivity.
  assert (H5 : ∀ w, slept (set_last_record_time w) = slept w) by reflexivity.
  assert (H6 : ∀ e w, slept (print_error e w).2 = slept w) by reflexivity.
  assert (H7 : ∀ interval w, slept (sleep interval w) = S (slept w))
    by reflexivity.
  split; [exact H1 |]. split; [exact H2 |]. split; [exact H3 |].
  split; [exact H4 |]. split; [exact H5 |]. split; [exact H6 |].
  split; [exact H7 |].
  exact (every_iteration_sleeps_once slept H1 H2 H3 H4 H5 H6 H7 5 ["chrome"] w).
Defined.

End LoopPaceFacts.

(** ** Down-sampling: the ends of the series, and budgets that are none *)

Module SampleEndsFacts.
Import Sample.
Local Open Scope Z_scope.
Local Open Scope list_scope.

(** The points at indices inside the series are all there. *)
Lemma getitem_all {A} (data : list A) (indices : list Z) :
  Forall (λ idx, 0 ≤ idx < Z.of_nat (length data)) indices →
  ∃ out, mapM (getitem data) indices = Some out ∧
         Forall2 (λ idx x, data !! Z.to_nat idx = Some x) indices out.
Proof.
  induction 1 as [|idx indices Hidx _ (out & Hout & Hpts)].
  - exists []. split; [done | constructor].
  - destruct (lookup_lt_is_Some_2 data (Z.to_nat idx)) as [x Hx]; [lia |].
    exists (x :: out). split; [| by constructor].
    apply mapM_Some. constructor; [| by apply mapM_Some].
    unfold getitem. by destruct (Z.leb_spec 0 idx); [| lia].
Qed.

(** X25. What down-sampling does at the ends of a series, and how far its
    points lie apart. For a budget [M ≥ 1] and a series of [L > M] points
    ([L * M ≤ 2^51]) the first point of the series is always taken and the
    last one never is: every index is at most [L - 2]. Two neighbours among
    the points taken lie [L / M] indices apart, one more or one less. *)
Theorem sampling_keeps_first_drops_last {A} (data : list A) (max_points : Z) :
  let L := Z.of_nat (length data) in
  1 ≤ max_points → max_points < L → L * max_points ≤ 2 ^ 51 →
  ∃ indices out,
    sample_indices L max_points = Some indices ∧
    sample_data data max_points = Some out ∧
    head indices = Some 0 ∧ head out = head data ∧
    Forall (λ idx, idx ≤ L - 2) indices ∧
    (∀ (i : nat) x y, indices !! i = Some x → indices !! S i = Some y →
       L / max_points - 1 ≤ y - x ≤ L / max_points + 1).
Proof.
  intros L HM HML HLM.
  destruct (SampleFacts.sample_indices_spec L max_points HM HML HLM)
    as (indices & Hidx & Hlen & Hat & _).
  destruct (getitem_all data indices) as (out & Hout & Hpts).
  { apply Forall_lookup. intros i idx Hi. by apply Hat in Hi as [? _]. }
  exists indices, out.
  assert (Hhead : head indices = Some 0).
  { destruct indices as [|idx0 indices]; [cbn in Hlen; lia |].
    destruct (Hat 0%nat idx0 eq_refl) as [[H0 _] [Hlo _]]. cbn. f_equal. nia. }
  split_and!.
  - done.
  - unfold sample_data. fold L.
    destruct (Z.leb_spec L max_points); [lia |]. by rewrite Hidx.
  - done.
  - destruct Hpts as [|idx0 x indices out Hx _]; [done |].
    injection Hhead as ->. cbn in Hx |- *. by destruct data.
  - apply Forall_lookup. intros i idx Hi.
    pose proof (lookup_lt_Some _ _ _ Hi) as Hlt.
    destruct (Hat i idx Hi) as [_ [Hlo _]].
    assert (Z.of_nat i * L ≤ (max_points - 1) * L)
      by (apply Z.mul_le_mono_nonneg_r; lia).
    assert (idx * max_points < (L - 1) * max_points) as Hidxlt by nia.
    apply Z.mul_lt_mono_pos_r in Hidxlt; lia.
  - intros i x y Hx Hy.
    destruct (Hat i x Hx) as [_ [Hxlo Hxhi]].
    destruct (Hat (S i) y Hy) as [_ [Hylo Hyhi]].
    rewrite Nat2Z.inj_succ in Hylo, Hyhi.
    pose proof (Z.mul_div_le L max_points ltac:(lia)) as Hq1.
    pose proof (Z.mul_succ_div_gt L max_points ltac:(lia)) as Hq2.
    set (q := L / max_points) in *. split.
    + assert ((x + q) * max_points ≤ (y + 1) * max_points) as Hle by nia.
      apply Z.mul_le_mono_pos_r in Hle; lia.
    + assert (y * max_points < (x + q + 2) * max_points) as Hlt by nia.
      apply Z.mul_lt_mono_pos_r in Hlt; lia.
Qed.

(** X26. Budgets that are none. With a budget of zero a series that is not
    empty cannot be drawn: the division raises. With a negative budget
    nothing raises and nothing is left: the result is the empty series.
    The empty series comes back empty under every budget. *)
Theorem degenerate_budgets {A} (x : A) (data : list A) (p : positive) (M : Z) :
  sample_data (x :: data) 0 = None ∧
  sample_data (x :: data) (Z.neg p) = Some [] ∧
  sample_data ([] : list A) M = Some [].
Proof.
  split_and!.
  - unfold sample_data. destruct (Z.leb_spec (Z.of_nat (length (x :: data))) 0)
      as [Hle|_]; [cbn [length] in Hle; lia | done].
  - unfold sample_data.
    destruct (Z.leb_spec (Z.of_nat (length (x :: data))) (Z.neg p))
      as [Hle|_]; [cbn [length] in Hle; lia |].
    unfold sample_indices, truediv. cbn [Z.eqb mbind option_bind].
    unfold range. change (Z.to_nat (Z.neg p)) with 0%nat. reflexivity.
  - unfold sample_data. cbn [length]. change (Z.of_nat 0) with 0.
    destruct (Z.leb_spec 0 M) as [_|HM]; [done |].
    unfold sample_indices, truediv.
    destruct (Z.eqb_spec M 0) as [->|_]; [lia |]. cbn [mbind option_bind].
    unfold range. destruct M as [|q|q]; [lia | lia |].
    change (Z.to_nat (Z.neg q)) with 0%nat. reflexivity.
Qed.

(** *** Concrete runs *)

Lemma sampling_keeps_first_drops_last_witness :
  let data := ["a"; "b"; "c"; "d"; "e"; "f"; "g"; "h"; "i"; "j"; "k"; "l"] in
  let L := Z.of_nat (length data) in
  1 ≤ 5 ∧ 5 < L ∧ L * 5 ≤ 2 ^ 51 ∧
  ∃ indices out,
    sample_indices L 5 = Some indices ∧
    sample_data data 5 = Some out ∧
    head indices = Some 0 ∧ head out = head data ∧
    Forall (λ idx, idx ≤ L - 2) indices ∧
    (∀ (i : nat) x y, indices !! i = Some x → indices !! S i = Some y →
       L / 5 - 1 ≤ y - x ≤ L / 5 + 1).
Proof.
  intros data L.
  assert (H1 : 1 ≤ 5) by lia.
  assert (H2 : 5 < L) by (subst L; cbn; lia).
  assert (H3 : L * 5 ≤ 2 ^ 51) by (subst L; cbn; lia).
  split; [exact H1 |]. split; [exact H2 |]. split; [exact H3 |].
  exact (sampling_keeps_first_drops_last data 5 H1 H2 H3).
Defined.

End SampleEndsFacts.
